(** * LLM-CL: the compiler pipeline, the concept registry and the reference
    resolver, embedded from [LLM-CL_Compiler.py] and
    [LLM-CL_Encoder_Decoder.py].

    Conventions of the embedding.
    - A Python [str] is a [string]; the character classes ([isspace],
      [isalnum], [isdigit], the regex class [\d]) are the ASCII ones, so the
      development speaks about ASCII source text.
    - A Python [int] is a [Z].
    - A JSON-like Python value (what the context buffer holds) is a [pyval];
      a [dict] is an association list in insertion order.
    - A method that reads or writes [self] is a function in a small state
      monad over the record of the object's fields.
    - An exception is a constructor of the result type. *)

From Stdlib Require Import String Ascii List ZArith NArith Bool Lia.
From Stdlib Require Import DecimalString DecimalN DecimalZ DecimalFacts.
From stdpp Require Import gmap strings list fin_maps.

Import ListNotations.
Set Warnings "-register-all".
Local Open Scope string_scope.
Local Open Scope list_scope.

(** ** Python's string and integer primitives *)

Module Py.

(** [c.isspace()] on ASCII: space, tab, LF, VT, FF, CR and the four
    separators 0x1c..0x1f. *)
Definition isspace (c : ascii) : bool :=
  let n := nat_of_ascii c in
  (n =? 32)%nat || ((9 <=? n)%nat && (n <=? 13)%nat)
  || ((28 <=? n)%nat && (n <=? 31)%nat).

(** [c.isdigit()], and the regex class [\d], on ASCII. *)
Definition isdigit (c : ascii) : bool :=
  let n := nat_of_ascii c in (48 <=? n)%nat && (n <=? 57)%nat.

Definition isalpha (c : ascii) : bool :=
  let n := nat_of_ascii c in
  ((65 <=? n)%nat && (n <=? 90)%nat) || ((97 <=? n)%nat && (n <=? 122)%nat).

Definition isalnum (c : ascii) : bool := isalpha c || isdigit c.

(** [s.isdigit()]: non-empty and every character a digit. *)
Fixpoint all_chars (p : ascii -> bool) (s : string) : bool :=
  match s with
  | EmptyString => true
  | String c r => p c && all_chars p r
  end.

Definition str_isdigit (s : string) : bool :=
  match s with
  | EmptyString => false
  | _ => all_chars isdigit s
  end.

(** [c in s] for a one-character [c]. *)
Fixpoint contains (c : ascii) (s : string) : bool :=
  match s with
  | EmptyString => false
  | String d r => Ascii.eqb d c || contains c r
  end.

(** [s.startswith(p)]. *)
Definition startswith (s p : string) : bool := String.prefix p s.

(** [s[n:]] for [n >= 0]. *)
Fixpoint drop (n : nat) (s : string) : string :=
  match n, s with
  | O, _ => s
  | S k, EmptyString => EmptyString
  | S k, String _ r => drop k r
  end.

(** [s.split(sep)] for a one-character separator: never the empty list. *)
Fixpoint split (sep : ascii) (s : string) : list string :=
  match s with
  | EmptyString => [EmptyString]
  | String c r =>
      if Ascii.eqb c sep then EmptyString :: split sep r
      else match split sep r with
           | [] => [String c EmptyString]
           | h :: t => String c h :: t
           end
  end.

(** [sep.join(l)]. *)
Definition join (sep : string) (l : list string) : string :=
  String.concat sep l.

(** [s.strip()]: the characters of [isspace] go, at both ends. *)
Fixpoint lstrip (s : string) : string :=
  match s with
  | String c r => if isspace c then lstrip r else s
  | EmptyString => EmptyString
  end.

Fixpoint rstrip (s : string) : string :=
  match s with
  | EmptyString => EmptyString
  | String c r =>
      match rstrip r with
      | EmptyString => if isspace c then EmptyString else String c EmptyString
      | r' => String c r'
      end
  end.

Definition strip (s : string) : string := rstrip (lstrip s).

(** The digits of an integer literal may be grouped by single underscores:
    every underscore stands between two digits. *)
Fixpoint grouped (after_digit : bool) (s : string) : bool :=
  match s with
  | EmptyString => after_digit
  | String c r =>
      if isdigit c then grouped true r
      else if Ascii.eqb c "_" then after_digit && grouped false r
      else false
  end.

Fixpoint ungroup (s : string) : string :=
  match s with
  | EmptyString => EmptyString
  | String c r => if Ascii.eqb c "_" then ungroup r else String c (ungroup r)
  end.

Definition digits_value (s : string) : option Z :=
  if grouped false s then
    match NilZero.uint_of_string (ungroup s) with
    | Some d => Some (Z.of_N (N.of_uint d))
    | None => None
    end
  else None.

(** The white space that [int()] skips around the digits of an ASCII
    [str]: space, tab, LF, VT, FF and CR. The separators 0x1c..0x1f are
    not skipped ([int] raises on them), although [isspace] holds of
    them. *)
Definition int_space (c : ascii) : bool :=
  let n := nat_of_ascii c in
  (n =? 32)%nat || ((9 <=? n)%nat && (n <=? 13)%nat).

Fixpoint int_lstrip (s : string) : string :=
  match s with
  | String c r => if int_space c then int_lstrip r else s
  | EmptyString => EmptyString
  end.

Fixpoint int_rstrip (s : string) : string :=
  match s with
  | EmptyString => EmptyString
  | String c r =>
      match int_rstrip r with
      | EmptyString => if int_space c then EmptyString else String c EmptyString
      | r' => String c r'
      end
  end.

Definition int_strip (s : string) : string := int_rstrip (int_lstrip s).

(** [int(s)] on a string: [None] is [ValueError]. Surrounding white space,
    one sign and underscore grouping are accepted, as in Python. The
    limit on the number of digits ([sys.set_int_max_str_digits], 4300
    unless the interpreter is told otherwise) is a setting of the
    interpreter and is not modelled. *)
Definition int (s : string) : option Z :=
  match int_strip s with
  | String "+" r => digits_value r
  | String "-" r => option_map Z.opp (digits_value r)
  | r => digits_value r
  end.

(** [str(n)] for an integer. *)
Definition str (z : Z) : string := NilZero.string_of_int (Z.to_int z).

(** [len(l)] and indexing [l[i]] with Python's negative indices; [None] is
    [IndexError]. *)
Definition len {A} (l : list A) : Z := Z.of_nat (List.length l).

Definition index {A} (l : list A) (i : Z) : option A :=
  if (i <? 0)%Z then
    if (len l + i <? 0)%Z then None else nth_error l (Z.to_nat (len l + i))
  else nth_error l (Z.to_nat i).

End Py.

(** ** JSON-like values held by the context buffer *)

Inductive pyval : Type :=
| PNone
| PBool (b : bool)
| PInt (z : Z)
| PStr (s : string)
| PList (items : list pyval)
| PDict (entries : list (string * pyval)).

Definition isinstance_dict (v : pyval) : bool :=
  match v with PDict _ => true | _ => false end.

(** [d.get(k)] on a dict: the value, or [PNone]. *)
Fixpoint dict_get (d : list (string * pyval)) (k : string) : pyval :=
  match d with
  | [] => PNone
  | (k', v) :: r => if String.eqb k' k then v else dict_get r k
  end.

(** ** ReferenceResolver (LLM-CL_Encoder_Decoder.py) *)

Module Resolver.

Record state : Type := mk_state {
  context_buffer : list pyval;
  max_context_size : Z
}.

(** Methods of the resolver: state in, result and state out. *)
Definition M (A : Type) : Type := state -> A * state.

Definition ret {A} (a : A) : M A := fun st => (a, st).
Definition bind {A B} (m : M A) (k : A -> M B) : M B :=
  fun st => let (a, st') := m st in k a st'.
Definition get_buffer : M (list pyval) := fun st => (context_buffer st, st).
Definition get_max : M Z := fun st => (max_context_size st, st).
Definition set_buffer (b : list pyval) : M unit :=
  fun st => (tt, mk_state b (max_context_size st)).

Notation "'do' x <- m 'in' k" := (bind m (fun x => k))
  (at level 10, x name, m at level 100, k at level 200).

(** [__init__(max_context_size=10)]. *)
Definition init (max_size : Z) : state := mk_state [] max_size.

(** [add_to_context]: append, then drop the oldest entry once when the
    buffer is longer than the maximum. *)
Definition add_to_context (message : pyval) : M unit :=
  do b <- get_buffer in
  do _u <- set_buffer (b ++ [message]) in
  do b' <- get_buffer in
  do m <- get_max in
  if (m <? Py.len b')%Z then set_buffer (List.tl b') else ret tt.

(** [_resolve_path(obj, path)]: walks the segments; [PNone] is "not
      found". It touches no field of the resolver. *)
Fixpoint _resolve_path (current : pyval) (path : list string) : pyval :=
  match path with
  | [] => current
  | segment :: rest =>
      match current with
      | PDict d =>
          if Py.startswith segment "#" then
            match List.find (fun kv => Py.startswith (fst kv) segment) d with
            | Some (_, v) => _resolve_path v rest
            | None => PNone
            end
          else
            match dict_get d segment with
            | PNone => PNone
            | v => _resolve_path v rest
            end
      | PList l =>
          match Py.int segment with
          | Some i =>
              if ((0 <=? i) && (i <? Py.len l))%Z then
                match nth_error l (Z.to_nat i) with
                | Some v => _resolve_path v rest
                | None => PNone
                end
              else PNone
          | None =>
              if Py.startswith segment "#" then
                match List.find
                        (fun item =>
                           match item with
                           | PDict e =>
                               existsb (fun kv => Py.startswith (fst kv) segment) e
                           | _ => false
                           end) l with
                | Some item => _resolve_path item rest
                | None => PNone
                end
              else PNone
          end
      | _ => PNone
      end
  end.

(** [resolve_reference(ref_token)]. The [try] around the [prev] branch
    turns the [ValueError] of [int] and an [IndexError] into "not found". *)
Definition resolve_reference (ref_token : string) : M pyval :=
  if negb (Py.startswith ref_token "^") then ret PNone
  else
    let parts := Py.split "." (Py.drop 1 ref_token) in
    let head := List.hd EmptyString parts in
    let path := List.tl parts in
    if Py.startswith head "prev" then
      match Py.int (Py.drop 4 head) with
      | None => ret PNone
      | Some i =>
          do b <- get_buffer in
          if ((i <=? 0) || (Py.len b <? i))%Z then ret PNone
          else
            match Py.index b (- i) with
            | Some message => ret (_resolve_path message path)
            | None => ret PNone
            end
      end
    else if String.eqb head "self" then
      do b <- get_buffer in
      match b with
      | [] => ret PNone
      | _ =>
          match Py.index b (-1) with
          | Some current_message => ret (_resolve_path current_message path)
          | None => ret PNone
          end
      end
    else if String.eqb head "shared" then
      ret (PDict [("type", PStr "shared_knowledge");
                  ("path", PStr (Py.join "." path))])
    else ret PNone.

End Resolver.

(** ** UniversalConceptSpace (LLM-CL_Encoder_Decoder.py) *)

Module Registry.

(** The value stored under a concept id. *)
Record ConceptDef : Type := mk_concept {
  label : string;
  definition : string;
  related : list string;
  hyponyms : list string;
  hypernyms : list string
}.

(** [self.concepts]: concept id to definition. *)
Abbreviation concepts := (gmap string ConceptDef).

(** The three edge lists of a concept. *)
Inductive edge : Type := Related | Hyponyms | Hypernyms.

Definition get_edge (e : edge) (c : ConceptDef) : list string :=
  match e with
  | Related => related c
  | Hyponyms => hyponyms c
  | Hypernyms => hypernyms c
  end.

(** [c[e].append(x)]. *)
Definition append_edge (e : edge) (x : string) (c : ConceptDef) : ConceptDef :=
  match e with
  | Related =>
      mk_concept (label c) (definition c) (related c ++ [x]) (hyponyms c) (hypernyms c)
  | Hyponyms =>
      mk_concept (label c) (definition c) (related c) (hyponyms c ++ [x]) (hypernyms c)
  | Hypernyms =>
      mk_concept (label c) (definition c) (related c) (hyponyms c) (hypernyms c ++ [x])
  end.

(** [get_concept(concept_id)]. *)
Definition get_concept (reg : concepts) (concept_id : string) : option ConceptDef :=
  reg !! concept_id.

(** [int(cid[1:]) for cid in self.concepts.keys() if cid[1:].isdigit()]. *)
Definition key_numbers (reg : concepts) : list Z :=
  List.flat_map
    (fun kv : string * ConceptDef =>
       if Py.str_isdigit (Py.drop 1 (fst kv)) then
         match Py.int (Py.drop 1 (fst kv)) with
         | Some z => [z]
         | None => []
         end
       else [])
    (map_to_list reg).

(** [max(...)] of a sequence; [None] is the [ValueError] of an empty one. *)
Definition py_max (l : list Z) : option Z :=
  match l with
  | [] => None
  | x :: r => Some (List.fold_left Z.max r x)
  end.

(** One turn of a back-patching loop:
    [if i in self.concepts and new_id not in self.concepts[i][e]:
       self.concepts[i][e].append(new_id)]. *)
Definition back_patch (e : edge) (new_id : string) (reg : concepts) (i : string)
  : concepts :=
  match reg !! i with
  | Some c =>
      if decide (new_id ∈ get_edge e c) then reg
      else <[i := append_edge e new_id c]> reg
  | None => reg
  end.

(** [add_concept(label, definition, related, hyponyms, hypernyms)]: the new
    id and the registry afterwards; [None] is the [ValueError] that [max]
    raises when no key has a numeric tail. An argument left out ([None])
    is the empty list.

    The new concept stores the argument lists themselves, so what a loop
    appends to the new concept's own list is seen by a later loop over
    that argument: the third loop runs over the stored [hypernyms] list
    as the second loop left it. The three arguments are taken to be
    distinct list objects that no concept of the registry holds. *)
Definition add_concept (lbl def : string) (rel hypo hyper : list string)
    (reg : concepts) : option (string * concepts) :=
  match py_max (key_numbers reg) with
  | None => None
  | Some m =>
      let new_id := "c" +:+ Py.str (m + 1) in
      let reg1 := <[new_id := mk_concept lbl def rel hypo hyper]> reg in
      let reg2 := foldl (back_patch Related new_id) reg1 rel in
      let reg3 := foldl (back_patch Hypernyms new_id) reg2 hypo in
      let hyper' :=
        match hyper with
        | [] => []
        | _ => match reg3 !! new_id with
               | Some c => hypernyms c
               | None => hyper
               end
        end in
      let reg4 := foldl (back_patch Hyponyms new_id) reg3 hyper' in
      Some (new_id, reg4)
  end.

(** [_initialize_default_concepts]: the registry built when no file is
    given. *)
Definition default_concepts : concepts :=
  list_to_map
    [("c142", mk_concept "artificial_intelligence"
        "The theory and development of computer systems able to perform tasks normally requiring human intelligence"
        ["c143"; "c501"; "c8901"] ["c501"; "c9872"] ["c140"]);
     ("c143", mk_concept "natural_intelligence"
        "Intelligence demonstrated by humans and animals"
        ["c142"] ["c144"; "c145"] ["c140"]);
     ("c501", mk_concept "machine_learning"
        "Computer algorithms that improve automatically through experience"
        ["c142"; "c4230"] ["c4230"; "c4492"] ["c142"]);
     ("c502", mk_concept "deep_learning"
        "Machine learning based on artificial neural networks with multiple layers"
        ["c501"; "c4230"] [] ["c501"]);
     ("c1425", mk_concept "democracy"
        "A system of government where power resides with the citizens through elected representatives"
        ["c1426"; "c1427"] ["c1428"; "c1429"] ["c1420"]);
     ("c2901", mk_concept "economics"
        "The social science that studies the production, distribution, and consumption of goods and services"
        ["c2902"; "c2903"] ["c2904"; "c2905"] ["c2900"]);
     ("c4230", mk_concept "neural_networks"
        "Computing systems designed to recognize patterns, inspired by the human brain"
        ["c501"; "c4231"] ["c4232"; "c4233"] ["c501"]);
     ("c4231", mk_concept "deep_learning"
        "Machine learning based on artificial neural networks with representation learning"
        ["c4230"; "c4232"] [] ["c4230"]);
     ("c4492", mk_concept "research"
        "Systematic investigation to establish facts and reach new conclusions"
        ["c4493"; "c4494"] ["c4495"; "c4496"] ["c4490"]);
     ("c5501", mk_concept "environment"
        "The surroundings or conditions in which a person, animal, or plant lives or operates"
        ["c5502"; "c5503"] ["c5504"; "c5505"] ["c5500"]);
     ("c6701", mk_concept "knowledge_representation"
        "The field of AI dedicated to representing information about the world in a form that a computer system can utilize"
        ["c6702"; "c6703"] ["c6704"; "c6705"] ["c6700"]);
     ("c8701", mk_concept "rules"
        "Prescribed guides for conduct or action"
        ["c2231"; "c8702"] ["c8703"; "c8704"] ["c8700"]);
     ("c2231", mk_concept "logic"
        "The study of principles of valid reasoning and inference"
        ["c8701"; "c2232"] ["c2233"; "c2234"] ["c2230"]);
     ("c117", mk_concept "climate_change"
        "Long-term changes in temperature and weather patterns"
        ["c5501"; "c118"] ["c119"; "c120"] ["c115"])].

(** *** Vocabulary of the statements about the registry *)

#[export] Instance edge_eq_dec : EqDecision edge.
Proof. solve_decision. Defined.

(** An edge list after some back-patching: as before, or with the new id
    appended once where it was missing. *)
Definition grows (x : string) (l l' : list string) : Prop :=
  l' = l \/ ((x ∉ l) /\ l' = l ++ [x]).

(** A registry after some back-patching: the same ids, every edge list
    grown by at most the new id. *)
Definition extends (x : string) (reg reg' : concepts) : Prop :=
  forall i,
    match reg !! i, reg' !! i with
    | Some c, Some c' => forall e, grows x (get_edge e c) (get_edge e c')
    | None, None => True
    | _, _ => False
    end.

(** The list [add_concept] receives for an edge kind. *)
Definition argument (e : edge) (rel hypo hyper : list string) : list string :=
  match e with Related => rel | Hyponyms => hypo | Hypernyms => hyper end.

End Registry.

(** ** The compiler (LLM-CL_Compiler.py): lexical analysis *)

Module TokenType.
Inductive t : Type :=
| VERSION | CONCEPT | RELATION | QUANTIFIER | REFERENCE | OPERATOR
| OPEN_BRACE | CLOSE_BRACE | IDENTIFIER | WHITESPACE | EOF | ERROR.

Definition eqb (a b : t) : bool :=
  match a, b with
  | VERSION, VERSION | CONCEPT, CONCEPT | RELATION, RELATION
  | QUANTIFIER, QUANTIFIER | REFERENCE, REFERENCE | OPERATOR, OPERATOR
  | OPEN_BRACE, OPEN_BRACE | CLOSE_BRACE, CLOSE_BRACE
  | IDENTIFIER, IDENTIFIER | WHITESPACE, WHITESPACE | EOF, EOF
  | ERROR, ERROR => true
  | _, _ => false
  end.
End TokenType.

Module Token.
Record t : Type := mk {
  type : TokenType.t;
  value : string;
  line : Z;
  column : Z
}.
End Token.

Module Lexer.
Import TokenType.

(** The longest run of characters of a class at the head of a string, and
    what follows it: the [while] loops of the [_tokenize_*] methods. *)
Fixpoint span (p : ascii -> bool) (s : string) : string * string :=
  match s with
  | EmptyString => (EmptyString, EmptyString)
  | String c r =>
      if p c then let (run, rest) := span p r in (String c run, rest)
      else (EmptyString, s)
  end.

(** The character classes of the four sigil-led tokens and of identifiers. *)
Definition word_char (c : ascii) : bool := Py.isalnum c || Ascii.eqb c "_".
Definition concept_char (c : ascii) : bool :=
  Py.isalnum c || Ascii.eqb c "_" || Ascii.eqb c "~".
Definition reference_char (c : ascii) : bool :=
  Py.isalnum c || Ascii.eqb c "_" || Ascii.eqb c "." || Ascii.eqb c "#".
Definition operator_char (c : ascii) : bool := Py.contains c "+-*/<>".

(** [re.match(r'v\d+\.\d+', s)]: the text matched and what follows it. *)
Definition match_version (s : string) : option (string * string) :=
  match s with
  | String "v" r =>
      let (major, r1) := span Py.isdigit r in
      match major, r1 with
      | String _ _, String "." r2 =>
          let (minor, r3) := span Py.isdigit r2 in
          match minor with
          | String _ _ => Some ("v" +:+ major +:+ "." +:+ minor, r3)
          | EmptyString => None
          end
      | _, _ => None
      end
  | _ => None
  end.

(** Line and column after a run of white space. *)
Fixpoint after_whitespace (ws : string) (line column : Z) : Z * Z :=
  match ws with
  | EmptyString => (line, column)
  | String c r =>
      if Ascii.eqb c "010" then after_whitespace r (line + 1) 1
      else after_whitespace r line (column + 1)
  end.

Definition strlen (s : string) : Z := Z.of_nat (String.length s).

(** One turn of the loop of [tokenize] at the character [char] followed by
    [rest]: the token added, and the text, line and column from which the
    loop goes on. *)
Definition next_token (char : ascii) (rest : string) (line column : Z)
  : Token.t * (string * (Z * Z)) :=
  let s := String char rest in
  if Py.isspace char then
    let (ws, rest') := span Py.isspace s in
    let (line', column') := after_whitespace ws line column in
    (Token.mk WHITESPACE ws line' column, (rest', (line', column')))
  else if Ascii.eqb char "@" then
    match match_version rest with
    | Some (version, rest') =>
        (Token.mk VERSION ("@" +:+ version) line column,
         (rest', (line, (column + 1 + strlen version)%Z)))
    | None => (Token.mk ERROR "@" line column, (rest, (line, (column + 1)%Z)))
    end
  else if Ascii.eqb char "#" then
    let (identifier, rest') := span concept_char rest in
    (Token.mk CONCEPT ("#" +:+ identifier) line column,
     (rest', (line, (column + 1 + strlen identifier)%Z)))
  else if Ascii.eqb char "~" then
    let (identifier, rest') := span word_char rest in
    (Token.mk RELATION ("~" +:+ identifier) line column,
     (rest', (line, (column + 1 + strlen identifier)%Z)))
  else if Ascii.eqb char "$" then
    let (identifier, rest') := span word_char rest in
    (Token.mk QUANTIFIER ("$" +:+ identifier) line column,
     (rest', (line, (column + 1 + strlen identifier)%Z)))
  else if Ascii.eqb char "^" then
    let (reference, rest') := span reference_char rest in
    (Token.mk REFERENCE ("^" +:+ reference) line column,
     (rest', (line, (column + 1 + strlen reference)%Z)))
  else if Ascii.eqb char "{" then
    (Token.mk OPEN_BRACE "{" line column, (rest, (line, (column + 1)%Z)))
  else if Ascii.eqb char "}" then
    (Token.mk CLOSE_BRACE "}" line column, (rest, (line, (column + 1)%Z)))
  else if operator_char char then
    (Token.mk OPERATOR (String char EmptyString) line column,
     (rest, (line, (column + 1)%Z)))
  else if word_char char then
    let (identifier, rest') := span word_char s in
    (Token.mk IDENTIFIER identifier line column,
     (rest', (line, (column + strlen identifier)%Z)))
  else
    (Token.mk ERROR (String char EmptyString) line column,
     (rest, (line, (column + 1)%Z))).

(** [tokenize], from a position of the source: [s] is the text from
    [self.position] on. Every turn of the loop consumes a character, so a
    fuel above the length of [s] is never used up; [tokenize] gives it. *)
Fixpoint tokenize_from (fuel : nat) (s : string) (line column : Z)
  : list Token.t :=
  match fuel with
  | O => []
  | S fuel =>
      match s with
      | EmptyString => [Token.mk EOF "" line column]
      | String char rest =>
          let '(token, (rest', (line', column'))) :=
            next_token char rest line column in
          token :: tokenize_from fuel rest' line' column'
      end
  end.

(** [Lexer(source).tokenize()]. *)
Definition tokenize (source : string) : list Token.t :=
  tokenize_from (S (String.length source)) source 1 1.

End Lexer.

(** ** The compiler: syntax analysis *)

Module ASTNodeType.
Inductive t : Type :=
| MESSAGE | VERSION | CONCEPT | RELATION | QUANTIFIER | REFERENCE
| LIST | ITEM | PROPERTY.

Definition eqb (a b : t) : bool :=
  match a, b with
  | MESSAGE, MESSAGE | VERSION, VERSION | CONCEPT, CONCEPT
  | RELATION, RELATION | QUANTIFIER, QUANTIFIER | REFERENCE, REFERENCE
  | LIST, LIST | ITEM, ITEM | PROPERTY, PROPERTY => true
  | _, _ => false
  end.

(** [node.type.name]. *)
Definition name (a : t) : string :=
  match a with
  | MESSAGE => "MESSAGE" | VERSION => "VERSION" | CONCEPT => "CONCEPT"
  | RELATION => "RELATION" | QUANTIFIER => "QUANTIFIER"
  | REFERENCE => "REFERENCE" | LIST => "LIST" | ITEM => "ITEM"
  | PROPERTY => "PROPERTY"
  end.
End ASTNodeType.

(** [ASTNode]: [value] is [None] where the source leaves it out;
    [attributes] is a dict of strings (the parser only ever stores the text
    of an error there). *)
Inductive ASTNode : Type :=
| Node (type : ASTNodeType.t) (value : option string)
       (children : list ASTNode) (attributes : list (string * string)).

Definition node_type (n : ASTNode) : ASTNodeType.t :=
  match n with Node t _ _ _ => t end.
Definition node_value (n : ASTNode) : option string :=
  match n with Node _ v _ _ => v end.
Definition node_children (n : ASTNode) : list ASTNode :=
  match n with Node _ _ c _ => c end.
Definition node_attributes (n : ASTNode) : list (string * string) :=
  match n with Node _ _ _ a => a end.

Module Parser.
Import TokenType.

(** What a parsing method can raise: the [Exception] of [_error], whose
    text [_error] has appended to [self.errors] before raising, or the
    [IndexError] of [self.tokens[self.current]] on a token list without
    an end-of-file token. *)
Inductive exn : Type :=
| ParseError (error : string)
| IndexError.

Inductive outcome (A : Type) : Type :=
| Ok (a : A)
| Raise (e : exn)
| OutOfFuel.
Arguments Ok {A} a.
Arguments Raise {A} e.
Arguments OutOfFuel {A}.

Definition bind {A B} (m : outcome A) (k : A -> outcome B) : outcome B :=
  match m with
  | Ok a => k a
  | Raise e => Raise e
  | OutOfFuel => OutOfFuel
  end.

Notation "'try' x <- m 'in' k" := (bind m (fun x => k))
  (at level 10, x name, m at level 100, k at level 200).
Notation "'try' ( x , y ) <- m 'in' k" :=
  (bind m (fun xy => let '(x, y) := xy in k))
  (at level 10, x name, y name, m at level 100, k at level 200).

(** The parser's position is the list of tokens from [self.current] on. *)

(** [f"Error at line {token.line}, column {token.column}: {message}"]. *)
Definition error_at (token : Token.t) (message : string) : string :=
  "Error at line " +:+ Py.str (Token.line token) +:+ ", column "
  +:+ Py.str (Token.column token) +:+ ": " +:+ message.

(** [_error(message)]. *)
Definition _error {A} (message : string) (ts : list Token.t) : outcome A :=
  match ts with
  | [] => Raise IndexError
  | token :: _ => Raise (ParseError (error_at token message))
  end.

(** [_is_at_end()] and [_check(token_type)]. *)
Definition _is_at_end (ts : list Token.t) : outcome bool :=
  match ts with
  | [] => Raise IndexError
  | token :: _ => Ok (TokenType.eqb (Token.type token) EOF)
  end.

Definition _check (token_type : TokenType.t) (ts : list Token.t) : outcome bool :=
  try at_end <- _is_at_end ts in
  if at_end then Ok false
  else match ts with
       | [] => Raise IndexError
       | token :: _ => Ok (TokenType.eqb (Token.type token) token_type)
       end.

(** [_consume(token_type, error_message)]: the position afterwards. *)
Definition _consume (token_type : TokenType.t) (error_message : string)
    (ts : list Token.t) : outcome (list Token.t) :=
  try found <- _check token_type ts in
  if found then Ok (List.tl ts) else _error error_message ts.

(** The four loops of the parser ([_parse_message], [_parse_concept],
    [_parse_relation], [_parse_quantifier]) have one shape and differ in
    the token kinds they take and in the wording of their errors. *)
Inductive scope : Type := InMessage | InConcept | InRelation | InQuantifier.

Inductive item : Type :=
| Block (inner : scope)            (* a node that may have a braced body *)
| Leaf (kind : ASTNodeType.t).     (* a node made of its token alone *)

(** The branches of the [if]/[elif] chain of each loop. *)
Definition accepts (sc : scope) (token_type : TokenType.t) : option item :=
  match sc, token_type with
  | (InMessage | InConcept), CONCEPT => Some (Block InConcept)
  | (InMessage | InConcept), RELATION => Some (Block InRelation)
  | (InMessage | InConcept), QUANTIFIER => Some (Block InQuantifier)
  | (InMessage | InConcept), REFERENCE => Some (Leaf ASTNodeType.REFERENCE)
  | InRelation, CONCEPT => Some (Block InConcept)
  | InRelation, RELATION => Some (Block InRelation)
  | InRelation, REFERENCE => Some (Leaf ASTNodeType.REFERENCE)
  | InQuantifier, CONCEPT => Some (Block InConcept)
  | InQuantifier, QUANTIFIER => Some (Block InQuantifier)
  | InQuantifier, IDENTIFIER => Some (Leaf ASTNodeType.PROPERTY)
  | _, _ => None
  end.

Definition unexpected (sc : scope) : string :=
  match sc with
  | InMessage => "Unexpected token: "
  | InConcept => "Unexpected token in concept: "
  | InRelation => "Unexpected token in relation: "
  | InQuantifier => "Unexpected token in quantifier: "
  end.

Definition unclosed (sc : scope) : string :=
  match sc with
  | InMessage => "Expected '}' to close message"
  | InConcept => "Expected '}' to close concept"
  | InRelation => "Expected '}' to close relation"
  | InQuantifier => "Expected '}' to close quantifier"
  end.

Definition kind_of (sc : scope) : ASTNodeType.t :=
  match sc with
  | InMessage => ASTNodeType.MESSAGE
  | InConcept => ASTNodeType.CONCEPT
  | InRelation => ASTNodeType.RELATION
  | InQuantifier => ASTNodeType.QUANTIFIER
  end.

(** [parse_block sc value]: [_parse_concept(value)], [_parse_relation(value)]
    or [_parse_quantifier(value)], called after the node's own token has
    been consumed. [parse_items sc]: the [while] loop of scope [sc], giving
    the children added and the position at which it stopped (at a closing
    brace or at the end-of-file token). Every call consumes a token before
    it recurses, so a fuel above twice the number of tokens is never used
    up. *)
Fixpoint parse_block (fuel : nat) (sc : scope) (value : string)
    (ts : list Token.t) : outcome (ASTNode * list Token.t) :=
  match fuel with
  | O => OutOfFuel
  | S fuel =>
      try opened <- _check OPEN_BRACE ts in
      if opened then
        try (children, rest) <- parse_items fuel sc (List.tl ts) in
        try rest' <- _consume CLOSE_BRACE (unclosed sc) rest in
        Ok (Node (kind_of sc) (Some value) children [], rest')
      else Ok (Node (kind_of sc) (Some value) [] [], ts)
  end
with parse_items (fuel : nat) (sc : scope) (ts : list Token.t)
    : outcome (list ASTNode * list Token.t) :=
  match fuel with
  | O => OutOfFuel
  | S fuel =>
      try closing <- _check CLOSE_BRACE ts in
      try at_end <- _is_at_end ts in
      if closing || at_end then Ok ([], ts)
      else
        match ts with
        | [] => Raise IndexError
        | token :: ts' =>
            match accepts sc (Token.type token) with
            | Some (Block inner) =>
                try (node, rest) <- parse_block fuel inner (Token.value token) ts' in
                try (children, rest') <- parse_items fuel sc rest in
                Ok (node :: children, rest')
            | Some (Leaf kind) =>
                try (children, rest') <- parse_items fuel sc ts' in
                Ok (Node kind (Some (Token.value token)) [] [] :: children, rest')
            | None =>
                _error (unexpected sc +:+ Token.value token) ts
            end
        end
  end.

Definition _parse_concept fuel := parse_block fuel InConcept.
Definition _parse_relation fuel := parse_block fuel InRelation.
Definition _parse_quantifier fuel := parse_block fuel InQuantifier.

(** [_parse_message()]. *)
Definition _parse_message (fuel : nat) (ts : list Token.t) : outcome ASTNode :=
  try versioned <- _check VERSION ts in
  if versioned then
    let version_node :=
      Node ASTNodeType.VERSION
           (Some (Token.value (List.hd (Token.mk EOF "" 0 0) ts))) [] [] in
    try ts1 <- _consume OPEN_BRACE "Expected '{' after version marker" (List.tl ts) in
    try (children, rest) <- parse_items fuel InMessage ts1 in
    try _rest <- _consume CLOSE_BRACE (unclosed InMessage) rest in
    Ok (Node ASTNodeType.MESSAGE None (version_node :: children) [])
  else _error "Expected version marker (@v1.0)" ts.

(** [Parser(tokens)]: white space is dropped. *)
Definition significant (tokens : list Token.t) : list Token.t :=
  List.filter (fun t => negb (TokenType.eqb (Token.type t) WHITESPACE)) tokens.

(** The node [parse] returns when [_parse_message] raised. *)
Definition error_node (e : string) : ASTNode :=
  Node ASTNodeType.MESSAGE (Some "Error") [] [("error", e)].

(** [str(e)] of the exception caught. *)
Definition exn_text (e : exn) : string :=
  match e with
  | ParseError error => error
  | IndexError => "list index out of range"
  end.

(** [Parser(tokens).parse()]: the node returned and [self.errors]
    afterwards. [_error] records its text before it raises and [parse]
    records the text of what it catches, so a parse error is recorded
    twice. [None] stands for running out of fuel, which does not happen
    ([ParserFacts.parse_total]). *)
Definition parse (tokens : list Token.t) : option (ASTNode * list string) :=
  let ts := significant tokens in
  match _parse_message (2 * List.length ts + 2) ts with
  | Ok node => Some (node, [])
  | Raise (ParseError e) => Some (error_node e, [e; e])
  | Raise IndexError => Some (error_node (exn_text IndexError), [exn_text IndexError])
  | OutOfFuel => None
  end.

End Parser.

(** ** The compiler: semantic analysis *)

Module SemanticAnalyzer.
Import ASTNodeType.

(** The checks append to [self.errors] and [self.warnings]; each is
    modelled by the pair of lists it appends. *)
Definition report : Type := (list string * list string)%type.

Definition no_report : report := ([], []).
Definition error (e : string) : report := ([e], []).
Definition warning (w : string) : report := ([], [w]).
Definition both (a b : report) : report := (fst a ++ fst b, snd a ++ snd b).

Definition truthy (s : option string) : bool :=
  match s with
  | Some (String _ _) => true
  | _ => false
  end.

(** [_check_message_structure]. *)
Definition _check_message_structure (node : ASTNode) : report :=
  let version_nodes :=
    List.filter (fun c => ASTNodeType.eqb (node_type c) VERSION) (node_children node) in
  let content_nodes :=
    List.filter (fun c => negb (ASTNodeType.eqb (node_type c) VERSION)) (node_children node) in
  both (match version_nodes with
        | [] => error "Message missing version marker"
        | _ => no_report
        end)
       (match content_nodes with
        | [] => warning "Message has no content nodes"
        | _ => no_report
        end).

(** [_check_concept]; [concept_space] is [self.concept_space], the empty
    dict when none was given. *)
Definition _check_concept (concept_space : Registry.concepts) (node : ASTNode)
  : report :=
  match node_value node with
  | Some value =>
      if truthy (Some value) && Py.startswith value "#c"
         && negb (Py.contains "~" value) then
        let concept_id := Py.drop 1 value in
        if (0 <? size concept_space)%nat
           && negb (bool_decide (is_Some (concept_space !! concept_id))) then
          warning ("Unknown concept ID: " +:+ concept_id)
        else no_report
      else no_report
  | None => no_report
  end.

(** [_check_reference]. [split] never gives the empty list, so the
    "at least one path segment" error cannot be reached. *)
Definition _check_reference (node : ASTNode) : report :=
  if negb (truthy (node_value node)) then error "Reference node has no value"
  else
    let ref_value := match node_value node with Some v => v | None => EmptyString end in
    if negb (Py.startswith ref_value "^") then
      error ("Invalid reference format: " +:+ ref_value)
    else
      let path_parts := Py.split "." (Py.drop 1 ref_value) in
      let first_segment := List.hd EmptyString path_parts in
      both (match path_parts with
            | [] => error ("Reference needs at least one path segment: " +:+ ref_value)
            | _ => no_report
            end)
      (both (if negb (String.eqb first_segment "self" || String.eqb first_segment "shared"
                      || Py.startswith first_segment "prev")
             then warning ("Unusual reference type: " +:+ first_segment)
             else no_report)
            (if Py.startswith first_segment "prev" then
               if negb (Py.str_isdigit (Py.drop 4 first_segment)) then
                 error ("Invalid prev index: " +:+ first_segment)
               else no_report
             else no_report)).

(** [_analyze_node]: the node's own check, then its children in order. *)
Fixpoint _analyze_node (concept_space : Registry.concepts) (node : ASTNode)
  : report :=
  let own :=
    match node_type node with
    | MESSAGE => _check_message_structure node
    | CONCEPT => _check_concept concept_space node
    | REFERENCE => _check_reference node
    | _ => no_report
    end in
  match node with
  | Node _ _ children _ =>
      List.fold_left both (List.map (_analyze_node concept_space) children) own
  end.

(** [SemanticAnalyzer(ast, concept_space).analyze()]: errors and warnings. *)
Definition analyze (concept_space : Registry.concepts) (ast : ASTNode) : report :=
  _analyze_node concept_space ast.

End SemanticAnalyzer.

(** ** The compiler: intermediate representation *)

(** The IR is a tree of dicts; a key that a dict may lack is an [option].
    [Null] is a [None] entry of a list (the optimizer filters them);
    [Generic] is the dict the builder makes for the other node types, whose
    ['type'] is the name of the node type. *)
Inductive IR : Type :=
| Null
| Message (version : option string) (content : option (list IR))
| Concept (id qualifier : option string) (children : option (list IR))
| Relation (name : option string) (children : option (list IR))
| Quantifier (name : option string) (children : option (list IR))
| Reference (source : option string) (path : option (list string))
| Generic (type : ASTNodeType.t) (value : option string)
          (attributes : list (string * string)) (children : list IR).

Module Re.
(** [re.search(r'v(\d+\.\d+)', s)]: group 1 of the leftmost match. *)
Fixpoint search_version (s : string) : option string :=
  match Lexer.match_version s with
  | Some (matched, _) => Some (Py.drop 1 matched)
  | None =>
      match s with
      | EmptyString => None
      | String _ r => search_version r
      end
  end.
End Re.

Module IRBuilder.
Import ASTNodeType.

(** A list, or no key when the list is empty ([if content_nodes:]). *)
Definition if_any {A} (l : list A) : option (list A) :=
  match l with
  | [] => None
  | _ => Some l
  end.

(** The version of a message: from the first [VERSION] child. A [VERSION]
    node always has a text (the parser builds it from a token); on one
    without, [re.search] would raise, and the model leaves the version
    out. *)
Definition message_version (children : list ASTNode) : option string :=
  match List.filter (fun c => ASTNodeType.eqb (node_type c) VERSION) children with
  | version_node :: _ =>
      match node_value version_node with
      | Some text => Re.search_version text
      | None => None
      end
  | [] => None
  end.

(** [_build_node_ir], with [_build_message_ir], [_build_concept_ir],
    [_build_relation_ir], [_build_quantifier_ir] and [_build_reference_ir]
    as its branches. *)
Fixpoint _build_node_ir (node : ASTNode) : IR :=
  match node with
  | Node type value children attributes =>
      match type with
      | MESSAGE =>
          Message (message_version children)
            (if_any (List.flat_map
                       (fun child =>
                          if ASTNodeType.eqb (node_type child) VERSION then []
                          else [_build_node_ir child])
                       children))
      | CONCEPT =>
          let parts :=
            match value with
            | Some (String _ r) => Some (Py.split "~" r)
            | _ => None
            end in
          Concept (option_map (List.hd EmptyString) parts)
                  (match parts with
                   | Some (_ :: qualifier :: _) => Some qualifier
                   | _ => None
                   end)
                  (if_any (List.map _build_node_ir children))
      | RELATION =>
          Relation (match value with
                    | Some (String _ r) => Some r
                    | _ => None
                    end)
                   (if_any (List.map _build_node_ir children))
      | QUANTIFIER =>
          Quantifier (match value with
                      | Some (String _ r) => Some r
                      | _ => None
                      end)
                     (if_any (List.map _build_node_ir children))
      | REFERENCE =>
          let path_parts :=
            match value with
            | Some (String _ r) => Some (Py.split "." r)
            | _ => None
            end in
          Reference (option_map (List.hd EmptyString) path_parts)
                    (match path_parts with
                     | Some (_ :: p :: ps) => Some (p :: ps)
                     | _ => None
                     end)
      | _ => Generic type value attributes (List.map _build_node_ir children)
      end
  end.

(** [IRBuilder(ast).build()]. *)
Definition build (ast : ASTNode) : IR := _build_node_ir ast.

End IRBuilder.

(** ** The compiler: optimization (canonicalization) *)

Module Optimizer.

(** [x.get('type', '')], [x.get('id', '')], [x.get('name', '')]. *)
Definition type_name (x : IR) : string :=
  match x with
  | Null => EmptyString
  | Message _ _ => "Message"
  | Concept _ _ _ => "Concept"
  | Relation _ _ => "Relation"
  | Quantifier _ _ => "Quantifier"
  | Reference _ _ => "Reference"
  | Generic t _ _ _ => ASTNodeType.name t
  end.

Definition get_id (x : IR) : string :=
  match x with
  | Concept (Some i) _ _ => i
  | _ => EmptyString
  end.

Definition get_name (x : IR) : string :=
  match x with
  | Relation (Some n) _ | Quantifier (Some n) _ => n
  | _ => EmptyString
  end.

(** The key of the sort of a message's content. *)
Definition sort_key (x : IR) : string * string * string :=
  (type_name x, get_id x, get_name x).

(** Python's order on tuples of strings: lexicographic, strings compared
    by code point. *)
Definition key_compare (a b : string * string * string) : comparison :=
  match String.compare (fst (fst a)) (fst (fst b)) with
  | Eq =>
      match String.compare (snd (fst a)) (snd (fst b)) with
      | Eq => String.compare (snd a) (snd b)
      | c => c
      end
  | c => c
  end.

Definition key_ltb (a b : string * string * string) : bool :=
  match key_compare a b with
  | Lt => true
  | _ => false
  end.

(** [list.sort(key=...)] is a stable sort, and a stable sort has one
    result: it is modelled by insertion from the right, an element going
    before the first one whose key is not smaller than its own. *)
Section Sort.
Context {A : Type} (key : A -> string * string * string).

Fixpoint insert (x : A) (l : list A) : list A :=
  match l with
  | [] => [x]
  | y :: r => if key_ltb (key y) (key x) then y :: insert x r else x :: l
  end.

Fixpoint sort (l : list A) : list A :=
  match l with
  | [] => []
  | x :: r => insert x (sort r)
  end.
End Sort.

Definition is_null (x : IR) : bool :=
  match x with Null => true | _ => false end.
Definition is_concept (x : IR) : bool :=
  match x with Concept _ _ _ => true | _ => false end.
Definition is_relation (x : IR) : bool :=
  match x with Relation _ _ => true | _ => false end.

(** [[n for n in l if n is not None]]. *)
Definition not_none (l : list IR) : list IR :=
  List.filter (fun n => negb (is_null n)) l.

(** [concepts + relations + others] of [_optimize_concept]. *)
Definition regroup (l : list IR) : list IR :=
  List.filter is_concept l ++ List.filter is_relation l
  ++ List.filter (fun n => negb (is_relation n || is_concept n)) l.

(** [node.get(key)] on a dict of attributes ([None] when the key is
    missing), and [if key not in node: node[key] = value]: a new key goes
    to the end of the dict. *)
Definition attribute (key : string) (attributes : list (string * string))
    : option string :=
  option_map snd (List.find (fun kv => String.eqb (fst kv) key) attributes).

Definition setdefault (key value : string) (attributes : list (string * string))
    : list (string * string) :=
  match attribute key attributes with
  | Some _ => attributes
  | None => attributes ++ [(key, value)]
  end.

(** [_optimize_node] on the dict of attributes of a generic node, which
    the loop over the values of the node reaches as it reaches the
    children: a dict of strings, so only its own ['type'] matters.
    [identity] is [id] of that dict. *)
Definition _optimize_attributes (identity : Z)
    (attributes : list (string * string)) : list (string * string) :=
  match attribute "type" attributes with
  | Some type =>
      if String.eqb type "Message" then setdefault "version" "1.0" attributes
      else if String.eqb type "Concept" then
        setdefault "id" ("concept_" +:+ Py.str identity) attributes
      else if String.eqb type "Relation" then
        setdefault "name" ("relation_" +:+ Py.str identity) attributes
      else attributes
  | None => attributes
  end.

Section WithIdentity.
(** [id(node)]: the identity CPython gives the dict of a node. It is
    not a function of the node's content: two dicts of the same content
    have two identities, and a dict keeps its identity while the
    optimizer fills in its keys in place. The model takes an arbitrary
    function of the content for it. The statements hold for every such
    function; a statement that compares two runs of the optimizer takes
    one function for each run, and says so. The identity of the dict of
    attributes of a generic node is taken from the same function, at the
    node that holds the dict. *)
Variable object_id : IR -> Z.

(** [_optimize_node], with [_optimize_message], [_optimize_concept] and
    [_optimize_relation] as its branches. The source filters, reorders
    and then optimizes each element of the list it obtained; so that the
    recursion is structural, the model pairs every element with its
    optimized form first and reorders the pairs by their first
    components ([_optimize_node_eq] gives the source's form). *)
Fixpoint _optimize_node (node : IR) : IR :=
  let paired l := List.map (fun n => (n, _optimize_node n)) l in
  let keep (p : IR -> bool) l :=
    List.map snd (List.filter (fun np => p (fst np)) (paired l)) in
  match node with
  | Null => Null
  | Message version content =>
      Message
        (Some (match version with Some v => v | None => "1.0" end))
        (option_map
           (fun l =>
              List.map snd
                (sort (fun np => sort_key (fst np))
                   (List.filter (fun np => negb (is_null (fst np))) (paired l))))
           content)
  | Concept id qualifier children =>
      Concept
        (Some (match id with
               | Some i => i
               | None => "concept_" +:+ Py.str (object_id node)
               end))
        qualifier
        (option_map
           (fun l =>
              keep is_concept l ++ keep is_relation l
              ++ keep (fun n => negb (is_null n)
                                && negb (is_relation n || is_concept n)) l)
           children)
  | Relation name children =>
      Relation
        (Some (match name with
               | Some n => n
               | None => "relation_" +:+ Py.str (object_id node)
               end))
        (option_map (keep (fun n => negb (is_null n))) children)
  | Quantifier name children =>
      Quantifier name (option_map (List.map _optimize_node) children)
  | Reference source path => Reference source path
  | Generic type value attributes children =>
      Generic type value (_optimize_attributes (object_id node) attributes)
        (List.map _optimize_node children)
  end.

(** [Optimizer(ir).optimize()]: the value returned. *)
Definition optimize (ir : IR) : IR := _optimize_node ir.

End WithIdentity.

End Optimizer.

(** ** The compiler: code generation *)

Module CodeGenerator.

Definition newline : string := String "010" EmptyString.

Fixpoint spaces (n : nat) : string :=
  match n with
  | O => EmptyString
  | S k => String " " (spaces k)
  end.

(** [_indent(code)] at [self.indent_level], with [self.indent_size = 2]. *)
Definition _indent (indent_level : nat) (code : string) : string :=
  spaces (indent_level * 2) +:+ code.

(** One turn of the loops over content or children:
    [if child_code: code += self._indent(child_code) + "\n"]. *)
Definition child_line (indent_level : nat) (child_code : string) : string :=
  match child_code with
  | EmptyString => EmptyString
  | _ => _indent indent_level child_code +:+ newline
  end.

Definition concat_all (l : list string) : string :=
  List.fold_right String.append EmptyString l.

(** A tag alone, or the tag and its indented children between braces. *)
Definition block (indent_level : nat) (tag : string)
    (children_code : option (list string)) : string :=
  match children_code with
  | None | Some [] => tag
  | Some codes =>
      tag +:+ "{" +:+ newline
      +:+ concat_all (List.map (child_line (S indent_level)) codes)
      +:+ _indent indent_level "}"
  end.

(** [_generate_node] at [self.indent_level], with [_generate_message],
    [_generate_concept], [_generate_relation], [_generate_quantifier] and
    [_generate_reference] as its branches. *)
Fixpoint _generate_node (indent_level : nat) (node : IR) {struct node} : string :=
  match node with
  | Message version content =>
      "@v" +:+ (match version with Some v => v | None => "1.0" end)
      +:+ "{" +:+ newline
      +:+ match content with
          | Some l =>
              concat_all
                (List.map
                   (fun n => child_line (S indent_level)
                               (_generate_node (S indent_level) n)) l)
          | None => EmptyString
          end
      +:+ "}"
  | Concept id qualifier children =>
      let concept_id := match id with Some i => i | None => EmptyString end in
      let tag :=
        match qualifier with
        | Some (String c q) => "#" +:+ concept_id +:+ "~" +:+ String c q
        | _ => "#" +:+ concept_id
        end in
      block indent_level tag
        (option_map (List.map (fun n => _generate_node (S indent_level) n)) children)
  | Relation name children =>
      block indent_level
        ("~" +:+ match name with Some n => n | None => EmptyString end)
        (option_map (List.map (fun n => _generate_node (S indent_level) n)) children)
  | Quantifier name children =>
      block indent_level
        ("$" +:+ match name with Some n => n | None => EmptyString end)
        (option_map (List.map (fun n => _generate_node (S indent_level) n)) children)
  | Reference source path =>
      let src := match source with Some s => s | None => EmptyString end in
      match path with
      | None | Some [] => "^" +:+ src
      | Some p => "^" +:+ src +:+ "." +:+ Py.join "." p
      end
  | Null | Generic _ _ _ _ => EmptyString
  end.

(** [CodeGenerator(ir).generate()]. *)
Definition generate (ir : IR) : string := _generate_node 0 ir.

End CodeGenerator.

(** ** The compiler: the whole pipeline *)

Module LLMCLCompiler.

(** [LLMCLCompiler(source, concept_space).compile()]: the success flag,
    the result and [self.warnings]; [None] only if the parser ran out of
    fuel. *)
Definition compile (object_id : IR -> Z) (source : string)
    (concept_space : Registry.concepts) : option (bool * string * list string) :=
  match Parser.parse (Lexer.tokenize source) with
  | None => None
  | Some (ast, parser_errors) =>
      match parser_errors with
      | _ :: _ => Some (false, Py.join CodeGenerator.newline parser_errors, [])
      | [] =>
          let (errors, warnings) := SemanticAnalyzer.analyze concept_space ast in
          match errors with
          | _ :: _ => Some (false, Py.join CodeGenerator.newline errors, warnings)
          | [] =>
              let ir := IRBuilder.build ast in
              let optimized_ir := Optimizer.optimize object_id ir in
              Some (true, CodeGenerator.generate optimized_ir, warnings)
          end
      end
  end.

End LLMCLCompiler.

(** ** Vocabulary of the statements *)

Module Spec.
Import ASTNodeType.

(** The part of a string before the first separator (all of it when there
    is none), and the whole remainder after the first separator. *)
Fixpoint before_first (sep : ascii) (s : string) : string :=
  match s with
  | EmptyString => EmptyString
  | String c r => if Ascii.eqb c sep then EmptyString else String c (before_first sep r)
  end.

Fixpoint after_first (sep : ascii) (s : string) : option string :=
  match s with
  | EmptyString => None
  | String c r => if Ascii.eqb c sep then Some r else after_first sep r
  end.

(** A node and the nodes below it, in the order [_analyze_node] visits
    them. *)
Fixpoint subnodes (node : ASTNode) : list ASTNode :=
  match node with
  | Node _ _ children _ => node :: List.flat_map subnodes children
  end.

(** The [id] and [qualifier] keys of a Concept of the IR. *)
Definition concept_id (x : IR) : option string :=
  match x with Concept i _ _ => i | _ => None end.
Definition concept_qualifier (x : IR) : option string :=
  match x with Concept _ q _ => q | _ => None end.

(** A content item whose sort key the optimizer does not change: a
    Concept with its [id], a Relation with its [name], or a node of
    another kind. *)
Definition has_key (x : IR) : bool :=
  match x with
  | Concept None _ _ | Relation None _ => false
  | _ => true
  end.

(** Every item of the content of every message, at any depth, has its
    key. The IR that lowering builds from a parsed message is such. *)
Fixpoint keyed (x : IR) : bool :=
  match x with
  | Message _ content =>
      match content with
      | Some l => List.forallb (fun y => has_key y && keyed y) l
      | None => true
      end
  | Concept _ _ children | Relation _ children | Quantifier _ children =>
      match children with
      | Some l => List.forallb keyed l
      | None => true
      end
  | Generic _ _ _ children => List.forallb keyed children
  | _ => true
  end.

(** Every Concept, at any depth, has its [id] and every Relation its
    [name]: the optimizer never makes a placeholder from [id(node)] for a
    node of such an IR. The IR that lowering builds from a parsed message
    is such. *)
Fixpoint identified (x : IR) : bool :=
  match x with
  | Concept None _ _ | Relation None _ => false
  | Message _ (Some l) | Concept (Some _) _ (Some l)
  | Relation (Some _) (Some l) | Quantifier _ (Some l) => List.forallb identified l
  | Generic _ _ _ l => List.forallb identified l
  | _ => true
  end.

(** An identity function other than [no_identity], for the second of two
    runs. *)
Definition other_identity : IR -> Z := fun _ => 7%Z.

(** A message whose first content item is a Concept without [id]. *)
Definition unkeyed_message : IR :=
  Message None (Some [Concept None (Some "x") None; Concept (Some "a") None None]).

(** Two references: their sort keys are equal, both
    [("Reference", "", "")]. *)
Definition prev1 : IR := Reference (Some "prev1") None.
Definition prev2 : IR := Reference (Some "prev2") None.

(** An identity function for the statements in which no node lacks its
    [id] or [name], so that [id(node)] is never asked for. *)
Definition no_identity : IR -> Z := fun _ => 0%Z.

(** Three entries of the context buffer, the oldest first. *)
Definition three_entries : Resolver.state :=
  Resolver.mk_state [PStr "oldest"; PStr "middle"; PStr "newest"] 10.

(** What a node's own check reports. *)
Definition own_report (concept_space : Registry.concepts) (node : ASTNode) : SemanticAnalyzer.report :=
  match node_type node with
  | MESSAGE => SemanticAnalyzer._check_message_structure node
  | CONCEPT => SemanticAnalyzer._check_concept concept_space node
  | REFERENCE => SemanticAnalyzer._check_reference node
  | _ => SemanticAnalyzer.no_report
  end.

(** The condition under which [_check_concept] warns. *)
Definition unknown_concept (cs : Registry.concepts) (node : ASTNode) (i : string) : Prop :=
  node_value node = Some (String "#" i) /\
  Py.startswith i "c" = true /\
  Py.contains "~" i = false /\
  cs !! i = None.

(** [a <= b] on keys: not [b < a]. *)
Definition key_le (a b : string * string * string) : Prop := Optimizer.key_ltb b a = false.

Section Keys.
Context {A : Type} (key : A -> string * string * string).

(** The elements of [l] whose key is [k], in their order in [l]. *)
Definition of_key (k : string * string * string) (l : list A) : list A :=
  List.filter (fun x => bool_decide (key x = k)) l.

(** Every element is at most (by key) the elements after it. *)
Fixpoint ordered (l : list A) : Prop :=
  match l with
  | [] => True
  | x :: r => (forall y, In y r -> key_le (key x) (key y)) /\ ordered r
  end.

End Keys.

End Spec.

(** ** Vocabulary of the statements about the parser *)

Module Grammar.
Import TokenType Parser.

(** The parsing functions with the fuel that is always enough
    ([ParserFacts.parse_block_enough], [ParserFacts.parse_items_enough]). *)
Definition block (sc : scope) (value : string) (ts : list Token.t)
  : outcome (ASTNode * list Token.t) :=
  parse_block (2 * List.length ts + 1) sc value ts.

Definition items (sc : scope) (ts : list Token.t)
  : outcome (list ASTNode * list Token.t) :=
  parse_items (2 * List.length ts + 1) sc ts.

(** The token kind that stands for a node kind in the text. *)
Definition tag_type (k : ASTNodeType.t) : option TokenType.t :=
  match k with
  | ASTNodeType.CONCEPT => Some CONCEPT
  | ASTNodeType.RELATION => Some RELATION
  | ASTNodeType.QUANTIFIER => Some QUANTIFIER
  | ASTNodeType.REFERENCE => Some REFERENCE
  | ASTNodeType.PROPERTY => Some IDENTIFIER
  | _ => None
  end.

(** A node that the grammar allows as an item of scope [sc], with its
    children allowed in its own scope: a tree the parser can build. *)
Fixpoint conforms (sc : scope) (node : ASTNode) : bool :=
  match node with
  | Node k (Some _) children [] =>
      match tag_type k with
      | Some ty =>
          match accepts sc ty with
          | Some (Block inner) =>
              ASTNodeType.eqb k (kind_of inner)
              && List.forallb (conforms inner) children
          | Some (Leaf k') =>
              ASTNodeType.eqb k k'
              && match children with [] => true | _ => false end
          | None => false
          end
      | None => false
      end
  | _ => false
  end.

(** What a token must be to spell a piece of a tree: its kind, and its
    text where the tree has one. *)
Definition piece : Type := (TokenType.t * option string)%type.

Definition spells (t : Token.t) (p : piece) : Prop :=
  Token.type t = fst p /\
  match snd p with
  | Some v => Token.value t = v
  | None => True
  end.

(** The pieces of a node: its tag, then its children between braces
    when it has children. *)
Fixpoint flatten (node : ASTNode) : list piece :=
  match node with
  | Node k value children _ =>
      (match tag_type k with Some ty => ty | None => ERROR end, value)
      :: match children with
         | [] => []
         | _ => (OPEN_BRACE, None) :: List.flat_map flatten children
                ++ [(CLOSE_BRACE, None)]
         end
  end.

(** There is a next token and it is not an opening brace. *)
Definition not_opening (ts : list Token.t) : Prop :=
  match ts with
  | t :: _ => Token.type t <> OPEN_BRACE
  | [] => False
  end.

(** A block that is still open while the parser reads on: its scope, the
    text of its tag, and its children that are already complete. *)
Record frame : Type := mk_frame {
  frame_scope : scope;
  frame_value : string;
  frame_done : list ASTNode
}.

Definition tag_of (sc : scope) : TokenType.t :=
  match sc with
  | InConcept => CONCEPT
  | InRelation => RELATION
  | InQuantifier => QUANTIFIER
  | InMessage => ERROR
  end.

Definition scope_eqb (a b : scope) : bool :=
  match a, b with
  | InMessage, InMessage | InConcept, InConcept
  | InRelation, InRelation | InQuantifier, InQuantifier => true
  | _, _ => false
  end.

(** A block of scope [sc] may stand in scope [outer]. *)
Definition allows (outer sc : scope) : bool :=
  match accepts outer (tag_of sc) with
  | Some (Block inner) => scope_eqb inner sc
  | _ => false
  end.

(** The open blocks, outermost first, each allowed in the one before it
    and each with complete children that conform to it. *)
Fixpoint chain (outer : scope) (frames : list frame) : bool :=
  match frames with
  | [] => true
  | f :: fs =>
      allows outer (frame_scope f)
      && List.forallb (conforms (frame_scope f)) (frame_done f)
      && chain (frame_scope f) fs
  end.

Fixpoint innermost (outer : scope) (frames : list frame) : scope :=
  match frames with
  | [] => outer
  | f :: fs => innermost (frame_scope f) fs
  end.

(** The pieces read since the first open block was entered. *)
Fixpoint open_pieces (frames : list frame) : list piece :=
  match frames with
  | [] => []
  | f :: fs =>
      (tag_of (frame_scope f), Some (frame_value f)) :: (OPEN_BRACE, None)
      :: List.flat_map flatten (frame_done f) ++ open_pieces fs
  end.

(** The pieces of the beginning of a message: the version marker, the
    opening brace, the complete items [top] and the open blocks. *)
Definition message_pieces (top : list ASTNode) (frames : list frame) : list piece :=
  (VERSION, None) :: (OPEN_BRACE, None)
  :: List.flat_map flatten top ++ open_pieces frames.

(** The structural violation that a token is in a scope: the end of the
    file (the scope is not closed), or a token that the scope does not
    take. A brace is left out: a closing brace closes the scope, and an
    opening brace after a tag opens that tag's block. *)
Definition violation (sc : scope) (t : Token.t) : option string :=
  match Token.type t with
  | EOF => Some (unclosed sc)
  | CLOSE_BRACE | OPEN_BRACE => None
  | ty =>
      match accepts sc ty with
      | None => Some (unexpected sc +:+ Token.value t)
      | Some _ => None
      end
  end.

(** The significant tokens begin with tokens that spell [pieces] and go
    on with [following]. *)
Definition reads (tokens : list Token.t) (pieces : list piece)
    (following : list Token.t) : Prop :=
  exists toks, significant tokens = toks ++ following /\ Forall2 spells toks pieces.

(** [parse] gave up at token [bad] with the message [msg]: the node it
    returns is the degenerate message node, with the value ["Error"], no
    children and the positioned error text as its ["error"] attribute,
    and [self.errors] holds that text (twice) and nothing else. *)
Definition rejected (tokens : list Token.t) (bad : Token.t) (msg : string) : Prop :=
  parse tokens =
  Some (Node ASTNodeType.MESSAGE (Some "Error") [] [("error", error_at bad msg)],
        [error_at bad msg; error_at bad msg]).

(** The first token of the body of a message that may not stand where it
    stands, with the wording of the error for it, found by one walk along
    the tokens that keeps the open scopes only: [sc] is the innermost
    open scope, [outer] are the scopes around it, the nearest first, and
    [opened] is the scope of the block whose tag is the token just read,
    the only place where an opening brace may stand. The end of the
    file is a violation in every scope (a closing brace is missing). The
    result is [None] when the brace that closes the message is reached:
    what follows it is not looked at. *)
Fixpoint body_violation (opened : option scope) (sc : scope) (outer : list scope)
    (ts : list Token.t) : option (Token.t * string) :=
  match ts with
  | [] => None
  | t :: ts' =>
      match Token.type t with
      | EOF => Some (t, unclosed sc)
      | CLOSE_BRACE =>
          match outer with
          | [] => None
          | sc' :: outer' => body_violation None sc' outer' ts'
          end
      | OPEN_BRACE =>
          match opened with
          | Some inner => body_violation None inner (sc :: outer) ts'
          | None => Some (t, unexpected sc +:+ Token.value t)
          end
      | ty =>
          match accepts sc ty with
          | Some (Block inner) => body_violation (Some inner) sc outer ts'
          | Some (Leaf _) => body_violation None sc outer ts'
          | None => Some (t, unexpected sc +:+ Token.value t)
          end
      end
  end.

(** The first structural violation of a list of significant tokens: the
    first token is not a version marker, the second is not an opening
    brace, or the first violation of the body. *)
Definition first_violation (ts : list Token.t) : option (Token.t * string) :=
  match ts with
  | [] => None
  | v :: ts1 =>
      if TokenType.eqb (Token.type v) VERSION then
        match ts1 with
        | [] => None
        | o :: ts2 =>
            if TokenType.eqb (Token.type o) OPEN_BRACE
            then body_violation None InMessage [] ts2
            else Some (o, "Expected '{' after version marker")
        end
      else Some (v, "Expected version marker (@v1.0)")
  end.

(** The loop of a scope stops at a closing brace or at the end of the
    file. *)
Definition stops (ts : list Token.t) : Prop :=
  match ts with
  | t :: _ => Token.type t = CLOSE_BRACE \/ Token.type t = EOF
  | [] => False
  end.

Definition has_eof (ts : list Token.t) : Prop :=
  exists t, In t ts /\ Token.type t = EOF.

(** An exception that [_error] raised at a token of [ts]. *)
Definition raised_at (ts : list Token.t) (e : exn) : Prop :=
  exists bad msg, In bad ts /\ e = ParseError (error_at bad msg).

(** The tree of a message with the version marker [version] and the
    items [children]. *)
Definition message_tree (version : string) (children : list ASTNode) : ASTNode :=
  Node ASTNodeType.MESSAGE None
    (Node ASTNodeType.VERSION (Some version) [] [] :: children) [].

(** A tree is read back: tokens that spell it, before a token that is not
    an opening brace, make the loop of [sc] add it to what it reads
    next. *)
Definition item_complete (node : ASTNode) : Prop :=
  forall sc toks ts,
    conforms sc node = true ->
    Forall2 spells toks (flatten node) ->
    not_opening ts ->
    items sc (toks ++ ts) =
    try (children, rest) <- items sc ts in Ok (node :: children, rest).

End Grammar.

(** ** Vocabulary of the round trip *)

Module Scan.
Import TokenType.

(** The kind and the text of a token. *)
Definition kv (t : Token.t) : TokenType.t * string := (Token.type t, Token.value t).

Definition visible (p : TokenType.t * string) : bool :=
  negb (TokenType.eqb (fst p) WHITESPACE).

(** The kinds and texts of the tokens of a text that the parser keeps. *)
Definition scan_from (fuel : nat) (s : string) (line column : Z)
  : list (TokenType.t * string) :=
  List.filter visible (List.map kv (Lexer.tokenize_from fuel s line column)).

Definition scan (s : string) : list (TokenType.t * string) :=
  scan_from (S (String.length s)) s 1 1.

(** The first character of a string, if any, is outside a class. *)
Definition stops (p : ascii -> bool) (s : string) : Prop :=
  match s with
  | EmptyString => True
  | String c _ => p c = false
  end.

End Scan.

Module RoundTrip.
Import Py TokenType Parser Grammar Scan Lexer.

(** The lexical shape of a token of each kind: the sigil and a run of
    the characters the lexer takes after it; for a version marker,
    [@] and a text that the version pattern matches to its end. *)
Definition shaped (p : TokenType.t * string) : bool :=
  match fst p, snd p with
  | CONCEPT, String "#" r => all_chars concept_char r
  | RELATION, String "~" r => all_chars word_char r
  | QUANTIFIER, String "$" r => all_chars word_char r
  | REFERENCE, String "^" r => all_chars reference_char r
  | VERSION, String "@" r =>
      match match_version r with
      | Some (_, EmptyString) => true
      | _ => false
      end
  | (CONCEPT | RELATION | QUANTIFIER | REFERENCE | VERSION), _ => false
  | _, _ => true
  end.

(** Every node of a tree has the text of a token of its kind. *)
Fixpoint shaped_tree (node : ASTNode) : bool :=
  match node with
  | Node k v children _ =>
      match tag_type k, v with
      | Some ty, Some text => shaped (ty, text)
      | _, _ => true
      end
      && List.forallb shaped_tree children
  end.

(** The trees that the printer renders in full: no property identifier
    (the printer has no rendering for one), and no concept whose
    qualifier, the text between the first separator and the next, is
    empty (the printer leaves an empty qualifier out). *)
Fixpoint printable (node : ASTNode) : bool :=
  match node with
  | Node k v children _ =>
      negb (ASTNodeType.eqb k ASTNodeType.PROPERTY)
      && match k, v with
         | ASTNodeType.CONCEPT, Some (String _ r) =>
             match Spec.after_first "~" r with
             | Some remainder =>
                 negb (String.eqb (Spec.before_first "~" remainder) EmptyString)
             | None => true
             end
         | _, _ => true
         end
      && List.forallb printable children
  end.

Definition word (s : string) : bool := all_chars word_char s.

Definition segment_char (c : ascii) : bool :=
  Py.isalnum c || Ascii.eqb c "_" || Ascii.eqb c "#".
Definition segment (s : string) : bool := all_chars segment_char s.

Definition nonempty {A} (l : list A) : bool :=
  match l with [] => false | _ => true end.

Definition some_text (s : string) : bool :=
  match s with EmptyString => false | _ => true end.

(** The IR of an item of scope [sc] as lowering builds it from a
    printable tree, and as the optimizer leaves it: every key the printer
    reads is present and made of the characters of its token, and a list
    of children that is present is not empty. *)
Fixpoint renders (sc : scope) (x : IR) : bool :=
  match x with
  | Concept (Some i) q children =>
      word i
      && match q with
         | Some q' => some_text q' && word q'
         | None => true
         end
      && match children with
         | Some l => nonempty l && List.forallb (renders InConcept) l
         | None => true
         end
  | Relation (Some n) children =>
      allows sc InRelation && word n
      && match children with
         | Some l => nonempty l && List.forallb (renders InRelation) l
         | None => true
         end
  | Quantifier (Some n) children =>
      allows sc InQuantifier && word n
      && match children with
         | Some l => nonempty l && List.forallb (renders InQuantifier) l
         | None => true
         end
  | Reference (Some s) p =>
      match accepts sc REFERENCE with Some _ => true | None => false end
      && segment s
      && match p with
         | Some l => nonempty l && List.forallb segment l
         | None => true
         end
  | _ => false
  end.

(** The tree that the text printed for an item spells. *)
Fixpoint unbuild (x : IR) : ASTNode :=
  let kids children :=
    match children with
    | Some l => List.map unbuild l
    | None => []
    end in
  let text o := match o with Some s => s | None => EmptyString end in
  match x with
  | Concept i q children =>
      Node ASTNodeType.CONCEPT
        (Some (match q with
               | Some (String c q') => "#" +:+ text i +:+ "~" +:+ String c q'
               | _ => "#" +:+ text i
               end))
        (kids children) []
  | Relation n children =>
      Node ASTNodeType.RELATION (Some ("~" +:+ text n)) (kids children) []
  | Quantifier n children =>
      Node ASTNodeType.QUANTIFIER (Some ("$" +:+ text n)) (kids children) []
  | Reference s p =>
      Node ASTNodeType.REFERENCE
        (Some (match p with
               | None | Some [] => "^" +:+ text s
               | Some l => "^" +:+ text s +:+ "." +:+ Py.join "." l
               end))
        [] []
  | _ => Node ASTNodeType.LIST None [] []
  end.

(** The kind and the text of the token that the lexer makes for a
    piece. *)
Definition canonical (p : piece) : TokenType.t * string :=
  (fst p,
   match snd p with
   | Some v => v
   | None =>
       match fst p with
       | OPEN_BRACE => "{"
       | CLOSE_BRACE => "}"
       | _ => EmptyString
       end
   end).

(** The IR of a message that was lowered from a printable tree and
    canonicalized. *)
Definition renders_message (x : IR) : bool :=
  match x with
  | Message (Some version) content =>
      shaped (VERSION, "@v" +:+ version)
      && match content with
         | Some l => nonempty l && List.forallb (renders InMessage) l
         | None => true
         end
  | _ => false
  end.

(** The pieces of the tree that an item's text spells, as the lexer
    gives them. *)
Definition pieces_of (x : IR) : list (TokenType.t * string) :=
  List.map canonical (flatten (unbuild x)).

End RoundTrip.

(** ** Induction over syntax trees and IR *)

Section TreeInduction.

Variable P : ASTNode -> Prop.
Hypothesis P_node :
  forall type value children attributes,
    List.Forall P children -> P (Node type value children attributes).

Fixpoint ASTNode_tree_ind (n : ASTNode) : P n :=
  match n with
  | Node t v c a =>
      P_node t v c a
        ((fix all (l : list ASTNode) : List.Forall P l :=
            match l with
            | [] => @List.Forall_nil _ P
            | x :: r => @List.Forall_cons _ P x r (ASTNode_tree_ind x) (all r)
            end) c)
  end.

End TreeInduction.

Section IRInduction.

Variable P : IR -> Prop.

Definition all_in (o : option (list IR)) : Prop :=
  match o with
  | Some l => List.Forall P l
  | None => True
  end.

Hypothesis P_null : P Null.
Hypothesis P_message : forall v c, all_in c -> P (Message v c).
Hypothesis P_concept : forall i q c, all_in c -> P (Concept i q c).
Hypothesis P_relation : forall n c, all_in c -> P (Relation n c).
Hypothesis P_quantifier : forall n c, all_in c -> P (Quantifier n c).
Hypothesis P_reference : forall s p, P (Reference s p).
Hypothesis P_generic : forall t v a c, List.Forall P c -> P (Generic t v a c).

Fixpoint IR_tree_ind (x : IR) : P x :=
  let all :=
    fix all (l : list IR) : List.Forall P l :=
      match l with
      | [] => @List.Forall_nil _ P
      | y :: r => @List.Forall_cons _ P y r (IR_tree_ind y) (all r)
      end in
  let all_opt (o : option (list IR)) : all_in o :=
    match o with
    | Some l => all l
    | None => I
    end in
  match x with
  | Null => P_null
  | Message v c => P_message v c (all_opt c)
  | Concept i q c => P_concept i q c (all_opt c)
  | Relation n c => P_relation n c (all_opt c)
  | Quantifier n c => P_quantifier n c (all_opt c)
  | Reference s p => P_reference s p
  | Generic t v a c => P_generic t v a c (all c)
  end.

End IRInduction.

(** ** Vocabulary of the statements about the lexer's output *)

Module Source.

(** [''.join(t.value for t in tokens)]. *)
Definition text_of (tokens : list Token.t) : string :=
  Py.join EmptyString (List.map Token.value tokens).

(** The line and the column of the character that follows [text] in a
    source that begins with it, as the lexer counts them: both from 1, a
    line feed starting a new line. *)
Definition position_after (text : string) : Z * Z :=
  Lexer.after_whitespace text 1 1.

End Source.

(** ** Vocabulary of the statements about the shape of a parsed tree *)

Module Shape.
Import ASTNodeType.

(** The kinds of node that each kind of node takes as children: what the
    branches of the four loops of the parser add to the node they build. *)
Definition child_kinds (k : ASTNodeType.t) : list ASTNodeType.t :=
  match k with
  | MESSAGE => [VERSION; CONCEPT; RELATION; QUANTIFIER; REFERENCE]
  | CONCEPT => [CONCEPT; RELATION; QUANTIFIER; REFERENCE]
  | RELATION => [CONCEPT; RELATION; REFERENCE]
  | QUANTIFIER => [CONCEPT; QUANTIFIER; PROPERTY]
  | _ => []
  end.

End Shape.

(** ** Vocabulary of the statements about the semantic errors *)

Module Checks.

(** The first segment of the text of a reference:
    [ref_value[1:].split('.')[0]]. *)
Definition first_segment (ref_value : string) : string :=
  List.hd EmptyString (Py.split "." (Py.drop 1 ref_value)).

(** A first segment that [_check_reference] finds no error in: one that
    does not begin with [prev], or [prev] and then digits only, at least
    one. *)
Definition prev_ok (segment : string) : bool :=
  negb (Py.startswith segment "prev") || Py.str_isdigit (Py.drop 4 segment).

(** Every reference of an IR has a first segment without error. *)
Fixpoint refs_ok (x : IR) : bool :=
  match x with
  | Reference (Some source) _ => prev_ok source
  | Message _ (Some l) | Concept _ _ (Some l) | Relation _ (Some l)
  | Quantifier _ (Some l) => List.forallb refs_ok l
  | Generic _ _ _ l => List.forallb refs_ok l
  | _ => true
  end.

End Checks.

(** ** Vocabulary of the statements about the items of an IR node *)

Module Items.

(** The list under the [content] key of a message or the [children] key of
    another node; empty when the key is missing. *)
Definition items_of (x : IR) : list IR :=
  match x with
  | Message _ (Some l) | Concept _ _ (Some l) | Relation _ (Some l)
  | Quantifier _ (Some l) => l
  | Generic _ _ _ l => l
  | _ => []
  end.

(** The items that are neither a Concept nor a Relation. *)
Definition is_other (x : IR) : bool :=
  negb (Optimizer.is_relation x || Optimizer.is_concept x).

End Items.

(** ** Vocabulary of the statements about the context buffer *)

Module Context.

(** The resolver after [add_to_context] has been called with each of
    [messages], in order. *)
Definition after_adds (messages : list pyval) (st : Resolver.state) : Resolver.state :=
  List.fold_left (fun st message => snd (Resolver.add_to_context message st)) messages st.

(** The placeholder that [resolve_reference] returns for a [shared]
    reference. *)
Definition shared_knowledge (path : string) : pyval :=
  PDict [("type", PStr "shared_knowledge"); ("path", PStr path)].

End Context.

(** ** UniversalConceptSpace: labels *)

Module ConceptSpace.
Import Registry.

(** [concept_id_to_label(concept_id)]: the label of the concept, or the
    id itself when the registry has no such concept. *)
Definition concept_id_to_label (reg : concepts) (concept_id : string) : string :=
  match get_concept reg concept_id with
  | Some concept => label concept
  | None => concept_id
  end.

End ConceptSpace.

(** ** LLMCLParser (LLM-CL_Encoder_Decoder.py): nested blocks *)

Module LLMCLParser.

(** What [_extract_nested_content] ends in: the text it returns, a
    [ValueError] with its message, or the [IndexError] of [lines[start_idx]]. *)
Inductive outcome : Type :=
| Ok (text : string)
| ValueError (message : string)
| IndexError.

(** [s.find(c)] for a one-character [c]: [None] is [-1]. *)
Fixpoint find (c : ascii) (s : string) : option nat :=
  match s with
  | EmptyString => None
  | String d r => if Ascii.eqb d c then Some O else option_map S (find c r)
  end.

(** [s.count(c)] for a one-character [c]. *)
Fixpoint count (c : ascii) (s : string) : Z :=
  match s with
  | EmptyString => 0
  | String d r => ((if Ascii.eqb d c then 1 else 0) + count c r)%Z
  end.

(** The loop over the characters of a line: [brace_count] afterwards. *)
Fixpoint braces (brace_count : Z) (line : string) : Z :=
  match line with
  | EmptyString => brace_count
  | String char r =>
      if Ascii.eqb char "{" then braces (brace_count + 1) r
      else if Ascii.eqb char "}" then braces (brace_count - 1) r
      else braces brace_count r
  end.

(** The loop over the lines after the first: the lines appended and
    [brace_count] afterwards; it stops after the line at whose end the
    count is zero. *)
Fixpoint take_lines (brace_count : Z) (lines : list string) : list string * Z :=
  match lines with
  | [] => ([], brace_count)
  | curr_line :: rest =>
      let brace_count := braces brace_count curr_line in
      if (brace_count =? 0)%Z then ([curr_line], brace_count)
      else let (taken, final) := take_lines brace_count rest in
           (curr_line :: taken, final)
  end.

(** [_extract_nested_content(lines, start_idx)], for [start_idx >= 0] (the
    caller's loop index). *)
Definition _extract_nested_content (lines : list string) (start_idx : nat) : outcome :=
  match nth_error lines start_idx with
  | None => IndexError
  | Some raw =>
      let line := Py.strip raw in
      match find "{" line with
      | None => ValueError ("Expected opening brace in line: " +:+ line)
      | Some open_brace_idx =>
          let (taken, brace_count) := take_lines 1 (skipn (S start_idx) lines) in
          if (brace_count =? 0)%Z then
            Ok (Py.join (String "010" EmptyString)
                  (Py.drop open_brace_idx line :: taken))
          else ValueError "Unbalanced braces in nested content"
      end
  end.

(** [_count_nested_lines(nested_content)]. *)
Definition _count_nested_lines (nested_content : string) : Z :=
  (count "010" nested_content + 1)%Z.

End LLMCLParser.

(* ====================================================================== *)
(** * Properties *)
(* ====================================================================== *)

(** ** Facts about the Python primitives *)

Module PyFacts.
Import Py.

Lemma startswith_nil s : startswith s EmptyString = true.
Proof. now destruct s. Qed.

Lemma startswith_cons a p b s :
  startswith (String b s) (String a p) = Ascii.eqb a b && startswith s p.
Proof.
  unfold startswith. simpl. destruct (ascii_dec a b) as [->|Hne].
  - now rewrite Ascii.eqb_refl.
  - apply Ascii.eqb_neq in Hne. now rewrite Hne.
Qed.

Lemma startswith_empty a p : startswith EmptyString (String a p) = false.
Proof. reflexivity. Qed.

Lemma isdigit_not_space c : isdigit c = true -> isspace c = false.
Proof.
  destruct c as [[] [] [] [] [] [] [] []]; vm_compute; congruence.
Qed.

Lemma isdigit_not_underscore c : isdigit c = true -> Ascii.eqb c "_" = false.
Proof.
  destruct c as [[] [] [] [] [] [] [] []]; vm_compute; congruence.
Qed.

Lemma all_chars_impl (p q : ascii -> bool) s :
  (forall c, p c = true -> q c = true) ->
  all_chars p s = true -> all_chars q s = true.
Proof.
  intros Hpq. induction s as [|c r IH]; simpl; [easy|].
  rewrite !andb_true_iff. intros [Hc Hr]. split; auto.
Qed.

Lemma rstrip_no_space s :
  all_chars (fun c => negb (isspace c)) s = true -> rstrip s = s.
Proof.
  induction s as [|c r IH]; simpl; [easy|].
  rewrite andb_true_iff. intros [Hc Hr]. rewrite (IH Hr).
  apply negb_true_iff in Hc. rewrite Hc. now destruct r.
Qed.

Lemma lstrip_no_space s :
  all_chars (fun c => negb (isspace c)) s = true -> lstrip s = s.
Proof.
  destruct s as [|c r]; simpl; [easy|].
  rewrite andb_true_iff. intros [Hc _].
  apply negb_true_iff in Hc. now rewrite Hc.
Qed.

Lemma strip_no_space s :
  all_chars (fun c => negb (isspace c)) s = true -> strip s = s.
Proof.
  intros H. unfold strip. rewrite (lstrip_no_space s H).
  now apply rstrip_no_space.
Qed.

Lemma strip_digits s : all_chars isdigit s = true -> strip s = s.
Proof.
  intros H. apply strip_no_space. revert H. apply all_chars_impl.
  intros c Hc. now rewrite (isdigit_not_space c Hc).
Qed.

Lemma int_space_isspace c : int_space c = true -> isspace c = true.
Proof. unfold int_space, isspace. intros ->. reflexivity. Qed.

Lemma int_strip_no_space s :
  all_chars (fun c => negb (int_space c)) s = true -> int_strip s = s.
Proof.
  intros H. unfold int_strip.
  assert (El : int_lstrip s = s).
  { destruct s as [|c r]; [reflexivity|]. cbn [all_chars int_lstrip] in *.
    apply andb_true_iff in H as [Hc _]. apply negb_true_iff in Hc. now rewrite Hc. }
  rewrite El. clear El.
  induction s as [|c r IH]; [reflexivity|]. cbn [all_chars int_rstrip] in *.
  apply andb_true_iff in H as [Hc Hr]. rewrite (IH Hr).
  apply negb_true_iff in Hc. rewrite Hc. now destruct r.
Qed.

Lemma isdigit_not_int_space c : isdigit c = true -> int_space c = false.
Proof.
  intros Hc. destruct (int_space c) eqn:E; [|reflexivity].
  apply int_space_isspace in E. now rewrite (isdigit_not_space c Hc) in E.
Qed.

Lemma int_strip_digits s : all_chars isdigit s = true -> int_strip s = s.
Proof.
  intros H. apply int_strip_no_space. revert H. apply all_chars_impl.
  intros c Hc. now rewrite (isdigit_not_int_space c Hc).
Qed.

Lemma ungroup_digits s : all_chars isdigit s = true -> ungroup s = s.
Proof.
  induction s as [|c r IH]; simpl; [easy|].
  rewrite andb_true_iff. intros [Hc Hr].
  now rewrite (isdigit_not_underscore c Hc), (IH Hr).
Qed.

Lemma grouped_digits s b :
  all_chars isdigit s = true -> grouped b s = match s with EmptyString => b | _ => true end.
Proof.
  revert b. induction s as [|c r IH]; simpl; intros b; [easy|].
  rewrite andb_true_iff. intros [Hc Hr]. rewrite Hc, (IH true Hr).
  now destruct r.
Qed.

Lemma uint_digits d : all_chars isdigit (NilEmpty.string_of_uint d) = true.
Proof. induction d; simpl; auto. Qed.

Lemma uint_digits_nz d : all_chars isdigit (NilZero.string_of_uint d) = true.
Proof. destruct d; try apply (uint_digits (_ _)). reflexivity. Qed.

Lemma uint_nonempty d : NilZero.string_of_uint d <> EmptyString.
Proof. destruct d; simpl; congruence. Qed.

(** Reading back the decimal numeral of a natural number. *)
Lemma digits_value_uint d :
  d <> Decimal.Nil ->
  digits_value (NilZero.string_of_uint d) = Some (Z.of_N (N.of_uint d)).
Proof.
  intros Hd. unfold digits_value.
  rewrite (grouped_digits _ false (uint_digits_nz d)).
  rewrite (ungroup_digits _ (uint_digits_nz d)).
  rewrite (NilZero.usu d Hd).
  destruct (NilZero.string_of_uint d) eqn:E; [now apply uint_nonempty in E|].
  reflexivity.
Qed.

Lemma digits_value_N n :
  digits_value (NilZero.string_of_uint (N.to_uint n)) = Some (Z.of_N n).
Proof.
  rewrite digits_value_uint.
  - now rewrite DecimalN.Unsigned.of_to.
  - destruct n; simpl; [congruence|apply DecimalPos.Unsigned.to_uint_nonnil].
Qed.

Lemma str_nonneg n : str (Z.of_N n) = NilZero.string_of_uint (N.to_uint n).
Proof. now destruct n. Qed.

Lemma str_nonneg_digits n : all_chars isdigit (str (Z.of_N n)) = true.
Proof. rewrite str_nonneg. apply uint_digits_nz. Qed.

Lemma first_digit_not_sign c r :
  isdigit c = true ->
  match String c r with
  | String "+" r' => digits_value r'
  | String "-" r' => option_map Z.opp (digits_value r')
  | r' => digits_value r'
  end = digits_value (String c r).
Proof.
  destruct c as [[] [] [] [] [] [] [] []]; vm_compute isdigit; congruence.
Qed.

(** [int(str(n)) == n] for a natural number [n]. *)
Lemma int_str_N n : int (str (Z.of_N n)) = Some (Z.of_N n).
Proof.
  unfold int. rewrite (int_strip_digits _ (str_nonneg_digits n)).
  pose proof (str_nonneg_digits n) as Hd.
  rewrite str_nonneg in *.
  destruct (NilZero.string_of_uint (N.to_uint n)) as [|c r] eqn:E.
  - now apply uint_nonempty in E.
  - simpl in Hd. apply andb_true_iff in Hd as [Hc _].
    rewrite (first_digit_not_sign c r Hc). rewrite <- E.
    apply digits_value_N.
Qed.

Lemma str_isdigit_str n : str_isdigit (str (Z.of_N n)) = true.
Proof.
  unfold str_isdigit. pose proof (str_nonneg_digits n) as Hd.
  rewrite str_nonneg in *.
  destruct (NilZero.string_of_uint (N.to_uint n)) eqn:E; [|exact Hd].
  now apply uint_nonempty in E.
Qed.

End PyFacts.

(** ** The reference resolver *)

Module ResolverFacts.
Import Py PyFacts Resolver Spec.

Lemma split_no_sep sep s : contains sep s = false -> split sep s = [s].
Proof.
  induction s as [|c r IH]; simpl; [easy|].
  rewrite orb_false_iff. intros [Hc Hr]. now rewrite Hc, (IH Hr).
Qed.

Lemma digits_no_dot s : all_chars isdigit s = true -> contains "." s = false.
Proof.
  induction s as [|c r IH]; simpl; [easy|].
  rewrite andb_true_iff. intros [Hc Hr]. rewrite (IH Hr), orb_false_r.
  destruct c as [[] [] [] [] [] [] [] []]; vm_compute in Hc |- *; congruence.
Qed.

(** The token [^prev<digits>] has the single part [prev<digits>]. *)
Lemma prev_token_parts ds :
  all_chars isdigit ds = true ->
  startswith ("^prev" +:+ ds) "^" = true /\
  split "." (drop 1 ("^prev" +:+ ds)) = ["prev" +:+ ds] /\
  startswith ("prev" +:+ ds) "prev" = true /\
  drop 4 ("prev" +:+ ds) = ds.
Proof.
  intros Hd. split; [now destruct ds|].
  split; [|split; [now destruct ds|reflexivity]].
  change (drop 1 ("^prev" +:+ ds)) with ("prev" +:+ ds).
  apply split_no_sep. simpl. now apply digits_no_dot.
Qed.

(** What [resolve_reference] returns on [^prevK] for a numeral [K]. *)
Lemma resolve_prev_numeral (n : N) (st : state) :
  fst (resolve_reference ("^prev" +:+ str (Z.of_N n)) st) =
  if ((Z.of_N n <=? 0) || (len (context_buffer st) <? Z.of_N n))%Z then PNone
  else match index (context_buffer st) (- Z.of_N n) with
       | Some message => message
       | None => PNone
       end.
Proof.
  destruct (prev_token_parts _ (str_nonneg_digits n)) as (H1 & H2 & H3 & H4).
  unfold resolve_reference. rewrite H1, H2. cbn [negb List.hd List.tl].
  rewrite H3, H4, int_str_N.
  unfold bind, get_buffer, ret.
  destruct ((Z.of_N n <=? 0) || (len (context_buffer st) <? Z.of_N n))%Z;
    [reflexivity|].
  now destruct (index (context_buffer st) (- Z.of_N n)).
Qed.

Lemma index_from_end {A} (l : list A) (k : nat) :
  (1 <= k <= List.length l)%nat ->
  index l (- Z.of_nat k) = nth_error (rev l) (k - 1).
Proof.
  intros Hk. unfold index, len.
  destruct (Z.ltb_spec (- Z.of_nat k) 0) as [_|]; [|lia].
  destruct (Z.ltb_spec (Z.of_nat (List.length l) + - Z.of_nat k) 0); [lia|].
  rewrite nth_error_rev.
  destruct (Nat.ltb_spec (k - 1) (List.length l)); [|lia].
  f_equal. lia.
Qed.

(** C3: [^prevK] for [1 <= K <= len(buffer)] is the K-th most recent entry
    of the context buffer (the entry at position [K-1] of the buffer read
    from its newest end); [^prev0] and [^prev<len+1>] are not found. *)
Theorem resolve_prev_kth_most_recent (st : state) :
  (forall K : nat,
      (1 <= K <= List.length (context_buffer st))%nat ->
      exists entry,
        nth_error (rev (context_buffer st)) (K - 1) = Some entry /\
        fst (resolve_reference ("^prev" +:+ str (Z.of_nat K)) st) = entry) /\
  fst (resolve_reference "^prev0" st) = PNone /\
  fst (resolve_reference
         ("^prev" +:+ str (len (context_buffer st) + 1)) st) = PNone.
Proof.
  split; [|split].
  - intros K HK.
    rewrite <- (nat_N_Z K), resolve_prev_numeral, (nat_N_Z K).
    unfold len.
    destruct (Z.leb_spec (Z.of_nat K) 0); [lia|].
    destruct (Z.ltb_spec (Z.of_nat (List.length (context_buffer st)))
                (Z.of_nat K)); [lia|].
    cbn [orb]. rewrite (index_from_end _ K HK).
    destruct (nth_error (rev (context_buffer st)) (K - 1)) as [e|] eqn:E.
    + now exists e.
    + apply nth_error_None in E. rewrite length_rev in E. lia.
  - exact (resolve_prev_numeral 0 st).
  - unfold len.
    replace (Z.of_nat (List.length (context_buffer st)) + 1)%Z
      with (Z.of_N (N.of_nat (S (List.length (context_buffer st))))) by lia.
    rewrite resolve_prev_numeral. unfold len.
    destruct (Z.ltb_spec (Z.of_nat (List.length (context_buffer st)))
                (Z.of_N (N.of_nat (S (List.length (context_buffer st))))));
      [|lia].
    now rewrite orb_true_r.
Qed.

Lemma resolve_prev_kth_most_recent_witness :
  fst (resolve_reference "^prev2" three_entries) = PStr "middle".
Proof.
  destruct (resolve_prev_kth_most_recent three_entries) as [H _].
  destruct (H 2%nat ltac:(simpl; lia)) as (entry & Hn & Hr).
  simpl in Hn. injection Hn as <-. exact Hr.
Defined.

(** C10: [resolve_reference] leaves the resolver as it found it, the
    buffer with its entries and their order and the maximum size, whether
    it finds something or not. *)
Theorem resolve_reference_frame (ref_token : string) (st : state) :
  snd (resolve_reference ref_token st) = st /\
  context_buffer (snd (resolve_reference ref_token st)) = context_buffer st /\
  max_context_size (snd (resolve_reference ref_token st)) = max_context_size st.
Proof.
  assert (H : snd (resolve_reference ref_token st) = st).
  { unfold resolve_reference, bind, get_buffer, ret.
    repeat match goal with
           | |- context [if ?b then _ else _] => destruct b
           | |- context [match ?x with _ => _ end] => destruct x
           end; reflexivity. }
  now rewrite H.
Qed.

End ResolverFacts.

(** ** The concept registry *)

Module RegistryFacts.
Import Py PyFacts Registry.

Lemma grows_refl x l : grows x l l.
Proof. now left. Qed.

Lemma grows_trans x l1 l2 l3 : grows x l1 l2 -> grows x l2 l3 -> grows x l1 l3.
Proof.
  intros [->|[H1 ->]] [->|[H2 ->]]; try (now left); try (right; now split).
  exfalso. apply H2. apply elem_of_app. right. now apply list_elem_of_singleton.
Qed.

Lemma grows_elem_of x y l l' : grows x l l' -> y ∈ l -> y ∈ l'.
Proof. intros [->|[_ ->]] H; [easy|]. apply elem_of_app. now left. Qed.

Lemma grows_NoDup x l l' : grows x l l' -> NoDup l -> NoDup l'.
Proof.
  intros [->|[Hx ->]] H; [easy|].
  apply NoDup_app. split; [easy|]. split; [|apply NoDup_singleton].
  intros y Hy Hy'. apply list_elem_of_singleton in Hy'. now subst.
Qed.

Lemma extends_refl x reg : extends x reg reg.
Proof. intros i. destruct (reg !! i); [|easy]. intros e. apply grows_refl. Qed.

Lemma extends_trans x r1 r2 r3 : extends x r1 r2 -> extends x r2 r3 -> extends x r1 r3.
Proof.
  intros H12 H23 i. specialize (H12 i). specialize (H23 i).
  destruct (r1 !! i), (r2 !! i), (r3 !! i); try easy.
  intros e. eapply grows_trans; eauto.
Qed.

Lemma get_append_edge e e' x c :
  get_edge e' (append_edge e x c) =
  if decide (e' = e) then get_edge e c ++ [x] else get_edge e' c.
Proof. destruct e, e'; reflexivity. Qed.

Lemma back_patch_extends e x reg i : extends x reg (back_patch e x reg i).
Proof.
  unfold back_patch. destruct (reg !! i) as [c|] eqn:Hi; [|apply extends_refl].
  destruct (decide (x ∈ get_edge e c)) as [Hin|Hin]; [apply extends_refl|].
  intros j. destruct (decide (i = j)) as [<-|Hne].
  - rewrite Hi, lookup_insert_eq. intros e'. rewrite get_append_edge.
    destruct (decide (e' = e)) as [->|]; [right; now split|now left].
  - rewrite lookup_insert_ne by easy. destruct (reg !! j); [|easy].
    intros e'. apply grows_refl.
Qed.

Lemma foldl_back_patch_extends e x l reg :
  extends x reg (foldl (back_patch e x) reg l).
Proof.
  revert reg. induction l as [|a l IH]; intros reg; simpl; [apply extends_refl|].
  eapply extends_trans; [apply back_patch_extends|apply IH].
Qed.

Lemma extends_elem_of x reg reg' i c c' e y :
  extends x reg reg' -> reg !! i = Some c -> reg' !! i = Some c' ->
  y ∈ get_edge e c -> y ∈ get_edge e c'.
Proof.
  intros H Hc Hc' Hy. specialize (H i). rewrite Hc, Hc' in H.
  eapply grows_elem_of; eauto.
Qed.

Lemma extends_lookup_inv x reg reg' i c' :
  extends x reg reg' -> reg' !! i = Some c' -> exists c, reg !! i = Some c.
Proof.
  intros H Hc'. specialize (H i). rewrite Hc' in H.
  destruct (reg !! i); [eauto|easy].
Qed.

Lemma extends_lookup x reg reg' i c :
  extends x reg reg' -> reg !! i = Some c ->
  exists c', reg' !! i = Some c' /\ forall e, grows x (get_edge e c) (get_edge e c').
Proof.
  intros H Hc. specialize (H i). rewrite Hc in H.
  destruct (reg' !! i); [eauto|easy].
Qed.

(** After one turn for [i], a registered [i] carries the new id. *)
Lemma back_patch_carries e x reg i c :
  back_patch e x reg i !! i = Some c -> x ∈ get_edge e c.
Proof.
  unfold back_patch. destruct (reg !! i) as [c0|] eqn:Hi.
  - destruct (decide (x ∈ get_edge e c0)) as [Hin|Hin].
    + rewrite Hi. now intros [= <-].
    + rewrite lookup_insert_eq. intros [= <-]. rewrite get_append_edge.
      rewrite decide_True by easy. apply elem_of_app. right.
      now apply list_elem_of_singleton.
  - now rewrite Hi.
Qed.

(** After a whole loop, every registered id of the loop's list carries the
    new id. *)
Lemma foldl_back_patch_carries e x l reg i c :
  i ∈ l -> foldl (back_patch e x) reg l !! i = Some c -> x ∈ get_edge e c.
Proof.
  revert reg. induction l as [|a l IH]; intros reg Hin Hc; simpl in *.
  - now apply elem_of_nil in Hin.
  - apply elem_of_cons in Hin as [->|Hin]; [|now apply (IH _ Hin Hc)].
    pose proof (foldl_back_patch_extends e x l (back_patch e x reg a)) as Hext.
    destruct (extends_lookup_inv _ _ _ _ _ Hext Hc) as [c0 Hc0].
    eapply extends_elem_of; eauto. now apply back_patch_carries with (reg := reg) (i := a).
Qed.

(** The numbers [max] ranges over. *)
Lemma key_numbers_elem_of reg k c z :
  reg !! k = Some c -> str_isdigit (drop 1 k) = true -> int (drop 1 k) = Some z ->
  In z (key_numbers reg).
Proof.
  intros Hk Hd Hz. unfold key_numbers. apply in_flat_map.
  exists (k, c). split.
  - apply list_elem_of_In. now apply elem_of_map_to_list.
  - cbn [fst]. rewrite Hd, Hz. now left.
Qed.

Lemma str_isdigit_int_nonneg s z :
  str_isdigit s = true -> int s = Some z -> (0 <= z)%Z.
Proof.
  unfold str_isdigit. destruct s as [|c r]; [easy|]. intros Hd.
  unfold int. rewrite (int_strip_digits _ Hd).
  pose proof Hd as Hd'. simpl in Hd'. apply andb_true_iff in Hd' as [Hc _].
  rewrite (first_digit_not_sign c r Hc). unfold digits_value.
  destruct (grouped false (String c r)); [|easy].
  destruct (NilZero.uint_of_string _); [|easy].
  intros [= <-]. lia.
Qed.

Lemma key_numbers_nonneg reg z : In z (key_numbers reg) -> (0 <= z)%Z.
Proof.
  unfold key_numbers. rewrite in_flat_map. intros ([k c] & _ & Hz). cbn [fst] in Hz.
  destruct (str_isdigit (drop 1 k)) eqn:Hd; [|easy].
  destruct (int (drop 1 k)) as [z'|] eqn:Hi; [|easy].
  destruct Hz as [<-|[]]. eapply str_isdigit_int_nonneg; eauto.
Qed.

Lemma fold_left_max_ge l x : (x <= List.fold_left Z.max l x)%Z.
Proof.
  revert x. induction l as [|a l IH]; intros x; simpl; [lia|].
  specialize (IH (Z.max x a)). lia.
Qed.

Lemma fold_left_max_bound l x z : In z l -> (z <= List.fold_left Z.max l x)%Z.
Proof.
  revert x. induction l as [|a l IH]; intros x; simpl; [easy|].
  intros [->|Hin]; [|now apply IH].
  pose proof (fold_left_max_ge l (Z.max x z)). lia.
Qed.

Lemma fold_left_max_In l x : In (List.fold_left Z.max l x) (x :: l).
Proof.
  revert x. induction l as [|a l IH]; intros x; simpl; [now left|].
  destruct (IH (Z.max x a)) as [H|H]; [|now right; right].
  destruct (Z.max_spec x a) as [[_ E]|[_ E]]; rewrite E in H |- *;
    [right; left|left]; exact H.
Qed.

Lemma py_max_bound l m z : py_max l = Some m -> In z l -> (z <= m)%Z.
Proof.
  destruct l as [|x r]; [easy|]. intros [= <-] [->|Hin].
  - apply fold_left_max_ge.
  - now apply fold_left_max_bound.
Qed.

Lemma py_max_In l m : py_max l = Some m -> In m l.
Proof. destruct l as [|x r]; [easy|]. intros [= <-]. apply fold_left_max_In. Qed.

(** The id that [add_concept] makes is not yet in the registry. *)
Lemma new_id_fresh reg m :
  py_max (key_numbers reg) = Some m -> reg !! ("c" +:+ str (m + 1)) = None.
Proof.
  intros Hm. destruct (reg !! ("c" +:+ str (m + 1))) as [c|] eqn:Hc; [|easy].
  exfalso.
  assert (0 <= m)%Z as Hm0.
  { eapply key_numbers_nonneg, py_max_In; eauto. }
  assert (m + 1 = Z.of_N (Z.to_N (m + 1)))%Z as E by lia.
  assert (In (m + 1)%Z (key_numbers reg)) as Hin.
  { eapply key_numbers_elem_of; [exact Hc| |]; simpl; rewrite E.
    - apply str_isdigit_str.
    - apply int_str_N. }
  pose proof (py_max_bound _ _ _ Hm Hin). lia.
Qed.

(** The registry after the three loops, against the registry that holds
    the new concept with the argument lists. *)
Lemma add_concept_extends lbl def rel hypo hyper reg new_id reg' :
  add_concept lbl def rel hypo hyper reg = Some (new_id, reg') ->
  reg !! new_id = None /\
  extends new_id (<[new_id := mk_concept lbl def rel hypo hyper]> reg) reg'.
Proof.
  unfold add_concept. destruct (py_max (key_numbers reg)) as [m|] eqn:Hm; [|easy].
  intros [= <- <-]. split; [now apply new_id_fresh|].
  eapply extends_trans; [apply foldl_back_patch_extends|].
  eapply extends_trans; apply foldl_back_patch_extends.
Qed.

(** C4, as the code has it: after [add_concept], every id of the
    [related] list that the registry holds carries the new id in its
    [related] list, every id of the [hyponyms] list carries it in its
    [hypernyms] list, and every id of the [hypernyms] list carries it in
    its [hyponyms] list; every concept held before is still held and an
    edge list of it that had no duplicate has none afterwards; and an
    edge list of the new concept has no duplicate when the list given for
    it had none. *)
Theorem add_concept_back_patches lbl def rel hypo hyper reg new_id reg' :
  add_concept lbl def rel hypo hyper reg = Some (new_id, reg') ->
  (forall i c, i ∈ rel -> reg' !! i = Some c -> new_id ∈ related c) /\
  (forall i c, i ∈ hypo -> reg' !! i = Some c -> new_id ∈ hypernyms c) /\
  (forall i c, i ∈ hyper -> reg' !! i = Some c -> new_id ∈ hyponyms c) /\
  (forall i c e, reg !! i = Some c ->
     exists c', reg' !! i = Some c' /\
                (NoDup (get_edge e c) -> NoDup (get_edge e c'))) /\
  (exists c, reg' !! new_id = Some c /\
     forall e, NoDup (argument e rel hypo hyper) -> NoDup (get_edge e c)).
Proof.
  intros H. destruct (add_concept_extends _ _ _ _ _ _ _ _ H) as [Hfresh Hext].
  unfold add_concept in H.
  destruct (py_max (key_numbers reg)) as [m|] eqn:Hm; [|easy].
  injection H as Hid Hreg.
  set (reg1 := <[new_id := mk_concept lbl def rel hypo hyper]> reg) in *.
  rewrite Hid in Hreg. fold reg1 in Hreg.
  set (reg2 := foldl (back_patch Related new_id) reg1 rel) in *.
  set (reg3 := foldl (back_patch Hypernyms new_id) reg2 hypo) in *.
  assert (E12 : extends new_id reg1 reg2) by apply foldl_back_patch_extends.
  assert (E23 : extends new_id reg2 reg3) by apply foldl_back_patch_extends.
  assert (H1 : reg1 !! new_id = Some (mk_concept lbl def rel hypo hyper))
    by apply lookup_insert_eq.
  destruct (extends_lookup _ _ _ _ _ (extends_trans _ _ _ _ E12 E23) H1)
    as (c3 & Hc3 & Hg3).
  rewrite Hc3 in Hreg.
  set (hyper' := match hyper with [] => [] | _ => hypernyms c3 end) in *.
  assert (E34 : extends new_id reg3 reg') by (rewrite <- Hreg; apply foldl_back_patch_extends).
  repeat split.
  - intros i c Hi Hc.
    destruct (extends_lookup_inv _ _ _ _ _ (extends_trans _ _ _ _ E23 E34) Hc)
      as [c2 Hc2].
    apply (extends_elem_of _ _ _ _ _ _ Related _
             (extends_trans _ _ _ _ E23 E34) Hc2 Hc).
    exact (foldl_back_patch_carries Related new_id rel reg1 i c2 Hi Hc2).
  - intros i c Hi Hc.
    destruct (extends_lookup_inv _ _ _ _ _ E34 Hc) as [c2 Hc2].
    apply (extends_elem_of _ _ _ _ _ _ Hypernyms _ E34 Hc2 Hc).
    exact (foldl_back_patch_carries Hypernyms new_id hypo reg2 i c2 Hi Hc2).
  - intros i c Hi Hc. rewrite <- Hreg in Hc.
    apply (foldl_back_patch_carries Hyponyms new_id hyper' reg3 i c); [|exact Hc].
    unfold hyper'. destruct hyper as [|h0 hs]; [exact Hi|].
    exact (grows_elem_of _ _ _ _ (Hg3 Hypernyms) Hi).
  - intros i c e Hi.
    assert (i <> new_id) as Hne by (intros ->; congruence).
    assert (reg1 !! i = Some c) as Hi1
      by (unfold reg1; now rewrite lookup_insert_ne).
    destruct (extends_lookup _ _ _ _ _ Hext Hi1) as (c' & Hc' & Hg).
    exists c'. split; [exact Hc'|]. apply grows_NoDup with (x := new_id), Hg.
  - destruct (extends_lookup _ _ _ _ _ Hext H1) as (c' & Hc' & Hg).
    exists c'. split; [exact Hc'|]. intros e.
    apply grows_NoDup with (x := new_id).
    specialize (Hg e). now destruct e.
Qed.

(** Scenario 3 of the specification: [add_concept("x", "def",
    related=["c142"])] on the default registry. *)
Lemma add_concept_back_patches_witness :
  exists new_id reg' c,
    add_concept "x" "def" ["c142"] [] [] default_concepts = Some (new_id, reg') /\
    reg' !! "c142" = Some c /\ new_id ∈ related c.
Proof.
  destruct (add_concept "x" "def" ["c142"] [] [] default_concepts)
    as [[new_id reg']|] eqn:E; [|vm_compute in E; discriminate].
  destruct (add_concept_back_patches _ _ _ _ _ _ _ _ E) as (Hrel & _ & _ & Hold & _).
  destruct (Hold "c142" _ Related eq_refl) as (c' & Hc' & _).
  exists new_id, reg', c'. repeat split; [exact Hc'|].
  apply (Hrel "c142" c'); [apply list_elem_of_here|exact Hc'].
Defined.

(** C4 as stated fails: the registry stores the lists it is given, so a
    list given with a repeated id is an edge list with a duplicate. *)
Lemma add_concept_keeps_duplicate_arguments :
  match add_concept "x" "def" ["c142"; "c142"] [] [] default_concepts with
  | Some (new_id, reg') =>
      new_id = "c8702" /\
      related <$> reg' !! new_id = Some ["c142"; "c142"] /\
      ~ NoDup ["c142"; "c142"]
  | None => False
  end.
Proof.
  vm_compute. repeat split.
  intros H. apply NoDup_cons in H as [H _]. apply H, list_elem_of_here.
Qed.

End RegistryFacts.

(** ** Lowering *)

Module IRBuilderFacts.
Import Py ASTNodeType IRBuilder Spec.

(** [split] cuts at every separator: the first part ends at the first
    separator and the other parts are those of the remainder. *)
Lemma split_first sep s :
  split sep s =
  before_first sep s ::
    match after_first sep s with
    | Some rest => split sep rest
    | None => []
    end.
Proof.
  induction s as [|c r IH]; simpl; [reflexivity|].
  destruct (Ascii.eqb c sep); [reflexivity|]. now rewrite IH.
Qed.

Lemma after_first_contains sep s :
  after_first sep s = None <-> contains sep s = false.
Proof.
  induction s as [|c r IH]; simpl; [easy|].
  destruct (Ascii.eqb c sep); simpl; [easy|exact IH].
Qed.

(** C8, as the code has it: lowering a Concept node whose value is not
    empty drops the first character of the value (the sigil) and cuts the
    rest at every qualifier separator. [id] is the part before the first
    separator; [qualifier] is present exactly when there is a separator,
    and is the part between the first separator and the next one (the
    whole remainder only when no further separator follows). *)
Theorem build_concept_id_qualifier sigil rest children attributes :
  let ir := build (Node CONCEPT (Some (String sigil rest)) children attributes) in
  concept_id ir = Some (before_first "~" rest) /\
  concept_qualifier ir = option_map (before_first "~") (after_first "~" rest) /\
  (concept_qualifier ir = None <-> contains "~" rest = false) /\
  (forall remainder,
      after_first "~" rest = Some remainder -> contains "~" remainder = false ->
      concept_qualifier ir = Some remainder).
Proof.
  cbn [build _build_node_ir concept_id concept_qualifier option_map].
  rewrite (split_first "~" rest). cbn [List.hd].
  assert (Hq : match
                 before_first "~" rest ::
                   match after_first "~" rest with
                   | Some rest0 => split "~" rest0
                   | None => []
                   end
               with
               | _ :: qualifier :: _ => Some qualifier
               | _ => None
               end = option_map (before_first "~") (after_first "~" rest)).
  { destruct (after_first "~" rest) as [rem|]; [|reflexivity].
    now rewrite (split_first "~" rem). }
  repeat split.
  - exact Hq.
  - rewrite Hq. intros H. apply after_first_contains.
    now destruct (after_first "~" rest).
  - rewrite Hq. intros H. apply after_first_contains in H. now rewrite H.
  - intros remainder Hr Hn. rewrite Hq, Hr. cbn [option_map]. f_equal.
    clear Hr Hq. induction remainder as [|c r IH]; [reflexivity|].
    simpl in *. destruct (Ascii.eqb c "~"); [discriminate|].
    simpl in Hn. now rewrite IH.
Qed.

Lemma build_concept_id_qualifier_witness :
  concept_qualifier (build (Node CONCEPT (Some "#c501~approaches") [] []))
  = Some "approaches".
Proof.
  destruct (build_concept_id_qualifier "#" "c501~approaches" [] [])
    as (_ & _ & _ & H).
  apply (H "approaches"); reflexivity.
Defined.

(** C8 as stated fails: with two separators the qualifier is the part
    between them, not the whole remainder after the first. *)
Lemma build_concept_second_separator :
  after_first "~" "a~b~c" = Some "b~c" /\
  concept_qualifier (build (Node CONCEPT (Some "#a~b~c") [] [])) = Some "b" /\
  concept_qualifier (build (Node CONCEPT (Some "#a~b~c") [] [])) <> Some "b~c".
Proof. repeat split. discriminate. Qed.

End IRBuilderFacts.

(** ** Semantic analysis *)

Module SemanticFacts.
Import Py PyFacts ASTNodeType SemanticAnalyzer Spec.

Lemma both_no_report_l r : both no_report r = r.
Proof. now destruct r. Qed.

Lemma fold_left_both (rs : list report) (r0 : report) :
  List.fold_left both rs r0 =
  (fst r0 ++ List.flat_map fst rs, snd r0 ++ List.flat_map snd rs).
Proof.
  revert r0. induction rs as [|r rs IH]; intros r0; simpl.
  - rewrite !app_nil_r. now destruct r0.
  - rewrite IH. unfold both. simpl. now rewrite <- !app_assoc.
Qed.

Lemma analyze_node_unfold cs type value children attributes :
  _analyze_node cs (Node type value children attributes) =
  List.fold_left both (List.map (_analyze_node cs) children)
    (own_report cs (Node type value children attributes)).
Proof. reflexivity. Qed.

Lemma flat_map_flat_map {A B C} (f : A -> list B) (g : B -> list C) l :
  List.flat_map g (List.flat_map f l) = List.flat_map (fun x => List.flat_map g (f x)) l.
Proof.
  induction l as [|x l IH]; simpl; [reflexivity|].
  now rewrite flat_map_app, IH.
Qed.

(** The warnings of a tree are the warnings of its nodes, in the order of
    the walk. *)
Lemma analyze_warnings cs node :
  snd (_analyze_node cs node) =
  List.flat_map (fun n => snd (own_report cs n)) (subnodes node).
Proof.
  induction node as [type value children attributes IH] using ASTNode_tree_ind.
  rewrite analyze_node_unfold, fold_left_both. cbn [snd subnodes List.flat_map].
  f_equal. rewrite flat_map_flat_map.
  induction IH as [|c cs' Hc _ IHl]; simpl; [reflexivity|].
  now rewrite Hc, IHl.
Qed.

Lemma check_concept_value cs c0 v' :
  (0 < size cs)%nat ->
  _check_concept cs (Node CONCEPT (Some (String c0 v')) [] []) =
  if Ascii.eqb "#" c0 && startswith v' "c" && negb (contains "~" v')
     && negb (bool_decide (is_Some (cs !! v')))
  then warning ("Unknown concept ID: " +:+ v') else no_report.
Proof.
  intros Hsize. unfold _check_concept. cbn [node_value truthy andb Py.drop].
  apply Nat.ltb_lt in Hsize. rewrite Hsize.
  rewrite startswith_cons. cbn [contains].
  destruct (Ascii.eqb "#" c0) eqn:E0; [|reflexivity].
  apply Ascii.eqb_eq in E0 as <-.
  change (Ascii.eqb "#" "~") with false. cbn [orb andb].
  destruct (startswith v' "c"); [|reflexivity]. cbn [andb].
  destruct (contains "~" v'); [reflexivity|]. cbn [negb andb].
  now destruct (bool_decide (is_Some (cs !! v'))).
Qed.

Lemma check_concept_depends_on_value cs node :
  _check_concept cs node = _check_concept cs (Node CONCEPT (node_value node) [] []).
Proof. reflexivity. Qed.

Lemma check_concept_spec cs node :
  (0 < size cs)%nat ->
  fst (_check_concept cs node) = [] /\
  forall w, In w (snd (_check_concept cs node)) <->
            exists i, w = "Unknown concept ID: " +:+ i /\ unknown_concept cs node i.
Proof.
  intros Hsize. rewrite check_concept_depends_on_value. unfold unknown_concept.
  destruct (node_value node) as [[|c0 v']|].
  1,3: split; [reflexivity|]; intros w; split;
    [intros []|intros (i & _ & H & _); discriminate].
  rewrite (check_concept_value cs c0 v' Hsize).
  destruct (Ascii.eqb "#" c0) eqn:E0.
  2:{ split; [reflexivity|]. intros w; split; [intros []|].
      intros (i & _ & [= E1 E2] & _). subst c0.
      now rewrite Ascii.eqb_refl in E0. }
  apply Ascii.eqb_eq in E0 as <-. cbn [andb].
  destruct (startswith v' "c") eqn:Ec.
  2:{ split; [reflexivity|]. intros w; split; [intros []|].
      intros (i & _ & Hv & Hc & _). simpl in Hv. injection Hv as ->.
      congruence. }
  destruct (contains "~" v') eqn:Et.
  1:{ split; [reflexivity|]. intros w; split; [intros []|].
      intros (i & _ & Hv & _ & Hn & _). simpl in Hv. injection Hv as ->.
      congruence. }
  cbn [negb andb].
  destruct (cs !! v') as [d|] eqn:Hl.
  - rewrite bool_decide_eq_true_2 by eauto.
    split; [reflexivity|]. intros w; split; [intros []|].
    intros (i & _ & Hv & _ & _ & Hn). simpl in Hv. injection Hv as ->.
    congruence.
  - rewrite bool_decide_eq_false_2 by (intros [? ?]; congruence).
    split; [reflexivity|]. intros w. cbn [negb warning snd]. split.
    + intros [<-|[]]. exists v'. repeat split; auto.
    + intros (i & -> & Hv & _). simpl in Hv. injection Hv as ->. now left.
Qed.

Lemma other_warnings_differ cs node i :
  node_type node <> CONCEPT ->
  ~ In ("Unknown concept ID: " +:+ i) (snd (own_report cs node)).
Proof.
  intros Hty. unfold own_report.
  destruct (node_type node); try easy.
  - unfold _check_message_structure.
    repeat match goal with
           | |- context [match ?l with [] => _ | _ :: _ => _ end] => destruct l
           end; simpl; intros H; repeat destruct H as [H|H]; try discriminate; easy.
  - unfold _check_reference.
    repeat match goal with
           | |- context [if ?b then _ else _] => destruct b
           | |- context [match ?l with [] => _ | _ :: _ => _ end] => destruct l
           end; simpl; intros H; repeat destruct H as [H|H]; try discriminate; easy.
Qed.

(** C7, as the code has it: with a non-empty registry the checker warns
    about an unknown concept exactly for the Concept nodes whose value is
    the concept sigil followed by an id that starts with [c] (whatever
    follows the [c]), has no qualifier separator, and is absent from the
    registry; the warning names that id, and the check of a Concept node
    adds no error. *)
Theorem unknown_concept_warning cs ast :
  (0 < size cs)%nat ->
  (forall i,
      In ("Unknown concept ID: " +:+ i) (snd (analyze cs ast)) <->
      exists node, In node (subnodes ast) /\ node_type node = CONCEPT /\
                   unknown_concept cs node i) /\
  (forall node, fst (_check_concept cs node) = []).
Proof.
  intros Hsize. split; [|intros node; now apply check_concept_spec].
  intros i. unfold analyze. rewrite analyze_warnings, in_flat_map. split.
  - intros (node & Hin & Hw). exists node. split; [exact Hin|].
    destruct (ASTNodeType.eqb (node_type node) CONCEPT) eqn:E.
    + assert (node_type node = CONCEPT) as Hty by (now destruct (node_type node)).
      split; [exact Hty|]. unfold own_report in Hw. rewrite Hty in Hw.
      apply (proj2 (check_concept_spec cs node Hsize)) in Hw as (j & Hj & Hu).
      assert (i = j) as -> by (now injection Hj). exact Hu.
    + exfalso. apply (other_warnings_differ cs node i); [|exact Hw].
      intros Hty. now rewrite Hty in E.
  - intros (node & Hin & Hty & Hu). exists node. split; [exact Hin|].
    unfold own_report. rewrite Hty.
    apply (proj2 (check_concept_spec cs node Hsize)). now exists i.
Qed.

Lemma unknown_concept_warning_witness :
  In "Unknown concept ID: c9"
     (snd (analyze Registry.default_concepts
             (Node MESSAGE None
                [Node VERSION (Some "@v1.0") [] []; Node CONCEPT (Some "#c9") [] []]
                []))).
Proof.
  apply (proj1 (unknown_concept_warning Registry.default_concepts _
                  ltac:(vm_compute; lia)) "c9").
  exists (Node CONCEPT (Some "#c9") [] []).
  split; [simpl; auto|]. repeat split.
Defined.

(** C7 as stated fails: the check looks for the prefix [#c] only, so an
    id that starts with [c] and goes on with letters is warned about. *)
Lemma unknown_concept_without_digits :
  str_isdigit "at" = false /\
  _check_concept Registry.default_concepts (Node CONCEPT (Some "#cat") [] [])
  = ([], ["Unknown concept ID: cat"]).
Proof. split; vm_compute; reflexivity. Qed.

End SemanticFacts.

(** ** Canonicalization: the order of the sort *)

Module KeyOrder.
Import Optimizer Spec.

Lemma ascii_compare_refl a : Ascii.compare a a = Eq.
Proof. unfold Ascii.compare. apply N.compare_refl. Qed.

Lemma ascii_compare_lt_trans a b c :
  Ascii.compare a b = Lt -> Ascii.compare b c = Lt -> Ascii.compare a c = Lt.
Proof.
  unfold Ascii.compare. rewrite !N.compare_lt_iff. apply N.lt_trans.
Qed.

Lemma string_compare_refl s : String.compare s s = Eq.
Proof. induction s as [|c s IH]; simpl; [easy|]. now rewrite ascii_compare_refl. Qed.

Lemma string_compare_lt_trans s1 s2 s3 :
  String.compare s1 s2 = Lt -> String.compare s2 s3 = Lt -> String.compare s1 s3 = Lt.
Proof.
  revert s2 s3. induction s1 as [|a s1 IH]; intros [|b s2] [|c s3]; simpl; try easy.
  destruct (Ascii.compare a b) eqn:Eab; try easy;
    destruct (Ascii.compare b c) eqn:Ebc; try easy.
  - apply Ascii.compare_eq_iff in Eab, Ebc. subst.
    rewrite ascii_compare_refl. apply IH.
  - apply Ascii.compare_eq_iff in Eab. subst. now rewrite Ebc.
  - apply Ascii.compare_eq_iff in Ebc. subst. now rewrite Eab.
  - now rewrite (ascii_compare_lt_trans _ _ _ Eab Ebc).
Qed.

Lemma key_compare_refl k : key_compare k k = Eq.
Proof. unfold key_compare. now rewrite !string_compare_refl. Qed.

Lemma key_compare_eq a b : key_compare a b = Eq -> a = b.
Proof.
  destruct a as [[a1 a2] a3], b as [[b1 b2] b3]. unfold key_compare. simpl.
  destruct (String.compare a1 b1) eqn:E1; try easy.
  destruct (String.compare a2 b2) eqn:E2; try easy.
  intros E3. apply String.compare_eq_iff in E1, E2, E3. now subst.
Qed.

Lemma key_compare_antisym a b : key_compare a b = CompOpp (key_compare b a).
Proof.
  destruct a as [[a1 a2] a3], b as [[b1 b2] b3]. unfold key_compare. simpl.
  rewrite (String.compare_antisym a1 b1), (String.compare_antisym a2 b2),
    (String.compare_antisym a3 b3).
  destruct (String.compare b1 a1); simpl; try easy.
  now destruct (String.compare b2 a2).
Qed.

Lemma key_compare_lt_trans a b c :
  key_compare a b = Lt -> key_compare b c = Lt -> key_compare a c = Lt.
Proof.
  destruct a as [[a1 a2] a3], b as [[b1 b2] b3], c as [[c1 c2] c3].
  unfold key_compare. simpl.
  destruct (String.compare a1 b1) eqn:A1; try easy;
    destruct (String.compare b1 c1) eqn:B1; try easy;
    try (apply String.compare_eq_iff in A1; subst);
    try (apply String.compare_eq_iff in B1; subst);
    rewrite ?string_compare_refl, ?A1, ?B1;
    try (rewrite (string_compare_lt_trans _ _ _ A1 B1)); try easy.
  destruct (String.compare a2 b2) eqn:A2; try easy;
    destruct (String.compare b2 c2) eqn:B2; try easy;
    try (apply String.compare_eq_iff in A2; subst);
    try (apply String.compare_eq_iff in B2; subst);
    rewrite ?string_compare_refl, ?A2, ?B2;
    try (rewrite (string_compare_lt_trans _ _ _ A2 B2)); try easy.
  apply string_compare_lt_trans.
Qed.

Lemma key_ltb_irrefl a : key_ltb a a = false.
Proof. unfold key_ltb. now rewrite key_compare_refl. Qed.

Lemma key_ltb_asym a b : key_ltb a b = true -> key_ltb b a = false.
Proof.
  unfold key_ltb. rewrite (key_compare_antisym b a).
  now destruct (key_compare a b).
Qed.

Lemma key_le_antisym a b : key_le a b -> key_le b a -> a = b.
Proof.
  unfold key_le, key_ltb. rewrite (key_compare_antisym b a).
  destruct (key_compare a b) eqn:E; simpl; try easy.
  intros _ _. now apply key_compare_eq.
Qed.

Lemma key_le_trans a b c : key_le a b -> key_le b c -> key_le a c.
Proof.
  unfold key_le, key_ltb. intros Hab Hbc.
  destruct (key_compare c a) eqn:Eca; try easy. exfalso.
  destruct (key_compare b a) eqn:Eba; try easy.
  - apply key_compare_eq in Eba. subst. now rewrite Eca in Hbc.
  - rewrite (key_compare_antisym b a) in Eba.
    destruct (key_compare a b) eqn:Eab; try easy.
    now rewrite (key_compare_lt_trans _ _ _ Eca Eab) in Hbc.
Qed.

Lemma key_le_refl a : key_le a a.
Proof. apply key_ltb_irrefl. Qed.

Lemma key_ltb_le a b : key_ltb a b = true -> key_le a b.
Proof. apply key_ltb_asym. Qed.

End KeyOrder.

(** ** Canonicalization: the stable sort *)

Module SortFacts.
Import Optimizer KeyOrder Spec.

Section Sorting.
Context {A : Type} (key : A -> string * string * string).

Local Abbreviation of_key := (Spec.of_key key).
Local Abbreviation ordered := (Spec.ordered key).

Lemma insert_In x y l : In y (insert key x l) <-> y = x \/ In y l.
Proof.
  induction l as [|z l IH]; simpl; [intuition|].
  destruct (key_ltb (key z) (key x)); simpl; rewrite ?IH; intuition.
Qed.

Lemma sort_In y l : In y (sort key l) <-> In y l.
Proof.
  induction l as [|x l IH]; simpl; [easy|].
  rewrite insert_In, IH. intuition.
Qed.

Lemma insert_length x l : List.length (insert key x l) = S (List.length l).
Proof.
  induction l as [|z l IH]; simpl; [easy|].
  destruct (key_ltb (key z) (key x)); simpl; now rewrite ?IH.
Qed.

Lemma insert_ordered x l : ordered l -> ordered (insert key x l).
Proof.
  induction l as [|z l IH]; simpl; [intuition|]. intros [Hz Hl].
  destruct (key_ltb (key z) (key x)) eqn:E; simpl.
  - split; [|now apply IH]. intros y Hy. apply insert_In in Hy as [->|Hy].
    + now apply key_ltb_le.
    + now apply Hz.
  - split; [|easy]. intros y [<-|Hy]; [exact E|].
    apply key_le_trans with (key z); [exact E|now apply Hz].
Qed.

Lemma sort_ordered l : ordered (sort key l).
Proof. induction l; simpl; [easy|now apply insert_ordered]. Qed.

(** Stability: the sort keeps the order of the elements of one key. *)
Lemma insert_of_key k x l :
  of_key k (insert key x l) = of_key k (x :: l).
Proof.
  unfold of_key. induction l as [|z l IH]; [reflexivity|].
  cbn [insert]. destruct (key_ltb (key z) (key x)) eqn:E; [|reflexivity].
  cbn [List.filter] in *. rewrite IH.
  destruct (bool_decide (key x = k)) eqn:Ex; [|reflexivity].
  destruct (bool_decide (key z = k)) eqn:Ez; [|reflexivity].
  apply bool_decide_eq_true_1 in Ex, Ez.
  rewrite Ex, Ez, key_ltb_irrefl in E. discriminate.
Qed.

Lemma sort_of_key k l : of_key k (sort key l) = of_key k l.
Proof.
  induction l as [|x l IH]; [reflexivity|].
  cbn [sort]. rewrite insert_of_key. unfold of_key in *. cbn [List.filter].
  now rewrite IH.
Qed.

Lemma of_key_head x l : of_key (key x) (x :: l) = x :: of_key (key x) l.
Proof. unfold of_key. cbn [List.filter]. now rewrite bool_decide_eq_true_2. Qed.

Lemma of_key_In k x l : In x (of_key k l) <-> In x l /\ key x = k.
Proof.
  unfold of_key. rewrite filter_In. split; intros [H1 H2]; split; auto.
  - now apply bool_decide_eq_true_1 in H2.
  - now apply bool_decide_eq_true_2.
Qed.

(** An ordered list is determined by its elements key by key. *)
Lemma ordered_unique l1 l2 :
  ordered l1 -> ordered l2 ->
  (forall k, of_key k l1 = of_key k l2) -> l1 = l2.
Proof.
  revert l2. induction l1 as [|a l1 IH]; intros [|b l2] H1 H2 H.
  - reflexivity.
  - specialize (H (key b)). rewrite of_key_head in H. discriminate.
  - specialize (H (key a)). rewrite of_key_head in H. discriminate.
  - destruct H1 as [Ha H1], H2 as [Hb H2].
    assert (key a = key b) as Hk.
    { apply key_le_antisym.
      - assert (In b (a :: l1)) as [->|Hin].
        { apply (of_key_In (key b)). rewrite H, of_key_head. now left. }
        + apply key_le_refl.
        + now apply Ha.
      - assert (In a (b :: l2)) as [->|Hin].
        { apply (of_key_In (key a)). rewrite <- H, of_key_head. now left. }
        + apply key_le_refl.
        + now apply Hb. }
    pose proof (H (key a)) as Hab. rewrite of_key_head in Hab.
    rewrite Hk, of_key_head in Hab. injection Hab as -> Hab.
    f_equal. apply IH; [easy|easy|]. intros k. specialize (H k).
    unfold of_key in *. cbn [List.filter] in H.
    now destruct (bool_decide (key b = k)); [injection H|].
Qed.

(** The result of the sort depends only on the order of the elements
    within each key. *)
Lemma sort_stable_unique l1 l2 :
  (forall k, of_key k l1 = of_key k l2) -> sort key l1 = sort key l2.
Proof.
  intros H. apply ordered_unique; try apply sort_ordered.
  intros k. now rewrite !sort_of_key.
Qed.

Lemma sort_of_ordered l : ordered l -> sort key l = l.
Proof.
  induction l as [|x l IH]; [reflexivity|]. intros [Hx Hl].
  cbn [sort]. rewrite (IH Hl). destruct l as [|y l]; [reflexivity|].
  cbn [insert]. now rewrite (Hx y (or_introl eq_refl)).
Qed.

Lemma sort_idempotent l : sort key (sort key l) = sort key l.
Proof. apply sort_of_ordered, sort_ordered. Qed.

(** With pairwise distinct keys, every rearrangement has the same
    elements key by key. *)
Lemma of_key_permutation l1 l2 :
  Permutation l1 l2 -> List.NoDup (List.map key l1) ->
  forall k, of_key k l1 = of_key k l2.
Proof.
  induction 1 as [|x l l' HP IH|x y l|l l' l'' HP1 IH1 HP2 IH2];
    intros Hnd k.
  - reflexivity.
  - unfold of_key in *. cbn [List.filter]. cbn [List.map] in Hnd.
    apply List.NoDup_cons_iff in Hnd as [_ Hnd]. now rewrite (IH Hnd k).
  - unfold of_key. cbn [List.filter].
    destruct (bool_decide (key x = k)) eqn:Ex;
      destruct (bool_decide (key y = k)) eqn:Ey; try reflexivity.
    apply bool_decide_eq_true_1 in Ex, Ey. exfalso.
    cbn [List.map] in Hnd. apply List.NoDup_cons_iff in Hnd as [Hnd _].
    apply Hnd. left. congruence.
  - rewrite (IH1 Hnd k). apply IH2.
    apply (Permutation_NoDup (l := List.map key l)); [|exact Hnd].
    now apply Permutation_map.
Qed.

End Sorting.

(** Sorting commutes with a map that keeps the keys. *)
Lemma insert_map {A B} (key : A -> string * string * string)
    (key' : B -> string * string * string) (f : A -> B) x l :
  key' (f x) = key x -> (forall y, In y l -> key' (f y) = key y) ->
  insert key' (f x) (List.map f l) = List.map f (insert key x l).
Proof.
  intros Hx. induction l as [|z l IH]; intros Hl; [reflexivity|].
  cbn [List.map insert]. rewrite Hx, (Hl z (or_introl eq_refl)).
  destruct (key_ltb (key z) (key x)); [|reflexivity].
  cbn [List.map]. f_equal. apply IH. intros y Hy. apply Hl. now right.
Qed.

Lemma sort_map {A B} (key : A -> string * string * string)
    (key' : B -> string * string * string) (f : A -> B) l :
  (forall y, In y l -> key' (f y) = key y) ->
  sort key' (List.map f l) = List.map f (sort key l).
Proof.
  induction l as [|x l IH]; intros Hl; [reflexivity|].
  cbn [List.map sort]. rewrite IH by (intros y Hy; apply Hl; now right).
  apply insert_map; [apply Hl; now left|].
  intros y Hy. apply Hl. right. exact (proj1 (sort_In key y l) Hy).
Qed.

End SortFacts.

(** ** Canonicalization: the optimizer *)

Module OptimizerFacts.
Import Optimizer KeyOrder SortFacts Spec.

Lemma filter_paired {A B} (f : A -> B) (p : A -> bool) l :
  List.filter (fun np => p (fst np)) (List.map (fun n => (n, f n)) l)
  = List.map (fun n => (n, f n)) (List.filter p l).
Proof.
  induction l as [|x l IH]; [reflexivity|]. cbn [List.map List.filter fst].
  destruct (p x); cbn [List.map]; now rewrite IH.
Qed.

Lemma map_snd_paired {A B} (f : A -> B) l :
  List.map snd (List.map (fun n => (n, f n)) l) = List.map f l.
Proof. rewrite List.map_map. reflexivity. Qed.

Lemma filter_filter {A} (p q : A -> bool) l :
  List.filter p (List.filter q l) = List.filter (fun x => q x && p x) l.
Proof.
  induction l as [|x l IH]; [reflexivity|]. cbn [List.filter].
  destruct (q x); cbn [List.filter andb]; [destruct (p x)|]; now rewrite IH.
Qed.

Lemma regroup_not_none l :
  regroup (not_none l) =
  List.filter is_concept l ++ List.filter is_relation l
  ++ List.filter (fun n => negb (is_null n) && negb (is_relation n || is_concept n)) l.
Proof.
  unfold regroup, not_none. rewrite !filter_filter. f_equal; [|f_equal];
    apply List.filter_ext; intros x; now destruct x.
Qed.

(** The dict of attributes of a generic node: a key that was filled in
    stays, so a second pass changes nothing, whatever the identities. *)
Lemma attribute_app key a b :
  attribute key (a ++ b)
  = match attribute key a with
    | Some v => Some v
    | None => attribute key b
    end.
Proof.
  unfold attribute. induction a as [|kv a IH]; [reflexivity|].
  cbn [app List.find]. now destruct (String.eqb (fst kv) key).
Qed.

Lemma attribute_setdefault key key' value a v :
  attribute key a = Some v -> attribute key (setdefault key' value a) = Some v.
Proof.
  intros H. unfold setdefault. destruct (attribute key' a); [exact H|].
  now rewrite attribute_app, H.
Qed.

Lemma setdefault_twice key value value' a :
  setdefault key value' (setdefault key value a) = setdefault key value a.
Proof.
  unfold setdefault at 2. destruct (attribute key a) as [v|] eqn:E.
  - unfold setdefault. now rewrite E.
  - unfold setdefault. rewrite attribute_app, E. unfold attribute.
    cbn [List.find fst]. now rewrite String.eqb_refl.
Qed.

Lemma optimize_attributes_twice identity identity' a :
  _optimize_attributes identity' (_optimize_attributes identity a)
  = _optimize_attributes identity a.
Proof.
  unfold _optimize_attributes at 2.
  destruct (attribute "type" a) as [type|] eqn:E.
  - destruct (String.eqb type "Message") eqn:E1;
      [|destruct (String.eqb type "Concept") eqn:E2;
        [|destruct (String.eqb type "Relation") eqn:E3]];
      unfold _optimize_attributes;
      rewrite ?(attribute_setdefault _ _ _ _ _ E), ?E, ?E1, ?E2, ?E3;
      try reflexivity; apply setdefault_twice.
  - unfold _optimize_attributes. now rewrite E.
Qed.

Section WithIdentity.
Variable object_id : IR -> Z.

Abbreviation opt := (_optimize_node object_id).

(** The optimizer in the source's form: filter, reorder, then optimize
    each element of the list obtained. *)
Lemma _optimize_node_eq node :
  opt node =
  match node with
  | Null => Null
  | Message version content =>
      Message (Some (match version with Some v => v | None => "1.0" end))
        (option_map (fun l => List.map opt (sort sort_key (not_none l))) content)
  | Concept id qualifier children =>
      Concept (Some (match id with
                     | Some i => i
                     | None => "concept_" +:+ Py.str (object_id node)
                     end))
        qualifier
        (option_map (fun l => List.map opt (regroup (not_none l))) children)
  | Relation name children =>
      Relation (Some (match name with
                      | Some n => n
                      | None => "relation_" +:+ Py.str (object_id node)
                      end))
        (option_map (fun l => List.map opt (not_none l)) children)
  | Quantifier name children =>
      Quantifier name (option_map (List.map opt) children)
  | Reference source path => Reference source path
  | Generic type value attributes children =>
      Generic type value (_optimize_attributes (object_id node) attributes)
        (List.map opt children)
  end.
Proof.
  destruct node as [|v c|i q c|n c|n c|s p|t v a c]; try reflexivity;
    cbn [_optimize_node]; f_equal; destruct c as [l|]; try reflexivity;
    cbn [option_map]; f_equal.
  - rewrite (filter_paired opt (fun n => negb (is_null n))).
    rewrite (sort_map sort_key (fun np => sort_key (fst np))
               (fun n => (n, opt n))) by reflexivity.
    apply map_snd_paired.
  - rewrite regroup_not_none, !List.map_app.
    rewrite (filter_paired opt is_concept), (filter_paired opt is_relation).
    rewrite (filter_paired opt
               (fun n => negb (is_null n) && negb (is_relation n || is_concept n))).
    now rewrite !map_snd_paired.
  - unfold not_none.
    rewrite (filter_paired opt (fun n => negb (is_null n))).
    apply map_snd_paired.
Qed.

Lemma opt_not_null x : is_null x = false -> is_null (opt x) = false.
Proof. now destruct x. Qed.

Lemma opt_is_concept x : is_concept (opt x) = is_concept x.
Proof. now destruct x. Qed.

Lemma opt_is_relation x : is_relation (opt x) = is_relation x.
Proof. now destruct x. Qed.

Lemma opt_is_null x : is_null (opt x) = is_null x.
Proof. now destruct x. Qed.

Lemma opt_sort_key x : has_key x = true -> sort_key (opt x) = sort_key x.
Proof. now destruct x as [|v c|[i|] q c|[n|] c|n c|s p|t v a c]. Qed.

Lemma filter_map_opt (p : IR -> bool) l :
  (forall x, p (opt x) = p x) ->
  List.filter p (List.map opt l) = List.map opt (List.filter p l).
Proof.
  intros Hp. induction l as [|x l IH]; [reflexivity|].
  cbn [List.map List.filter]. rewrite Hp.
  destruct (p x); cbn [List.map]; now rewrite IH.
Qed.

Lemma not_none_map_opt l : not_none (List.map opt l) = List.map opt (not_none l).
Proof. apply filter_map_opt. intros x. now rewrite opt_is_null. Qed.

Lemma not_none_idempotent l : not_none (not_none l) = not_none l.
Proof.
  unfold not_none. rewrite filter_filter. apply List.filter_ext.
  intros x. now destruct (is_null x).
Qed.

Lemma regroup_map_opt l : regroup (List.map opt l) = List.map opt (regroup l).
Proof.
  unfold regroup. rewrite !List.map_app, !filter_map_opt; try reflexivity;
    intros x; now rewrite ?opt_is_concept, ?opt_is_relation.
Qed.

Lemma filter_none {A} (p : A -> bool) l :
  (forall x, In x l -> p x = false) -> List.filter p l = [].
Proof.
  induction l as [|x l IH]; [reflexivity|]. intros H. cbn [List.filter].
  rewrite (H x (or_introl eq_refl)). apply IH. intros y Hy. apply H. now right.
Qed.

Lemma filter_all {A} (p : A -> bool) l :
  (forall x, In x l -> p x = true) -> List.filter p l = l.
Proof.
  induction l as [|x l IH]; [reflexivity|]. intros H. cbn [List.filter].
  rewrite (H x (or_introl eq_refl)). f_equal. apply IH. intros y Hy. apply H. now right.
Qed.

Lemma regroup_idempotent l : regroup (regroup l) = regroup l.
Proof.
  unfold regroup at 1.
  set (others := fun n => negb (is_relation n || is_concept n)).
  assert (Hc : List.filter is_concept (regroup l) = List.filter is_concept l).
  { unfold regroup. rewrite !List.filter_app.
    rewrite (filter_all is_concept (List.filter is_concept l))
      by (intros x Hx; now apply List.filter_In in Hx).
    rewrite (filter_none is_concept (List.filter is_relation l)).
    2:{ intros x Hx. apply List.filter_In in Hx as [_ Hx]. now destruct x. }
    rewrite (filter_none is_concept (List.filter _ l)).
    2:{ intros x Hx. apply List.filter_In in Hx as [_ Hx]. now destruct x. }
    now rewrite !app_nil_r. }
  assert (Hr : List.filter is_relation (regroup l) = List.filter is_relation l).
  { unfold regroup. rewrite !List.filter_app.
    rewrite (filter_none is_relation (List.filter is_concept l)).
    2:{ intros x Hx. apply List.filter_In in Hx as [_ Hx]. now destruct x. }
    rewrite (filter_all is_relation (List.filter is_relation l))
      by (intros x Hx; now apply List.filter_In in Hx).
    rewrite (filter_none is_relation (List.filter _ l)).
    2:{ intros x Hx. apply List.filter_In in Hx as [_ Hx]. now destruct x. }
    now rewrite app_nil_r. }
  assert (Ho : List.filter others (regroup l) = List.filter others l).
  { unfold regroup. rewrite !List.filter_app.
    rewrite (filter_none others (List.filter is_concept l)).
    2:{ intros x Hx. apply List.filter_In in Hx as [_ Hx]. now destruct x. }
    rewrite (filter_none others (List.filter is_relation l)).
    2:{ intros x Hx. apply List.filter_In in Hx as [_ Hx]. now destruct x. }
    rewrite (filter_all others (List.filter _ l))
      by (intros x Hx; now apply List.filter_In in Hx).
    reflexivity. }
  now rewrite Hc, Hr, Ho.
Qed.

Lemma forallb_In {A} (p : A -> bool) l x :
  List.forallb p l = true -> In x l -> p x = true.
Proof. intros H. now apply List.forallb_forall. Qed.

Lemma map_opt_fixed l :
  List.Forall (fun y => keyed y = true -> opt (opt y) = opt y) l ->
  (forall y, In y l -> keyed y = true) ->
  List.map opt (List.map opt l) = List.map opt l.
Proof.
  intros HF Hk. rewrite List.map_map. apply List.map_ext_in.
  intros y Hy. rewrite List.Forall_forall in HF. now apply HF; [|apply Hk].
Qed.

(** Optimizing twice is optimizing once, on IR whose content items have
    their keys. *)
Lemma opt_idempotent x : keyed x = true -> opt (opt x) = opt x.
Proof.
  induction x as [|v c IH|i q c IH|n c IH|n c IH|s p|t v a c IH]
    using IR_tree_ind; intros Hk; try reflexivity.
  - (* Message *)
    rewrite (_optimize_node_eq (Message v c)).
    rewrite _optimize_node_eq. f_equal.
    destruct c as [l|]; [|reflexivity]. cbn [option_map all_in keyed] in *.
    f_equal. rewrite not_none_map_opt.
    assert (Hin : forall y, In y (sort sort_key (not_none l)) -> In y l).
    { intros y Hy. apply (proj1 (sort_In sort_key y _)) in Hy.
      now apply List.filter_In in Hy. }
    assert (Hnn : not_none (sort sort_key (not_none l)) = sort sort_key (not_none l)).
    { apply filter_all. intros y Hy. apply (proj1 (sort_In sort_key y _)) in Hy.
      now apply List.filter_In in Hy. }
    rewrite Hnn.
    rewrite (sort_map sort_key sort_key opt).
    2:{ intros y Hy. apply opt_sort_key. apply Hin in Hy.
        pose proof (forallb_In _ _ _ Hk Hy) as H. now apply andb_true_iff in H. }
    rewrite sort_idempotent. apply map_opt_fixed.
    + rewrite List.Forall_forall in *. intros y Hy. apply IH. now apply Hin.
    + intros y Hy. apply Hin in Hy.
      pose proof (forallb_In _ _ _ Hk Hy) as H. now apply andb_true_iff in H.
  - (* Concept *)
    rewrite (_optimize_node_eq (Concept i q c)).
    rewrite _optimize_node_eq. f_equal.
    destruct c as [l|]; [|reflexivity]. cbn [option_map all_in keyed] in *.
    f_equal. rewrite not_none_map_opt, regroup_map_opt.
    assert (Hin : forall y, In y (regroup (not_none l)) -> In y l).
    { intros y Hy. unfold regroup in Hy. rewrite !in_app_iff in Hy.
      destruct Hy as [Hy|[Hy|Hy]]; apply List.filter_In in Hy as [Hy _];
        now apply List.filter_In in Hy. }
    assert (Hnn : not_none (regroup (not_none l)) = regroup (not_none l)).
    { apply filter_all. intros y Hy. unfold regroup in Hy.
      rewrite !in_app_iff in Hy.
      destruct Hy as [Hy|[Hy|Hy]]; apply List.filter_In in Hy as [Hy _];
        now apply List.filter_In in Hy. }
    rewrite Hnn, regroup_idempotent. apply map_opt_fixed.
    + rewrite List.Forall_forall in *. intros y Hy. apply IH. now apply Hin.
    + intros y Hy. apply Hin in Hy. exact (forallb_In _ _ _ Hk Hy).
  - (* Relation *)
    rewrite (_optimize_node_eq (Relation n c)).
    rewrite _optimize_node_eq. f_equal.
    destruct c as [l|]; [|reflexivity]. cbn [option_map all_in keyed] in *.
    f_equal. rewrite not_none_map_opt, not_none_idempotent.
    apply map_opt_fixed.
    + rewrite List.Forall_forall in *. intros y Hy. apply IH.
      now apply List.filter_In in Hy.
    + intros y Hy. apply List.filter_In in Hy as [Hy _].
      exact (forallb_In _ _ _ Hk Hy).
  - (* Quantifier *)
    rewrite (_optimize_node_eq (Quantifier n c)).
    rewrite _optimize_node_eq. f_equal.
    destruct c as [l|]; [|reflexivity]. cbn [option_map all_in keyed] in *.
    f_equal. apply map_opt_fixed; [exact IH|].
    intros y Hy. exact (forallb_In _ _ _ Hk Hy).
  - (* Generic *)
    rewrite (_optimize_node_eq (Generic t v a c)).
    rewrite _optimize_node_eq. cbn [keyed] in Hk.
    f_equal; [apply optimize_attributes_twice|].
    apply map_opt_fixed; [exact IH|].
    intros y Hy. exact (forallb_In _ _ _ Hk Hy).
Qed.

End WithIdentity.

(** C9, as the code has it: canonicalizing the result of canonicalizing
    [x] gives the result of canonicalizing [x] once, for every IR value
    [x] in which each Concept standing in the content of a message has its
    [id] and each Relation standing there has its [name]. *)
Theorem optimize_idempotent (object_id : IR -> Z) (x : IR) :
  keyed x = true ->
  optimize object_id (optimize object_id x) = optimize object_id x.
Proof. apply opt_idempotent. Qed.

Lemma optimize_idempotent_witness :
  optimize no_identity
    (optimize no_identity
       (Message None (Some [prev2; Concept (Some "b") None (Some [prev1]);
                            Concept (Some "a") (Some "q") None])))
  = optimize no_identity
      (Message None (Some [prev2; Concept (Some "b") None (Some [prev1]);
                           Concept (Some "a") (Some "q") None])).
Proof. apply optimize_idempotent. reflexivity. Defined.

(** C9 as stated fails: the content is sorted before its items are
    optimized, so a Concept without [id] is placed by the empty key and
    then given the placeholder [concept_<id(node)>]; the second pass sorts
    it by the placeholder, which is larger than ["a"]. This holds whatever
    [id(node)] returns. *)
Lemma optimize_not_idempotent :
  ~ (exists object_id,
        optimize object_id (optimize object_id unkeyed_message)
        = optimize object_id unkeyed_message).
Proof. intros [object_id H]. vm_compute in H. discriminate H. Qed.

(** What is printed for the canonical form of an IR whose Concepts and
    Relations all have their keys does not depend on the identities of
    the nodes. *)
Lemma generate_identified (object_id object_id' : IR -> Z) x :
  identified x = true ->
  forall level,
    CodeGenerator._generate_node level (_optimize_node object_id x)
    = CodeGenerator._generate_node level (_optimize_node object_id' x).
Proof.
  assert (Hmap : forall (f g : IR -> string) (p : list IR -> list IR) l,
             (forall y, In y (p l) -> In y l) ->
             (forall y, In y l -> f y = g y) ->
             List.map f (p l) = List.map g (p l)).
  { intros f g p l Hp Hfg. apply List.map_ext_in. intros y Hy. now apply Hfg, Hp. }
  assert (Hnn : forall l y, In y (not_none l) -> In y l).
  { intros l y Hy. now apply List.filter_In in Hy. }
  induction x as [|v c IH|i q c IH|n c IH|n c IH|s p|t v a c IH]
    using IR_tree_ind; intros Hid level; try reflexivity.
  - (* Message *)
    rewrite !_optimize_node_eq. destruct c as [l|]; [|reflexivity].
    cbn [option_map CodeGenerator._generate_node all_in identified] in *.
    rewrite !List.map_map. do 6 f_equal.
    apply (Hmap _ _ (fun l => sort sort_key (not_none l))).
    + intros y Hy. now apply Hnn, (proj1 (sort_In sort_key y _)).
    + intros y Hy. f_equal. rewrite List.Forall_forall in IH.
      apply IH; [exact Hy|]. exact (forallb_In _ _ _ Hid Hy).
  - (* Concept *)
    destruct i as [i|]; [|discriminate Hid].
    rewrite !_optimize_node_eq. destruct c as [l|]; [|reflexivity].
    cbn [option_map CodeGenerator._generate_node all_in identified] in *.
    rewrite !List.map_map. do 2 f_equal.
    apply (Hmap _ _ (fun l => regroup (not_none l))).
    + intros y Hy. unfold regroup in Hy. rewrite !in_app_iff in Hy.
      destruct Hy as [Hy|[Hy|Hy]]; apply List.filter_In in Hy as [Hy _];
        now apply Hnn.
    + intros y Hy. rewrite List.Forall_forall in IH.
      apply IH; [exact Hy|]. exact (forallb_In _ _ _ Hid Hy).
  - (* Relation *)
    destruct n as [n|]; [|discriminate Hid].
    rewrite !_optimize_node_eq. destruct c as [l|]; [|reflexivity].
    cbn [option_map CodeGenerator._generate_node all_in identified] in *.
    rewrite !List.map_map. do 2 f_equal.
    apply (Hmap _ _ not_none); [apply Hnn|].
    intros y Hy. rewrite List.Forall_forall in IH.
    apply IH; [exact Hy|]. exact (forallb_In _ _ _ Hid Hy).
  - (* Quantifier *)
    rewrite !_optimize_node_eq. destruct c as [l|]; [|reflexivity].
    cbn [option_map CodeGenerator._generate_node all_in identified] in *.
    rewrite !List.map_map. do 2 f_equal.
    apply List.map_ext_in. intros y Hy. rewrite List.Forall_forall in IH.
    apply IH; [exact Hy|]. exact (forallb_In _ _ _ Hid Hy).
Qed.




End OptimizerFacts.

(** ** The parser: fuel *)

Module ParserFuel.
Import TokenType Parser.

Lemma check_open t ts :
  _check OPEN_BRACE (t :: ts) = Ok (TokenType.eqb (Token.type t) OPEN_BRACE).
Proof. unfold _check, _is_at_end, bind. now destruct (Token.type t). Qed.

Lemma check_close t ts :
  _check CLOSE_BRACE (t :: ts) = Ok (TokenType.eqb (Token.type t) CLOSE_BRACE).
Proof. unfold _check, _is_at_end, bind. now destruct (Token.type t). Qed.

Lemma check_version t ts :
  _check VERSION (t :: ts) = Ok (TokenType.eqb (Token.type t) VERSION).
Proof. unfold _check, _is_at_end, bind. now destruct (Token.type t). Qed.

Lemma check_nil ty : _check ty [] = Raise IndexError.
Proof. reflexivity. Qed.

(** [_consume] gives back a list that is not longer. *)
Lemma consume_length ty msg ts rest :
  _consume ty msg ts = Ok rest -> List.length rest <= List.length ts.
Proof.
  unfold _consume. destruct ts as [|t ts]; [discriminate|].
  unfold _check, _is_at_end, bind, _error.
  destruct (TokenType.eqb (Token.type t) EOF); [discriminate|].
  destruct (TokenType.eqb (Token.type t) ty); [|discriminate].
  intros [= <-]. simpl. lia.
Qed.

Lemma consume_not_out_of_fuel ty msg ts : _consume ty msg ts <> OutOfFuel.
Proof.
  unfold _consume. destruct ts as [|t ts]; [discriminate|].
  unfold _check, _is_at_end, bind, _error.
  destruct (TokenType.eqb (Token.type t) EOF); [discriminate|].
  destruct (TokenType.eqb (Token.type t) ty); discriminate.
Qed.

(** One turn of each function, the position taken apart. *)
Lemma parse_block_S fuel sc value ts :
  parse_block (S fuel) sc value ts =
  match ts with
  | [] => Raise IndexError
  | t :: ts' =>
      if TokenType.eqb (Token.type t) OPEN_BRACE then
        try (children, rest) <- parse_items fuel sc ts' in
        try rest' <- _consume CLOSE_BRACE (unclosed sc) rest in
        Ok (Node (kind_of sc) (Some value) children [], rest')
      else Ok (Node (kind_of sc) (Some value) [] [], ts)
  end.
Proof.
  cbn [parse_block]. destruct ts as [|t ts']; [reflexivity|].
  rewrite check_open. reflexivity.
Qed.

Lemma parse_items_S fuel sc ts :
  parse_items (S fuel) sc ts =
  match ts with
  | [] => Raise IndexError
  | t :: ts' =>
      if TokenType.eqb (Token.type t) CLOSE_BRACE
         || TokenType.eqb (Token.type t) EOF then Ok ([], ts)
      else
        match accepts sc (Token.type t) with
        | Some (Block inner) =>
            try (node, rest) <- parse_block fuel inner (Token.value t) ts' in
            try (children, rest') <- parse_items fuel sc rest in
            Ok (node :: children, rest')
        | Some (Leaf kind) =>
            try (children, rest') <- parse_items fuel sc ts' in
            Ok (Node kind (Some (Token.value t)) [] [] :: children, rest')
        | None => Raise (ParseError (error_at t (unexpected sc +:+ Token.value t)))
        end
  end.
Proof.
  cbn [parse_items]. destruct ts as [|t ts']; [reflexivity|].
  rewrite check_close. reflexivity.
Qed.

(** More fuel does not change a result. *)
Lemma parse_fuel_monotone fuel :
  (forall sc value ts fuel',
      fuel <= fuel' -> parse_block fuel sc value ts <> OutOfFuel ->
      parse_block fuel' sc value ts = parse_block fuel sc value ts) /\
  (forall sc ts fuel',
      fuel <= fuel' -> parse_items fuel sc ts <> OutOfFuel ->
      parse_items fuel' sc ts = parse_items fuel sc ts).
Proof.
  induction fuel as [|fuel [IHb IHi]]; [split; intros; now cbn in *|].
  split.
  - intros sc value ts [|fuel'] Hle; [lia|]. apply le_S_n in Hle.
    rewrite !parse_block_S. destruct ts as [|t ts']; [reflexivity|].
    destruct (TokenType.eqb (Token.type t) OPEN_BRACE); [|reflexivity].
    intros Hne.
    destruct (parse_items fuel sc ts') as [[children rest]| |] eqn:E;
      [| |now cbn in Hne];
      rewrite (IHi sc ts' fuel' Hle) by (rewrite E; discriminate);
      now rewrite E.
  - intros sc ts [|fuel'] Hle; [lia|]. apply le_S_n in Hle.
    rewrite !parse_items_S. destruct ts as [|t ts']; [reflexivity|].
    destruct (_ || _); [reflexivity|].
    destruct (accepts sc (Token.type t)) as [[inner|kind]|]; [| |reflexivity].
    + intros Hne.
      destruct (parse_block fuel inner (Token.value t) ts')
        as [[node rest]| |] eqn:E; [| |now cbn in Hne];
        rewrite (IHb inner (Token.value t) ts' fuel' Hle) by (rewrite E; discriminate);
        rewrite E; [|reflexivity].
      cbn [bind] in *.
      destruct (parse_items fuel sc rest) as [[children rest']| |] eqn:E2;
        [| |now cbn in Hne];
        rewrite (IHi sc rest fuel' Hle) by (rewrite E2; discriminate);
        now rewrite E2.
    + intros Hne.
      destruct (parse_items fuel sc ts') as [[children rest']| |] eqn:E;
        [| |now cbn in Hne];
        rewrite (IHi sc ts' fuel' Hle) by (rewrite E; discriminate);
        now rewrite E.
Qed.

(** A fuel above twice the number of tokens is never used up, and the
    position only moves forward. *)
Lemma parse_fuel_enough fuel :
  (forall sc value ts,
      2 * List.length ts + 1 <= fuel ->
      parse_block fuel sc value ts <> OutOfFuel /\
      forall node rest, parse_block fuel sc value ts = Ok (node, rest) ->
                        List.length rest <= List.length ts) /\
  (forall sc ts,
      2 * List.length ts + 1 <= fuel ->
      parse_items fuel sc ts <> OutOfFuel /\
      forall children rest, parse_items fuel sc ts = Ok (children, rest) ->
                            List.length rest <= List.length ts).
Proof.
  induction fuel as [|fuel [IHb IHi]]; [split; intros; lia|].
  split.
  - intros sc value ts Hf. rewrite parse_block_S.
    destruct ts as [|t ts']; [split; [discriminate|intros; discriminate]|].
    cbn [List.length] in Hf.
    destruct (TokenType.eqb (Token.type t) OPEN_BRACE).
    2:{ split; [discriminate|]. now intros node rest [= _ <-]. }
    destruct (IHi sc ts' ltac:(lia)) as [Hne Hlen].
    destruct (parse_items fuel sc ts') as [[children rest]| |] eqn:E;
      [|split; [discriminate|intros; discriminate]|now elim Hne].
    cbn [bind]. specialize (Hlen _ _ eq_refl).
    destruct (_consume CLOSE_BRACE (unclosed sc) rest) as [rest'| |] eqn:Ec.
    + split; [discriminate|]. intros node rest0 [= _ <-].
      apply consume_length in Ec. cbn [List.length]. lia.
    + split; [discriminate|intros; discriminate].
    + now apply consume_not_out_of_fuel in Ec.
  - intros sc ts Hf. rewrite parse_items_S.
    destruct ts as [|t ts']; [split; [discriminate|intros; discriminate]|].
    cbn [List.length] in Hf.
    destruct (_ || _); [split; [discriminate|]; now intros c r [= _ <-]|].
    destruct (accepts sc (Token.type t)) as [[inner|kind]|];
      [| |split; [discriminate|intros; discriminate]].
    + destruct (IHb inner (Token.value t) ts' ltac:(lia)) as [Hne Hlen].
      destruct (parse_block fuel inner (Token.value t) ts')
        as [[node rest]| |] eqn:E;
        [|split; [discriminate|intros; discriminate]|now elim Hne].
      cbn [bind]. specialize (Hlen _ _ eq_refl).
      destruct (IHi sc rest ltac:(lia)) as [Hne2 Hlen2].
      destruct (parse_items fuel sc rest) as [[children rest']| |] eqn:E2;
        [|split; [discriminate|intros; discriminate]|now elim Hne2].
      cbn [bind]. split; [discriminate|]. intros c r [= _ <-].
      specialize (Hlen2 _ _ eq_refl). cbn [List.length]. lia.
    + destruct (IHi sc ts' ltac:(lia)) as [Hne Hlen].
      destruct (parse_items fuel sc ts') as [[children rest']| |] eqn:E;
        [|split; [discriminate|intros; discriminate]|now elim Hne].
      cbn [bind]. split; [discriminate|]. intros c r [= _ <-].
      specialize (Hlen _ _ eq_refl). cbn [List.length]. lia.
Qed.

End ParserFuel.

(** ** The parser: equations without fuel *)

Module ParserFacts.
Import TokenType Parser ParserFuel Grammar.

Lemma parse_block_enough fuel sc value ts :
  2 * List.length ts + 1 <= fuel -> parse_block fuel sc value ts = block sc value ts.
Proof.
  intros Hf. unfold block.
  apply (proj1 (parse_fuel_monotone _)); [exact Hf|].
  apply (proj1 (parse_fuel_enough _)). lia.
Qed.

Lemma parse_items_enough fuel sc ts :
  2 * List.length ts + 1 <= fuel -> parse_items fuel sc ts = items sc ts.
Proof.
  intros Hf. unfold items.
  apply (proj2 (parse_fuel_monotone _)); [exact Hf|].
  apply (proj2 (parse_fuel_enough _)). lia.
Qed.

Lemma block_not_out_of_fuel sc value ts : block sc value ts <> OutOfFuel.
Proof. apply (proj1 (parse_fuel_enough _)). lia. Qed.

Lemma items_not_out_of_fuel sc ts : items sc ts <> OutOfFuel.
Proof. apply (proj2 (parse_fuel_enough _)). lia. Qed.

Lemma block_length sc value ts node rest :
  block sc value ts = Ok (node, rest) -> List.length rest <= List.length ts.
Proof. apply (proj1 (parse_fuel_enough _)). lia. Qed.

Lemma items_length sc ts children rest :
  items sc ts = Ok (children, rest) -> List.length rest <= List.length ts.
Proof. apply (proj2 (parse_fuel_enough _)). lia. Qed.

(** [_parse_concept], [_parse_relation], [_parse_quantifier]. *)
Lemma block_eq sc value ts :
  block sc value ts =
  match ts with
  | [] => Raise IndexError
  | t :: ts' =>
      if TokenType.eqb (Token.type t) OPEN_BRACE then
        try (children, rest) <- items sc ts' in
        try rest' <- _consume CLOSE_BRACE (unclosed sc) rest in
        Ok (Node (kind_of sc) (Some value) children [], rest')
      else Ok (Node (kind_of sc) (Some value) [] [], ts)
  end.
Proof.
  unfold block. replace (2 * List.length ts + 1) with (S (2 * List.length ts)) by lia.
  rewrite parse_block_S. destruct ts as [|t ts']; [reflexivity|].
  rewrite parse_items_enough by (cbn [List.length]; lia). reflexivity.
Qed.

(** The loop of a scope. *)
Lemma items_eq sc ts :
  items sc ts =
  match ts with
  | [] => Raise IndexError
  | t :: ts' =>
      if TokenType.eqb (Token.type t) CLOSE_BRACE
         || TokenType.eqb (Token.type t) EOF then Ok ([], ts)
      else
        match accepts sc (Token.type t) with
        | Some (Block inner) =>
            try (node, rest) <- block inner (Token.value t) ts' in
            try (children, rest') <- items sc rest in
            Ok (node :: children, rest')
        | Some (Leaf kind) =>
            try (children, rest') <- items sc ts' in
            Ok (Node kind (Some (Token.value t)) [] [] :: children, rest')
        | None => Raise (ParseError (error_at t (unexpected sc +:+ Token.value t)))
        end
  end.
Proof.
  unfold items at 1.
  replace (2 * List.length ts + 1) with (S (2 * List.length ts)) by lia.
  rewrite parse_items_S. destruct ts as [|t ts']; [reflexivity|].
  destruct (_ || _); [reflexivity|].
  destruct (accepts sc (Token.type t)) as [[inner|kind]|]; [| |reflexivity].
  - rewrite parse_block_enough by (cbn [List.length]; lia).
    destruct (block inner (Token.value t) ts') as [[node rest]| |] eqn:E;
      [|reflexivity|reflexivity].
    cbn [bind]. apply block_length in E.
    rewrite parse_items_enough by (cbn [List.length]; lia). reflexivity.
  - rewrite parse_items_enough by (cbn [List.length]; lia). reflexivity.
Qed.

(** [_parse_message] with the fuel [parse] gives it. *)
Lemma parse_message_eq fuel ts :
  2 * List.length ts + 1 <= fuel ->
  _parse_message fuel ts =
  match ts with
  | [] => Raise IndexError
  | t :: ts' =>
      if TokenType.eqb (Token.type t) VERSION then
        try ts1 <- _consume OPEN_BRACE "Expected '{' after version marker" ts' in
        try (children, rest) <- items InMessage ts1 in
        try _rest <- _consume CLOSE_BRACE (unclosed InMessage) rest in
        Ok (Node ASTNodeType.MESSAGE None
              (Node ASTNodeType.VERSION (Some (Token.value t)) [] [] :: children) [])
      else Raise (ParseError (error_at t "Expected version marker (@v1.0)"))
  end.
Proof.
  intros Hf. unfold _parse_message. destruct ts as [|t ts']; [reflexivity|].
  rewrite check_version. cbn [bind List.hd List.tl].
  destruct (TokenType.eqb (Token.type t) VERSION); [|reflexivity].
  destruct (_consume OPEN_BRACE _ ts') as [ts1| |] eqn:E; [|reflexivity|reflexivity].
  cbn [bind]. apply consume_length in E.
  rewrite parse_items_enough by (cbn [List.length] in Hf; lia). reflexivity.
Qed.

(** [parse] never runs out of fuel. *)
Lemma parse_total tokens : exists result, parse tokens = Some result.
Proof.
  unfold parse. rewrite parse_message_eq by lia.
  destruct (significant tokens) as [|t ts]; [eauto|].
  destruct (TokenType.eqb (Token.type t) VERSION); [|eauto].
  destruct (_consume OPEN_BRACE _ ts) as [ts1|[e|]|] eqn:E; cbn [bind]; eauto.
  2:{ now apply consume_not_out_of_fuel in E. }
  destruct (items InMessage ts1) as [[children rest]|[e|]|] eqn:E1; cbn [bind]; eauto.
  2:{ now apply items_not_out_of_fuel in E1. }
  destruct (_consume CLOSE_BRACE _ rest) as [rest'|[e|]|] eqn:E2; cbn [bind]; eauto.
  now apply consume_not_out_of_fuel in E2.
Qed.

(** *** Completeness: a token list that spells conforming trees parses
    to these trees *)

Lemma conforms_inv sc k v children a :
  conforms sc (Node k v children a) = true ->
  exists value ty,
    v = Some value /\ a = [] /\ tag_type k = Some ty /\
    ((exists inner, accepts sc ty = Some (Block inner) /\ k = kind_of inner /\
                    List.forallb (conforms inner) children = true) \/
     (accepts sc ty = Some (Leaf k) /\ children = [])).
Proof.
  cbn [conforms]. destruct v as [value|]; [|discriminate].
  destruct a; [|discriminate].
  destruct (tag_type k) as [ty|] eqn:Ety; [|discriminate].
  destruct (accepts sc ty) as [[inner|k']|] eqn:Eacc; [| |discriminate].
  - rewrite andb_true_iff. intros [Hk Hc]. exists value, ty.
    repeat split. left. exists inner. repeat split; auto.
    destruct k, inner; try discriminate; reflexivity.
  - rewrite andb_true_iff. intros [Hk Hc]. exists value, ty.
    repeat split. right. destruct children; [|discriminate].
    split; [|reflexivity]. rewrite Eacc. f_equal. f_equal.
    destruct k, k'; try discriminate; reflexivity.
Qed.

Lemma tag_type_not_brace k ty :
  tag_type k = Some ty ->
  ty <> OPEN_BRACE /\ TokenType.eqb ty CLOSE_BRACE || TokenType.eqb ty EOF = false.
Proof. destruct k; intros [= <-]; split; (discriminate || reflexivity). Qed.

(** What follows the pieces of conforming trees is not an opening brace,
    when what follows these trees themselves is not. *)
Lemma spelled_not_opening sc children toks ts :
  List.forallb (conforms sc) children = true ->
  Forall2 spells toks (List.flat_map flatten children) ->
  not_opening ts -> not_opening (toks ++ ts).
Proof.
  intros Hc Hs Hts. destruct children as [|[k v cs a] children].
  - apply Forall2_nil_inv_r in Hs as ->. exact Hts.
  - cbn [List.forallb] in Hc. apply andb_true_iff in Hc as [Hc _].
    apply conforms_inv in Hc as (value & ty & -> & -> & Hty & _).
    cbn [List.flat_map flatten] in Hs. rewrite Hty in Hs.
    rewrite <- app_comm_cons in Hs.
    apply Forall2_cons_inv_r in Hs as (t & toks' & [Ht _] & _ & ->).
    cbn [fst] in Ht. cbn [app not_opening]. rewrite Ht.
    now apply tag_type_not_brace in Hty.
Qed.

Lemma items_complete_list children :
  List.Forall item_complete children ->
  forall sc toks ts,
    List.forallb (conforms sc) children = true ->
    Forall2 spells toks (List.flat_map flatten children) ->
    not_opening ts ->
    items sc (toks ++ ts) =
    try (more, rest) <- items sc ts in Ok (children ++ more, rest).
Proof.
  induction 1 as [|node children Hnode _ IH]; intros sc toks ts Hc Hs Hts.
  - apply Forall2_nil_inv_r in Hs as ->. cbn [app].
    now destruct (items sc ts) as [[more rest]| |].
  - cbn [List.forallb] in Hc. apply andb_true_iff in Hc as [Hc1 Hc2].
    cbn [List.flat_map] in Hs.
    apply Forall2_app_inv_r in Hs as (toks1 & toks2 & Hs1 & Hs2 & ->).
    rewrite <- app_assoc.
    rewrite (Hnode sc toks1 (toks2 ++ ts) Hc1 Hs1)
      by (eapply spelled_not_opening; eauto).
    rewrite (IH sc toks2 ts Hc2 Hs2 Hts).
    now destruct (items sc ts) as [[more rest]| |].
Qed.

Lemma item_complete_all node : item_complete node.
Proof.
  induction node as [k v children a IH] using ASTNode_tree_ind.
  intros sc toks ts Hc Hs Hts.
  apply conforms_inv in Hc as (value & ty & -> & -> & Hty & Hcase).
  cbn [flatten] in Hs. rewrite Hty in Hs.
  apply Forall2_cons_inv_r in Hs as (t & toks' & [Ht Hv] & Hs & ->).
  cbn [fst snd] in Ht, Hv.
  destruct (tag_type_not_brace _ _ Hty) as [Hno Hnc].
  rewrite <- app_comm_cons, items_eq, Ht, Hnc, Hv.
  destruct Hcase as [(inner & Hacc & -> & Hcs)|[Hacc ->]]; rewrite Hacc.
  - (* a block *)
    rewrite block_eq.
    destruct children as [|c0 children'].
    + apply Forall2_nil_inv_r in Hs as ->. cbn [app].
      destruct ts as [|t0 ts']; [easy|]. cbn [not_opening] in Hts.
      destruct (TokenType.eqb (Token.type t0) OPEN_BRACE) eqn:E;
        [now destruct (Token.type t0)|].
      reflexivity.
    + set (children := c0 :: children') in *.
      apply Forall2_cons_inv_r in Hs as (o & toks1 & [Ho _] & Hs & ->).
      apply Forall2_app_inv_r in Hs as (mid & cl & Hmid & Hcl & ->).
      apply Forall2_cons_inv_r in Hcl as (c & nil & [Hcl _] & Hnil & ->).
      apply Forall2_nil_inv_r in Hnil as ->.
      cbn [fst] in Ho, Hcl. rewrite <- app_comm_cons. rewrite Ho.
      cbn [TokenType.eqb]. rewrite <- app_assoc. cbn [app].
      rewrite (items_complete_list children IH inner mid (c :: ts) Hcs Hmid)
        by (cbn [not_opening]; rewrite Hcl; discriminate).
      rewrite (items_eq inner (c :: ts)), Hcl. cbn [TokenType.eqb orb bind].
      rewrite app_nil_r. unfold _consume. rewrite check_close, Hcl.
      cbn [TokenType.eqb bind List.tl]. reflexivity.
  - (* a leaf *)
    apply Forall2_nil_inv_r in Hs as ->. reflexivity.
Qed.

(** The loop of a scope on the spelling of conforming trees: these trees,
    then what the loop makes of the rest. *)
Lemma items_complete sc children toks ts :
  List.forallb (conforms sc) children = true ->
  Forall2 spells toks (List.flat_map flatten children) ->
  not_opening ts ->
  items sc (toks ++ ts) =
  try (more, rest) <- items sc ts in Ok (children ++ more, rest).
Proof.
  apply items_complete_list. apply List.Forall_forall.
  intros node _. apply item_complete_all.
Qed.

(** *** What a parse can end in *)

Lemma has_eof_tail t ts :
  has_eof (t :: ts) -> Token.type t <> EOF -> has_eof ts.
Proof. intros (x & [<-|Hin] & Hx) Ht; [easy|]. now exists x. Qed.

Lemma consume_outcome ty msg ts :
  has_eof ts ->
  match _consume ty msg ts with
  | Ok rest => has_eof rest /\ incl rest ts
  | Raise e => raised_at ts e
  | OutOfFuel => False
  end.
Proof.
  intros He. destruct ts as [|t ts]; [now destruct He as (x & [] & _)|].
  unfold _consume, _check, _is_at_end, bind, _error.
  destruct (TokenType.eqb (Token.type t) EOF) eqn:E1.
  - exists t, msg. split; [now left|reflexivity].
  - destruct (TokenType.eqb (Token.type t) ty).
    + cbn [List.tl]. split; [|now apply incl_tl, incl_refl].
      apply (has_eof_tail t); [exact He|]. intros H. now rewrite H in E1.
    + exists t, msg. split; [now left|reflexivity].
Qed.

Lemma raised_at_incl ts ts' e : raised_at ts e -> incl ts ts' -> raised_at ts' e.
Proof. intros (bad & msg & Hin & ->) Hi. exists bad, msg. split; auto. Qed.

(** On a token list with an end-of-file token the parser never reads
    past the end: it returns with the end-of-file token still ahead, or it
    raises the error of [_error] at one of the tokens. *)
Lemma parse_outcome fuel :
  (forall sc value ts,
      has_eof ts ->
      match parse_block fuel sc value ts with
      | Ok (_, rest) => has_eof rest /\ incl rest ts
      | Raise e => raised_at ts e
      | OutOfFuel => True
      end) /\
  (forall sc ts,
      has_eof ts ->
      match parse_items fuel sc ts with
      | Ok (_, rest) => has_eof rest /\ incl rest ts
      | Raise e => raised_at ts e
      | OutOfFuel => True
      end).
Proof.
  induction fuel as [|fuel [IHb IHi]]; [split; intros; exact I|].
  split.
  - intros sc value ts He. rewrite parse_block_S.
    destruct ts as [|t ts']; [now destruct He as (x & [] & _)|].
    destruct (TokenType.eqb (Token.type t) OPEN_BRACE) eqn:Eo;
      [|split; [exact He|apply incl_refl]].
    assert (has_eof ts') as He'.
    { apply (has_eof_tail t); [exact He|]. intros H. now rewrite H in Eo. }
    specialize (IHi sc ts' He').
    destruct (parse_items fuel sc ts') as [[children rest]|e|]; cbn [bind].
    + destruct IHi as [Her Hir].
      pose proof (consume_outcome CLOSE_BRACE (unclosed sc) rest Her) as Hc.
      destruct (_consume CLOSE_BRACE (unclosed sc) rest) as [rest'|e|]; cbn [bind].
      * destruct Hc as [Hc1 Hc2]. split; [exact Hc1|].
        apply incl_tl. eapply incl_tran; eauto.
      * eapply raised_at_incl; [exact Hc|]. now apply incl_tl.
      * exact I.
    + eapply raised_at_incl; [exact IHi|]. apply incl_tl, incl_refl.
    + exact I.
  - intros sc ts He. rewrite parse_items_S.
    destruct ts as [|t ts']; [now destruct He as (x & [] & _)|].
    destruct (TokenType.eqb (Token.type t) CLOSE_BRACE
              || TokenType.eqb (Token.type t) EOF) eqn:Ec;
      [split; [exact He|apply incl_refl]|].
    assert (has_eof ts') as He'.
    { apply (has_eof_tail t); [exact He|]. intros H. rewrite H in Ec.
      now rewrite orb_true_r in Ec. }
    destruct (accepts sc (Token.type t)) as [[inner|kind]|].
    + specialize (IHb inner (Token.value t) ts' He').
      destruct (parse_block fuel inner (Token.value t) ts') as [[node rest]|e|];
        cbn [bind].
      * destruct IHb as [Her Hir]. specialize (IHi sc rest Her).
        destruct (parse_items fuel sc rest) as [[children rest']|e|]; cbn [bind].
        -- destruct IHi as [H1 H2]. split; [exact H1|].
           apply incl_tl. eapply incl_tran; eauto.
        -- eapply raised_at_incl; [exact IHi|]. now apply incl_tl.
        -- exact I.
      * eapply raised_at_incl; [exact IHb|]. apply incl_tl, incl_refl.
      * exact I.
    + specialize (IHi sc ts' He').
      destruct (parse_items fuel sc ts') as [[children rest']|e|]; cbn [bind].
      * destruct IHi as [H1 H2]. split; [exact H1|]. now apply incl_tl.
      * eapply raised_at_incl; [exact IHi|]. apply incl_tl, incl_refl.
      * exact I.
    + exists t, (unexpected sc +:+ Token.value t). split; [now left|reflexivity].
Qed.

Lemma significant_incl tokens : incl (significant tokens) tokens.
Proof. intros t Ht. now apply List.filter_In in Ht. Qed.

Lemma significant_has_eof tokens : has_eof tokens -> has_eof (significant tokens).
Proof.
  intros (t & Hin & Ht). exists t. split; [|exact Ht].
  apply List.filter_In. split; [exact Hin|]. now rewrite Ht.
Qed.

(** [parse] on a token list with an end-of-file token: a message tree and
    no error, or the degenerate node for an error at one of the tokens. *)
Lemma parse_outcomes tokens :
  has_eof tokens ->
  (exists children, parse tokens = Some (Node ASTNodeType.MESSAGE None children [], [])) \/
  (exists bad msg, In bad tokens /\ rejected tokens bad msg).
Proof.
  intros He. apply significant_has_eof in He.
  assert (Hrej : forall e, raised_at (significant tokens) e ->
                   _parse_message (2 * List.length (significant tokens) + 2)
                     (significant tokens) = Raise e ->
                   exists bad msg, In bad tokens /\ rejected tokens bad msg).
  { intros e (bad & msg & Hin & ->) Hp. exists bad, msg.
    split; [now apply significant_incl|]. unfold rejected, parse. now rewrite Hp. }
  pose proof (parse_message_eq (2 * List.length (significant tokens) + 2)
                (significant tokens) ltac:(lia)) as Heq.
  destruct (significant tokens) as [|t ts] eqn:Es;
    [now destruct He as (x & [] & _)|].
  destruct (TokenType.eqb (Token.type t) VERSION) eqn:Ev.
  2:{ right. apply (Hrej _ ltac:(exists t, "Expected version marker (@v1.0)";
                                 split; [now left|reflexivity]) Heq). }
  assert (has_eof ts) as He1.
  { apply (has_eof_tail t); [exact He|]. intros H. now rewrite H in Ev. }
  pose proof (consume_outcome OPEN_BRACE "Expected '{' after version marker" ts He1) as Hc.
  destruct (_consume OPEN_BRACE _ ts) as [ts1|e|]; [|right|easy].
  2:{ apply (Hrej e); [|exact Heq]. eapply raised_at_incl; [exact Hc|]. now apply incl_tl. }
  destruct Hc as [He2 Hi2]. cbn [bind] in Heq.
  pose proof (proj2 (parse_outcome (2 * List.length ts1 + 1)) InMessage ts1 He2) as Hi.
  fold (items InMessage ts1) in Hi.
  destruct (items InMessage ts1) as [[children rest]|e|] eqn:Ei; [|right|].
  2:{ apply (Hrej e); [|exact Heq]. eapply raised_at_incl; [exact Hi|].
      now apply incl_tl. }
  2:{ now apply items_not_out_of_fuel in Ei. }
  destruct Hi as [He3 Hi3]. cbn [bind] in Heq.
  pose proof (consume_outcome CLOSE_BRACE (unclosed InMessage) rest He3) as Hc.
  destruct (_consume CLOSE_BRACE _ rest) as [rest'|e|]; [|right|easy].
  2:{ apply (Hrej e); [|exact Heq]. eapply raised_at_incl; [exact Hc|].
      apply incl_tl. eapply incl_tran; eauto. }
  cbn [bind] in Heq. left. eexists. unfold parse. rewrite Es, Heq. reflexivity.
Qed.

(** *** The first violation *)

Lemma allows_inv outer sc :
  allows outer sc = true ->
  accepts outer (tag_of sc) = Some (Block sc) /\
  tag_of sc <> OPEN_BRACE /\
  TokenType.eqb (tag_of sc) CLOSE_BRACE || TokenType.eqb (tag_of sc) EOF = false.
Proof.
  unfold allows.
  destruct outer, sc; cbn; try discriminate; intros _; repeat split; discriminate.
Qed.

Lemma violation_not_opening sc bad rest msg :
  violation sc bad = Some msg -> not_opening (bad :: rest).
Proof. unfold violation. cbn [not_opening]. now destruct (Token.type bad). Qed.

(** The loop of [sc] on complete items, then open blocks, then a token
    that is a violation in the innermost open scope: it raises at that
    token; only at the end of the file with no block open does the loop
    itself return, and its caller finds the closing brace missing. *)
Lemma items_violation frames :
  forall sc done toks bad rest msg,
    List.forallb (conforms sc) done = true ->
    chain sc frames = true ->
    Forall2 spells toks (List.flat_map flatten done ++ open_pieces frames) ->
    violation (innermost sc frames) bad = Some msg ->
    items sc (toks ++ bad :: rest) =
    match frames, Token.type bad with
    | [], EOF => Ok (done, bad :: rest)
    | _, _ => Raise (ParseError (error_at bad msg))
    end.
Proof.
  induction frames as [|f fs IH]; intros sc done toks bad rest msg Hd Hch Hs Hv.
  - cbn [open_pieces innermost] in *. rewrite app_nil_r in Hs.
    rewrite (items_complete sc done toks (bad :: rest) Hd Hs)
      by (eapply violation_not_opening; eauto).
    rewrite items_eq. unfold violation in Hv.
    destruct (Token.type bad) eqn:Ety; cbn [TokenType.eqb orb bind];
      try discriminate; rewrite ?app_nil_r; try reflexivity;
      destruct (accepts sc _); try discriminate; injection Hv as <-; reflexivity.
  - cbn [open_pieces innermost chain] in *.
    apply andb_true_iff in Hch as [Hch Hfs]. apply andb_true_iff in Hch as [Hal Hfd].
    destruct (allows_inv _ _ Hal) as (Hacc & Hno & Hnc).
    apply Forall2_app_inv_r in Hs as (toks0 & toks1 & Hs0 & Hs1 & ->).
    apply Forall2_cons_inv_r in Hs1 as (tag & toks2 & [Htag Hval] & Hs2 & ->).
    apply Forall2_cons_inv_r in Hs2 as (o & toks3 & [Ho _] & Hs3 & ->).
    cbn [fst snd] in Htag, Hval, Ho.
    rewrite <- app_assoc.
    rewrite (items_complete sc done toks0 _ Hd Hs0)
      by (cbn [app not_opening]; now rewrite Htag).
    cbn [app]. rewrite items_eq, Htag, Hnc, Hacc, Hval.
    rewrite block_eq, Ho. cbn [TokenType.eqb].
    rewrite (IH (frame_scope f) (frame_done f) toks3 bad rest msg Hfd Hfs Hs3 Hv).
    destruct fs as [|f' fs'].
    + cbn [innermost] in Hv. unfold violation in Hv.
      destruct (Token.type bad) eqn:Ety; cbn [bind]; try reflexivity.
      unfold _consume. rewrite check_close, Ety. cbn [TokenType.eqb bind _error].
      injection Hv as <-. reflexivity.
    + now destruct (Token.type bad).
Qed.

(** A violation anywhere in a message: [parse] gives up there. *)
Lemma parse_violation tokens top frames bad rest msg :
  reads tokens (message_pieces top frames) (bad :: rest) ->
  List.forallb (conforms InMessage) top = true ->
  chain InMessage frames = true ->
  violation (innermost InMessage frames) bad = Some msg ->
  rejected tokens bad msg.
Proof.
  intros (toks & Hsig & Hs) Htop Hch Hv. unfold rejected, parse.
  rewrite parse_message_eq by lia. rewrite Hsig.
  unfold message_pieces in Hs.
  apply Forall2_cons_inv_r in Hs as (v & toks1 & [Hver _] & Hs & ->).
  apply Forall2_cons_inv_r in Hs as (o & toks2 & [Ho _] & Hs & ->).
  cbn [fst] in Hver, Ho. cbn [app]. rewrite Hver. cbn [TokenType.eqb].
  unfold _consume at 1. rewrite check_open, Ho. cbn [TokenType.eqb bind List.tl].
  rewrite (items_violation frames InMessage top toks2 bad rest msg Htop Hch Hs Hv).
  destruct frames as [|f fs].
  - cbn [innermost] in Hv. unfold violation in Hv.
    destruct (Token.type bad) eqn:Ety; cbn [bind]; try reflexivity.
    unfold _consume. rewrite check_close, Ety. cbn [TokenType.eqb bind _error].
    injection Hv as <-. reflexivity.
  - now destruct (Token.type bad).
Qed.

(** A token list that spells a conforming message parses to its tree. *)
Lemma parse_complete tokens version children close rest :
  reads tokens
    ((VERSION, Some version) :: (OPEN_BRACE, None)
     :: List.flat_map flatten children) (close :: rest) ->
  Token.type close = CLOSE_BRACE ->
  List.forallb (conforms InMessage) children = true ->
  parse tokens = Some (message_tree version children, []).
Proof.
  intros (toks & Hsig & Hs) Hcl Hc. unfold parse.
  rewrite parse_message_eq by lia. rewrite Hsig.
  apply Forall2_cons_inv_r in Hs as (v & toks1 & [Hver Hval] & Hs & ->).
  apply Forall2_cons_inv_r in Hs as (o & toks2 & [Ho _] & Hs & ->).
  cbn [fst snd] in Hver, Hval, Ho. cbn [app]. rewrite Hver, Hval. cbn [TokenType.eqb].
  unfold _consume at 1. rewrite check_open, Ho. cbn [TokenType.eqb bind List.tl].
  rewrite (items_complete InMessage children toks2 (close :: rest) Hc Hs)
    by (cbn [not_opening]; rewrite Hcl; discriminate).
  rewrite items_eq, Hcl. cbn [TokenType.eqb orb bind]. rewrite app_nil_r.
  unfold _consume. rewrite check_close, Hcl. cbn [TokenType.eqb bind].
  reflexivity.
Qed.

End ParserFacts.

(** ** The parser: what it takes and where it stops *)

Module ParserClaims.
Import TokenType Parser ParserFuel Grammar ParserFacts.

(** C5: a quantifier token met in the body of a relation, at whatever
    depth the relation stands, makes [parse] give up at that token with
    the relation loop's "unexpected token" error; a concept whose body
    holds a quantifier, among other items, parses, and the quantifier (with
    its own children) is a child of the concept in the tree. *)
Theorem relation_rejects_quantifier_concept_takes_it :
  (forall tokens top frames q rest,
      reads tokens (message_pieces top frames) (q :: rest) ->
      List.forallb (conforms InMessage) top = true ->
      chain InMessage frames = true ->
      innermost InMessage frames = InRelation ->
      Token.type q = QUANTIFIER ->
      rejected tokens q ("Unexpected token in relation: " +:+ Token.value q)) /\
  (forall tokens version before after cvalue pre post qvalue qchildren close rest,
      let quantifier := Node ASTNodeType.QUANTIFIER (Some qvalue) qchildren [] in
      let concept :=
        Node ASTNodeType.CONCEPT (Some cvalue) (pre ++ quantifier :: post) [] in
      reads tokens
        ((VERSION, Some version) :: (OPEN_BRACE, None)
         :: List.flat_map flatten (before ++ concept :: after)) (close :: rest) ->
      Token.type close = CLOSE_BRACE ->
      List.forallb (conforms InMessage) (before ++ after) = true ->
      List.forallb (conforms InConcept) (pre ++ post) = true ->
      List.forallb (conforms InQuantifier) qchildren = true ->
      parse tokens = Some (message_tree version (before ++ concept :: after), [])).
Proof.
  split.
  - intros tokens top frames q rest Hr Htop Hch Hin Hq.
    apply (parse_violation tokens top frames q rest); auto.
    rewrite Hin. unfold violation. now rewrite Hq.
  - intros tokens version before after cvalue pre post qvalue qchildren close rest
      quantifier concept Hr Hcl Hba Hpp Hqc.
    apply (parse_complete tokens version _ close rest Hr Hcl).
    rewrite List.forallb_app in *. cbn [List.forallb].
    apply andb_true_iff in Hba as [Hb Ha]. apply andb_true_iff in Hpp as [Hp1 Hp2].
    rewrite Hb, Ha. cbn [andb]. rewrite andb_true_r.
    unfold concept, quantifier. cbn [conforms tag_type accepts kind_of ASTNodeType.eqb andb].
    rewrite List.forallb_app. cbn [List.forallb conforms tag_type accepts kind_of
                                     ASTNodeType.eqb andb].
    now rewrite Hp1, Hp2, Hqc.
Qed.

(** Scenario 5 of the specification on two texts. *)
Lemma relation_rejects_quantifier_concept_takes_it_witness :
  (exists q,
      In q (Lexer.tokenize "@v1.0{~r{$q}}") /\ Token.value q = "$q" /\
      rejected (Lexer.tokenize "@v1.0{~r{$q}}") q "Unexpected token in relation: $q") /\
  parse (Lexer.tokenize "@v1.0{#c{$q}}")
  = Some (message_tree "@v1.0"
            [Node ASTNodeType.CONCEPT (Some "#c")
               [Node ASTNodeType.QUANTIFIER (Some "$q") [] []] []], []).
Proof.
  destruct relation_rejects_quantifier_concept_takes_it as [Hrel Hcon]. split.
  - exists (Token.mk QUANTIFIER "$q" 1 10). split; [vm_compute; tauto|].
    split; [reflexivity|].
    apply (Hrel (Lexer.tokenize "@v1.0{~r{$q}}") []
                [mk_frame InRelation "~r" []]
                (Token.mk QUANTIFIER "$q" 1 10)
                [Token.mk CLOSE_BRACE "}" 1 12; Token.mk CLOSE_BRACE "}" 1 13;
                 Token.mk EOF "" 1 14]); try reflexivity.
    exists [Token.mk VERSION "@v1.0" 1 1; Token.mk OPEN_BRACE "{" 1 6;
            Token.mk RELATION "~r" 1 7; Token.mk OPEN_BRACE "{" 1 9].
    split; [reflexivity|]. repeat constructor.
  - apply (Hcon (Lexer.tokenize "@v1.0{#c{$q}}") "@v1.0" [] [] "#c" [] [] "$q" []
                (Token.mk CLOSE_BRACE "}" 1 13) [Token.mk EOF "" 1 14]);
      try reflexivity.
    exists [Token.mk VERSION "@v1.0" 1 1; Token.mk OPEN_BRACE "{" 1 6;
            Token.mk CONCEPT "#c" 1 7; Token.mk OPEN_BRACE "{" 1 9;
            Token.mk QUANTIFIER "$q" 1 10; Token.mk CLOSE_BRACE "}" 1 12].
    split; [reflexivity|]. repeat constructor.
Defined.



End ParserClaims.

(** ** The lexer *)

Module LexerFacts.
Import Py PyFacts TokenType Lexer Scan.

(** [String.append] does not unfold under [cbn]; these are its two
    equations. *)
Lemma append_nil_l (s : string) : EmptyString +:+ s = s.
Proof. reflexivity. Qed.

Lemma append_cons c (a b : string) : String c a +:+ b = String c (a +:+ b).
Proof. reflexivity. Qed.

Lemma append_assoc (a b c : string) : (a +:+ b) +:+ c = a +:+ (b +:+ c).
Proof.
  induction a as [|x a IH]; [reflexivity|].
  change (String x ((a +:+ b) +:+ c) = String x (a +:+ (b +:+ c))). now f_equal.
Qed.

Lemma append_nil_r (a : string) : a +:+ EmptyString = a.
Proof.
  induction a as [|x a IH]; [reflexivity|].
  change (String x (a +:+ EmptyString) = String x a). now f_equal.
Qed.

Lemma length_append (a b : string) :
  String.length (a +:+ b) = String.length a + String.length b.
Proof.
  induction a as [|x a IH]; [reflexivity|].
  change (S (String.length (a +:+ b)) = S (String.length a + String.length b)).
  now f_equal.
Qed.

Lemma span_app p run rest :
  all_chars p run = true -> stops p rest -> span p (run +:+ rest) = (run, rest).
Proof.
  intros Hrun Hrest. induction run as [|c run IH].
  - destruct rest as [|c rest]; [reflexivity|].
    rewrite append_nil_l. cbn [span stops] in *. now rewrite Hrest.
  - cbn [all_chars] in Hrun. apply andb_true_iff in Hrun as [Hc Hrun].
    change (span p (String c (run +:+ rest)) = (String c run, rest)).
    cbn [span]. now rewrite Hc, (IH Hrun).
Qed.

Lemma span_spec p s :
  all_chars p (fst (span p s)) = true /\
  fst (span p s) +:+ snd (span p s) = s /\
  stops p (snd (span p s)).
Proof.
  induction s as [|c s (IH1 & IH2 & IH3)]; [easy|].
  cbn [span]. destruct (p c) eqn:Hc.
  - destruct (span p s) as [run rest]. cbn [fst snd all_chars] in *.
    rewrite Hc, IH1. repeat split; [|exact IH3].
    change (String c (run +:+ rest) = String c s). now f_equal.
  - cbn [fst snd all_chars stops]. now rewrite Hc.
Qed.

Lemma span_length p s : String.length (snd (span p s)) <= String.length s.
Proof.
  destruct (span_spec p s) as (_ & H & _).
  rewrite <- H at 2. rewrite length_append. lia.
Qed.

Lemma match_version_spec s version rest :
  match_version s = Some (version, rest) ->
  exists major minor,
    version = "v" +:+ major +:+ "." +:+ minor /\
    s = version +:+ rest /\
    major <> EmptyString /\ minor <> EmptyString /\
    all_chars isdigit major = true /\ all_chars isdigit minor = true /\
    stops isdigit rest.
Proof.
  unfold match_version. destruct s as [|c s]; [discriminate|].
  destruct (Ascii.eqb c "v") eqn:Ec.
  2:{ destruct c as [[] [] [] [] [] [] [] []]; try discriminate. }
  apply Ascii.eqb_eq in Ec as ->.
  destruct (span_spec isdigit s) as (H1 & H2 & _).
  destruct (span isdigit s) as [major r1]. simpl in H1, H2.
  destruct major as [|m0 major]; [discriminate|].
  destruct r1 as [|d r2]; [discriminate|].
  destruct (Ascii.eqb d ".") eqn:Ed.
  2:{ destruct d as [[] [] [] [] [] [] [] []]; try discriminate. }
  apply Ascii.eqb_eq in Ed as ->.
  destruct (span_spec isdigit r2) as (H3 & H4 & H5).
  destruct (span isdigit r2) as [minor r3]. simpl in H3, H4, H5.
  destruct minor as [|n0 minor]; [discriminate|].
  intros [= <- <-]. exists (String m0 major), (String n0 minor).
  repeat split; try easy.
  rewrite <- H2, <- H4. cbn [String.append].
  now rewrite !append_assoc.
Qed.

Lemma match_version_length s version rest :
  match_version s = Some (version, rest) -> String.length rest <= String.length s.
Proof.
  intros H. apply match_version_spec in H as (major & minor & _ & -> & _).
  rewrite length_append. lia.
Qed.

(** One turn of the loop: the kind and the text of the token and the text
    left do not depend on the position, and the text left is shorter. *)
Lemma next_token_kv char rest line column line' column' :
  kv (fst (next_token char rest line column))
  = kv (fst (next_token char rest line' column')) /\
  fst (snd (next_token char rest line column))
  = fst (snd (next_token char rest line' column')) /\
  String.length (fst (snd (next_token char rest line column))) <= String.length rest.
Proof.
  unfold next_token.
  pose proof (span_length concept_char rest) as Lc.
  pose proof (span_length word_char rest) as Lw.
  pose proof (span_length reference_char rest) as Lr.
  destruct (isspace char) eqn:Esp.
  { assert (String.length (snd (span isspace (String char rest)))
            <= String.length rest) as Lws'.
    { cbn [span]. rewrite Esp. destruct (span isspace rest) eqn:E. cbn [snd].
      pose proof (span_length isspace rest) as L. now rewrite E in L. }
    destruct (span isspace (String char rest)) as [ws rest'].
    destruct (after_whitespace ws line column), (after_whitespace ws line' column').
    now cbn [fst snd] in *. }
  destruct (Ascii.eqb char "@").
  { destruct (match_version rest) as [[version rest']|] eqn:Ev; cbn [fst snd].
    - apply match_version_length in Ev. easy.
    - easy. }
  destruct (Ascii.eqb char "#").
  { destruct (span concept_char rest) as [identifier rest']. now cbn [fst snd] in *. }
  destruct (Ascii.eqb char "~").
  { destruct (span word_char rest) as [identifier rest']. now cbn [fst snd] in *. }
  destruct (Ascii.eqb char "$").
  { destruct (span word_char rest) as [identifier rest']. now cbn [fst snd] in *. }
  destruct (Ascii.eqb char "^").
  { destruct (span reference_char rest) as [identifier rest']. now cbn [fst snd] in *. }
  destruct (Ascii.eqb char "{"); [now cbn [fst snd]|].
  destruct (Ascii.eqb char "}"); [now cbn [fst snd]|].
  destruct (operator_char char); [now cbn [fst snd]|].
  destruct (word_char char) eqn:Ew; [|now cbn [fst snd]].
  assert (String.length (snd (span word_char (String char rest)))
          <= String.length rest) as Li'.
  { cbn [span]. rewrite Ew. destruct (span word_char rest) eqn:E. cbn [snd].
    pose proof (span_length word_char rest) as L. now rewrite E in L. }
  destruct (span word_char (String char rest)) as [identifier rest'].
  now cbn [fst snd] in *.
Qed.

Lemma tokenize_from_S fuel char rest line column :
  tokenize_from (S fuel) (String char rest) line column =
  fst (next_token char rest line column)
  :: tokenize_from fuel (fst (snd (next_token char rest line column)))
       (fst (snd (snd (next_token char rest line column))))
       (snd (snd (snd (next_token char rest line column)))).
Proof.
  cbn [tokenize_from].
  now destruct (next_token char rest line column) as [token [rest' [line' column']]].
Qed.

(** The kinds and texts do not depend on the position the lexer starts
    from, nor on the fuel once there is enough. *)
Lemma tokenize_from_kv fuel :
  forall s line column fuel' line' column',
    String.length s < fuel -> String.length s < fuel' ->
    List.map kv (tokenize_from fuel s line column)
    = List.map kv (tokenize_from fuel' s line' column').
Proof.
  induction fuel as [|fuel IH]; intros s line column [|fuel'] line' column' Hf Hf';
    try lia.
  destruct s as [|char rest]; [reflexivity|]. cbn [String.length] in Hf, Hf'.
  rewrite !tokenize_from_S. cbn [List.map].
  destruct (next_token_kv char rest line column line' column') as (H1 & H2 & H3).
  rewrite H1. f_equal. rewrite H2 in *. apply IH; lia.
Qed.

Lemma scan_from_enough fuel s line column :
  String.length s < fuel -> scan_from fuel s line column = scan s.
Proof.
  intros Hf. unfold scan, scan_from. f_equal. apply tokenize_from_kv; lia.
Qed.

Lemma scan_nil : scan EmptyString = [(EOF, EmptyString)].
Proof. reflexivity. Qed.

(** The tokens the parser keeps of a text, by the first turn of the
    loop. *)
Lemma scan_cons char rest :
  scan (String char rest) =
  List.filter visible [kv (fst (next_token char rest 1 1))]
  ++ scan (fst (snd (next_token char rest 1 1))).
Proof.
  unfold scan at 1. unfold scan_from. rewrite tokenize_from_S.
  cbn [List.map]. change (?x :: ?l) with ([x] ++ l). rewrite List.filter_app.
  f_equal. apply scan_from_enough.
  destruct (next_token_kv char rest 1 1 1 1) as (_ & _ & H).
  cbn [String.length]. lia.
Qed.

(** White space before a token leaves the tokens that the parser keeps
    as they are. *)
Lemma scan_skip s : scan s = scan (snd (span isspace s)).
Proof.
  destruct s as [|c s]; [reflexivity|].
  destruct (isspace c) eqn:Ec; [|cbn [span]; now rewrite Ec].
  rewrite scan_cons. unfold next_token. rewrite Ec.
  destruct (span isspace (String c s)) as [ws rest'].
  destruct (after_whitespace ws 1 1) as [line' column'].
  reflexivity.
Qed.

Lemma scan_space c s : isspace c = true -> scan (String c s) = scan s.
Proof.
  intros Hc. rewrite (scan_skip (String c s)), (scan_skip s).
  cbn [span]. rewrite Hc. now destruct (span isspace s).
Qed.

Lemma scan_open s : scan (String "{" s) = (OPEN_BRACE, "{") :: scan s.
Proof. rewrite scan_cons. reflexivity. Qed.

Lemma scan_close s : scan (String "}" s) = (CLOSE_BRACE, "}") :: scan s.
Proof. rewrite scan_cons. reflexivity. Qed.

Lemma scan_concept run rest :
  all_chars concept_char run = true -> stops concept_char rest ->
  scan (String "#" (run +:+ rest)) = (CONCEPT, String "#" run) :: scan rest.
Proof.
  intros Hrun Hrest. rewrite scan_cons. unfold next_token.
  change (isspace "#") with false. cbn [Ascii.eqb Bool.eqb].
  now rewrite (span_app _ _ _ Hrun Hrest).
Qed.

Lemma scan_relation run rest :
  all_chars word_char run = true -> stops word_char rest ->
  scan (String "~" (run +:+ rest)) = (RELATION, String "~" run) :: scan rest.
Proof.
  intros Hrun Hrest. rewrite scan_cons. unfold next_token.
  change (isspace "~") with false. cbn [Ascii.eqb Bool.eqb].
  now rewrite (span_app _ _ _ Hrun Hrest).
Qed.

Lemma scan_quantifier run rest :
  all_chars word_char run = true -> stops word_char rest ->
  scan (String "$" (run +:+ rest)) = (QUANTIFIER, String "$" run) :: scan rest.
Proof.
  intros Hrun Hrest. rewrite scan_cons. unfold next_token.
  change (isspace "$") with false. cbn [Ascii.eqb Bool.eqb].
  now rewrite (span_app _ _ _ Hrun Hrest).
Qed.

Lemma scan_reference run rest :
  all_chars reference_char run = true -> stops reference_char rest ->
  scan (String "^" (run +:+ rest)) = (REFERENCE, String "^" run) :: scan rest.
Proof.
  intros Hrun Hrest. rewrite scan_cons. unfold next_token.
  change (isspace "^") with false. cbn [Ascii.eqb Bool.eqb].
  now rewrite (span_app _ _ _ Hrun Hrest).
Qed.

End LexerFacts.

(** ** The text printed for an item, read back by the lexer *)

Module PrinterFacts.
Import Py PyFacts TokenType Parser Grammar Scan Lexer LexerFacts RoundTrip.
Import CodeGenerator.

Ltac norm := rewrite ?append_assoc, ?append_cons, ?append_nil_l.

Lemma all_chars_app p a b :
  all_chars p (a +:+ b) = all_chars p a && all_chars p b.
Proof.
  induction a as [|c a IH]; [reflexivity|].
  rewrite append_cons. cbn [all_chars]. now rewrite IH, andb_assoc.
Qed.

Lemma word_concept_char c : word_char c = true -> concept_char c = true.
Proof. unfold word_char, concept_char. intros ->. reflexivity. Qed.

Lemma segment_reference_char c : segment_char c = true -> reference_char c = true.
Proof.
  unfold segment_char, reference_char.
  destruct (isalnum c), (Ascii.eqb c "_"), (Ascii.eqb c "."), (Ascii.eqb c "#");
    cbn; congruence.
Qed.

Lemma word_concept s : word s = true -> all_chars concept_char s = true.
Proof. apply all_chars_impl, word_concept_char. Qed.

Lemma segment_reference s : segment s = true -> all_chars reference_char s = true.
Proof. apply all_chars_impl, segment_reference_char. Qed.

Lemma stops_weaken (p q : ascii -> bool) s :
  (forall c, p c = true -> q c = true) -> stops q s -> stops p s.
Proof.
  intros Hpq. destruct s as [|c s]; [easy|]. cbn [stops]. intros Hq.
  destruct (p c) eqn:E; [|reflexivity]. apply Hpq in E. congruence.
Qed.

Lemma scan_newline s : scan (newline +:+ s) = scan s.
Proof. unfold newline. norm. now apply scan_space. Qed.

Lemma scan_spaces n s : scan (spaces n +:+ s) = scan s.
Proof.
  induction n as [|n IH]; [reflexivity|].
  cbn [spaces]. norm. rewrite scan_space by reflexivity. exact IH.
Qed.

Lemma scan_indent level code s : scan (_indent level code +:+ s) = scan (code +:+ s).
Proof. unfold _indent. norm. apply scan_spaces. Qed.

(** The lines of the children of a block. *)
Lemma scan_lines (gen : IR -> string) level l rest :
  List.Forall (fun x => (exists c r, gen x = String c r) /\
                        forall rest', scan (gen x +:+ newline +:+ rest')
                                      = pieces_of x ++ scan rest') l ->
  scan (concat_all (List.map (child_line level) (List.map gen l)) +:+ rest)
  = List.flat_map pieces_of l ++ scan rest.
Proof.
  induction 1 as [|x l [(c & r & Hne) Hx] _ IH]; [reflexivity|].
  cbn [List.map concat_all List.fold_right List.flat_map].
  unfold child_line at 1. rewrite Hne. rewrite <- Hne.
  rewrite !append_assoc. rewrite scan_indent.
  rewrite Hx. rewrite <- app_assoc. f_equal. exact IH.
Qed.

(** A block: the tag, and the children between braces when there are
    children. *)
Lemma scan_block (gen : IR -> string) level ty tag children rest :
  (forall rest', stops concept_char rest' ->
                 scan (tag +:+ rest') = (ty, tag) :: scan rest') ->
  match children with
  | Some l =>
      nonempty l = true /\
      List.Forall (fun x => (exists c r, gen x = String c r) /\
                            forall rest', scan (gen x +:+ newline +:+ rest')
                                          = pieces_of x ++ scan rest') l
  | None => True
  end ->
  scan (block level tag (option_map (List.map gen) children) +:+ newline +:+ rest)
  = (ty, tag)
    :: match children with
       | Some l =>
           (OPEN_BRACE, "{") :: List.flat_map pieces_of l ++ [(CLOSE_BRACE, "}")]
       | None => []
       end
    ++ scan rest.
Proof.
  intros Htag Hch. destruct children as [l|].
  - destruct Hch as [Hne Hl]. destruct l as [|x l]; [discriminate|].
    cbn [option_map]. unfold block.
    cbn [List.map]. rewrite !append_assoc.
    rewrite Htag by reflexivity. f_equal.
    change ("{" +:+ ?s) with (String "{" s). rewrite scan_open. cbn [app]. f_equal.
    rewrite scan_newline.
    change (gen x :: List.map gen l) with (List.map gen (x :: l)).
    rewrite (scan_lines gen (S level) (x :: l) _ Hl).
    rewrite <- app_assoc. f_equal.
    rewrite scan_indent. change ("}" +:+ ?s) with (String "}" s).
    rewrite scan_close. cbn [app]. f_equal. apply scan_newline.
  - cbn [option_map block app]. rewrite Htag by reflexivity.
    f_equal. apply scan_newline.
Qed.

Lemma pieces_of_children l :
  List.map canonical (List.flat_map flatten (List.map unbuild l))
  = List.flat_map pieces_of l.
Proof.
  induction l as [|x l IH]; [reflexivity|].
  cbn [List.map List.flat_map]. now rewrite List.map_app, IH.
Qed.

(** The pieces of a block node. *)
Lemma pieces_of_block k ty tag (children : option (list IR)) :
  tag_type k = Some ty ->
  match children with Some l => nonempty l = true | None => True end ->
  List.map canonical
    (flatten (Node k (Some tag)
                (match children with Some l => List.map unbuild l | None => [] end) []))
  = (ty, tag)
    :: match children with
       | Some l =>
           (OPEN_BRACE, "{") :: List.flat_map pieces_of l ++ [(CLOSE_BRACE, "}")]
       | None => []
       end.
Proof.
  intros Hk Hne. cbn [flatten]. rewrite Hk.
  destruct children as [[|x l]|]; [discriminate| |reflexivity].
  cbn [List.map]. set (kids := unbuild x :: List.map unbuild l).
  cbn [List.map canonical fst snd]. f_equal. f_equal.
  rewrite List.map_app. cbn [List.map canonical fst snd].
  f_equal. unfold kids. exact (pieces_of_children (x :: l)).
Qed.

Lemma join_reference_chars l :
  List.forallb segment l = true -> all_chars reference_char (join "." l) = true.
Proof.
  unfold join. induction l as [|x l IH]; [reflexivity|].
  cbn [List.forallb]. rewrite andb_true_iff. intros [Hx Hl].
  destruct l as [|y l]; [now apply segment_reference|].
  cbn [String.concat]. rewrite !all_chars_app.
  rewrite (segment_reference x Hx). cbn [all_chars andb].
  change (reference_char ".") with true. cbn [andb].
  exact (IH Hl).
Qed.

Lemma stops_newline p rest :
  p "010"%char = false -> stops p (newline +:+ rest).
Proof. intros H. exact H. Qed.

(** The text printed for an item starts with its sigil and, followed by
    a line break, scans to the pieces of the tree it spells. *)
Lemma scan_item x :
  forall sc level,
    renders sc x = true ->
    (exists c r, _generate_node level x = String c r) /\
    forall rest,
      scan (_generate_node level x +:+ newline +:+ rest) = pieces_of x ++ scan rest.
Proof.
  induction x as [|v c IH|i q c IH|n c IH|n c IH|s p|t v a c IH]
    using IR_tree_ind; intros sc level Hr; try discriminate.
  - (* Concept *)
    destruct i as [i|]; [|discriminate]. cbn [renders] in Hr.
    apply andb_true_iff in Hr as [Hr Hc]. apply andb_true_iff in Hr as [Hi Hq].
    set (tag := match q with
                | Some (String c0 q') => "#" +:+ i +:+ "~" +:+ String c0 q'
                | _ => "#" +:+ i
                end).
    assert (Htag : forall rest', stops concept_char rest' ->
                     scan (tag +:+ rest') = (CONCEPT, tag) :: scan rest').
    { intros rest' Hst. unfold tag. destruct q as [[|c0 q']|].
      - norm. apply scan_concept; [now apply word_concept|exact Hst].
      - cbn [some_text andb] in Hq.
        change ("#" +:+ i +:+ "~" +:+ String c0 q')
          with (String "#" (i +:+ "~" +:+ String c0 q')).
        rewrite append_cons. apply scan_concept; [|exact Hst].
        rewrite !all_chars_app, (word_concept i Hi), (word_concept _ Hq).
        reflexivity.
      - norm. apply scan_concept; [now apply word_concept|exact Hst]. }
    assert (Hkids : match c with
                    | Some l =>
                        nonempty l = true /\
                        List.Forall
                          (fun x => (exists c0 r, _generate_node (S level) x = String c0 r) /\
                                    forall rest', scan (_generate_node (S level) x
                                                        +:+ newline +:+ rest')
                                                  = pieces_of x ++ scan rest') l
                    | None => True
                    end).
    { destruct c as [l|]; [|exact I]. apply andb_true_iff in Hc as [Hne Hl].
      split; [exact Hne|]. cbn [all_in] in IH.
      rewrite List.Forall_forall in *. intros x Hx.
      apply (IH x Hx InConcept (S level)).
      now apply (proj1 (List.forallb_forall _ _) Hl). }
    change (_generate_node level (Concept (Some i) q c))
      with (block level tag
              (option_map (List.map (fun n => _generate_node (S level) n)) c)).
    split.
    + unfold block, tag. destruct c as [[|x l]|], q as [[|c0 q']|]; norm; eauto.
    + intros rest.
      rewrite (scan_block (fun n => _generate_node (S level) n) level CONCEPT tag c rest
                 Htag Hkids).
      assert (Hne : match c with Some l => nonempty l = true | None => True end)
        by (destruct c; [apply Hkids|exact I]).
      pose proof (pieces_of_block ASTNodeType.CONCEPT CONCEPT tag c eq_refl Hne) as Hp.
      change (List.map canonical (flatten _)) with (pieces_of (Concept (Some i) q c)) in Hp.
      now rewrite Hp.
  - (* Relation *)
    destruct n as [n|]; [|discriminate]. cbn [renders] in Hr.
    apply andb_true_iff in Hr as [Hr Hc]. apply andb_true_iff in Hr as [_ Hn].
    set (tag := "~" +:+ n).
    assert (Htag : forall rest', stops concept_char rest' ->
                     scan (tag +:+ rest') = (RELATION, tag) :: scan rest').
    { intros rest' Hst. unfold tag. norm. apply scan_relation; [exact Hn|].
      revert Hst. apply stops_weaken, word_concept_char. }
    assert (Hkids : match c with
                    | Some l =>
                        nonempty l = true /\
                        List.Forall
                          (fun x => (exists c0 r, _generate_node (S level) x = String c0 r) /\
                                    forall rest', scan (_generate_node (S level) x
                                                        +:+ newline +:+ rest')
                                                  = pieces_of x ++ scan rest') l
                    | None => True
                    end).
    { destruct c as [l|]; [|exact I]. apply andb_true_iff in Hc as [Hne Hl].
      split; [exact Hne|]. cbn [all_in] in IH.
      rewrite List.Forall_forall in *. intros x Hx.
      apply (IH x Hx InRelation (S level)).
      now apply (proj1 (List.forallb_forall _ _) Hl). }
    change (_generate_node level (Relation (Some n) c))
      with (block level tag
              (option_map (List.map (fun n => _generate_node (S level) n)) c)).
    split.
    + unfold block, tag. destruct c as [[|x l]|]; norm; eauto.
    + intros rest.
      rewrite (scan_block (fun n => _generate_node (S level) n) level RELATION tag c rest
                 Htag Hkids).
      assert (Hne : match c with Some l => nonempty l = true | None => True end)
        by (destruct c; [apply Hkids|exact I]).
      pose proof (pieces_of_block ASTNodeType.RELATION RELATION tag c eq_refl Hne) as Hp.
      change (List.map canonical (flatten _)) with (pieces_of (Relation (Some n) c)) in Hp.
      now rewrite Hp.
  - (* Quantifier *)
    destruct n as [n|]; [|discriminate]. cbn [renders] in Hr.
    apply andb_true_iff in Hr as [Hr Hc]. apply andb_true_iff in Hr as [_ Hn].
    set (tag := "$" +:+ n).
    assert (Htag : forall rest', stops concept_char rest' ->
                     scan (tag +:+ rest') = (QUANTIFIER, tag) :: scan rest').
    { intros rest' Hst. unfold tag. norm. apply scan_quantifier; [exact Hn|].
      revert Hst. apply stops_weaken, word_concept_char. }
    assert (Hkids : match c with
                    | Some l =>
                        nonempty l = true /\
                        List.Forall
                          (fun x => (exists c0 r, _generate_node (S level) x = String c0 r) /\
                                    forall rest', scan (_generate_node (S level) x
                                                        +:+ newline +:+ rest')
                                                  = pieces_of x ++ scan rest') l
                    | None => True
                    end).
    { destruct c as [l|]; [|exact I]. apply andb_true_iff in Hc as [Hne Hl].
      split; [exact Hne|]. cbn [all_in] in IH.
      rewrite List.Forall_forall in *. intros x Hx.
      apply (IH x Hx InQuantifier (S level)).
      now apply (proj1 (List.forallb_forall _ _) Hl). }
    change (_generate_node level (Quantifier (Some n) c))
      with (block level tag
              (option_map (List.map (fun n => _generate_node (S level) n)) c)).
    split.
    + unfold block, tag. destruct c as [[|x l]|]; norm; eauto.
    + intros rest.
      rewrite (scan_block (fun n => _generate_node (S level) n) level QUANTIFIER tag c rest
                 Htag Hkids).
      assert (Hne : match c with Some l => nonempty l = true | None => True end)
        by (destruct c; [apply Hkids|exact I]).
      pose proof (pieces_of_block ASTNodeType.QUANTIFIER QUANTIFIER tag c eq_refl Hne) as Hp.
      change (List.map canonical (flatten _)) with (pieces_of (Quantifier (Some n) c)) in Hp.
      now rewrite Hp.
  - (* Reference *)
    destruct s as [s|]; [|discriminate]. cbn [renders] in Hr.
    apply andb_true_iff in Hr as [Hr Hp]. apply andb_true_iff in Hr as [_ Hs].
    set (tag := match p with
                | None | Some [] => "^" +:+ s
                | Some l => "^" +:+ s +:+ "." +:+ join "." l
                end).
    change (_generate_node level (Reference (Some s) p)) with tag.
    assert (Hrun : exists run, tag = String "^" run /\ all_chars reference_char run = true).
    { unfold tag. destruct p as [[|x l]|].
      - exists s. split; [reflexivity|now apply segment_reference].
      - exists (s +:+ "." +:+ join "." (x :: l)). split; [reflexivity|].
        apply andb_true_iff in Hp as [_ Hl].
        rewrite !all_chars_app, (segment_reference s Hs), (join_reference_chars _ Hl).
        reflexivity.
      - exists s. split; [reflexivity|now apply segment_reference]. }
    destruct Hrun as (run & Etag & Hrun). split; [rewrite Etag; eauto|].
    intros rest. unfold pieces_of. cbn [unbuild flatten tag_type List.map canonical
                                          fst snd app].
    fold tag. rewrite Etag, append_cons.
    now rewrite (scan_reference run (newline +:+ rest) Hrun eq_refl), scan_newline.
Qed.

(** The version pattern matches a text that it has matched, to its end. *)
Lemma match_version_intro major minor rest :
  major <> EmptyString -> minor <> EmptyString ->
  all_chars isdigit major = true -> all_chars isdigit minor = true ->
  stops isdigit rest ->
  match_version (("v" +:+ major +:+ "." +:+ minor) +:+ rest)
  = Some ("v" +:+ major +:+ "." +:+ minor, rest).
Proof.
  intros Hmaj Hmin Dmaj Dmin Hrest. norm. unfold match_version.
  rewrite (span_app isdigit major (String "." (minor +:+ rest)) Dmaj eq_refl).
  destruct major as [|c major]; [contradiction|].
  rewrite (span_app isdigit minor rest Dmin Hrest).
  destruct minor as [|d minor]; [contradiction|reflexivity].
Qed.

Lemma shaped_version version :
  shaped (VERSION, "@v" +:+ version) = true ->
  exists major minor,
    version = major +:+ "." +:+ minor /\
    major <> EmptyString /\ minor <> EmptyString /\
    all_chars isdigit major = true /\ all_chars isdigit minor = true.
Proof.
  unfold shaped. cbn [fst snd]. change ("@v" +:+ version) with (String "@" (String "v" version)).
  destruct (match_version (String "v" version)) as [[m [|c r]]|] eqn:E;
    intros H; rewrite ?E in H; try discriminate.
  clear H. apply match_version_spec in E as (major & minor & -> & E & H).
  exists major, minor. rewrite append_nil_r in E.
  change ("v" +:+ major +:+ "." +:+ minor) with (String "v" (major +:+ "." +:+ minor)) in E.
  injection E as ->. tauto.
Qed.

Lemma scan_version version rest :
  shaped (VERSION, "@v" +:+ version) = true -> stops isdigit rest ->
  scan (("@v" +:+ version) +:+ rest) = (VERSION, "@v" +:+ version) :: scan rest.
Proof.
  intros Hv Hrest.
  destruct (shaped_version version Hv) as (major & minor & -> & Hmaj & Hmin & Dmaj & Dmin).
  change ("@v" +:+ major +:+ "." +:+ minor)
    with (String "@" ("v" +:+ major +:+ "." +:+ minor)).
  rewrite append_cons, scan_cons. unfold next_token.
  change (isspace "@") with false. cbn [Ascii.eqb Bool.eqb].
  now rewrite (match_version_intro major minor rest Hmaj Hmin Dmaj Dmin Hrest).
Qed.

Lemma search_version_shaped version :
  shaped (VERSION, "@v" +:+ version) = true ->
  Re.search_version ("@v" +:+ version) = Some version.
Proof.
  intros Hv.
  destruct (shaped_version version Hv) as (major & minor & -> & Hmaj & Hmin & Dmaj & Dmin).
  pose proof (match_version_intro major minor EmptyString Hmaj Hmin Dmaj Dmin I) as E.
  rewrite append_nil_r in E.
  change ("@v" +:+ major +:+ "." +:+ minor)
    with (String "@" ("v" +:+ major +:+ "." +:+ minor)).
  cbn [Re.search_version]. change (match_version (String "@" _)) with (@None (string * string)).
  cbv beta iota.
  destruct ("v" +:+ major +:+ "." +:+ minor) as [|c r] eqn:Ev; [discriminate|].
  cbn [Re.search_version]. rewrite E.
  change ("v" +:+ major +:+ "." +:+ minor) with (String "v" (major +:+ "." +:+ minor)) in Ev.
  injection Ev as <- <-. reflexivity.
Qed.

(** The pieces of the text printed for a message: the version marker, the
    items between braces, and the end of the text. *)
Lemma scan_message version content :
  renders_message (Message (Some version) content) = true ->
  scan (generate (Message (Some version) content))
  = (VERSION, "@v" +:+ version) :: (OPEN_BRACE, "{")
    :: List.flat_map pieces_of (match content with Some l => l | None => [] end)
    ++ [(CLOSE_BRACE, "}"); (EOF, EmptyString)].
Proof.
  cbn [renders_message]. rewrite andb_true_iff. intros [Hv Hc].
  unfold generate. cbn [_generate_node].
  rewrite <- !append_assoc.
  rewrite (append_assoc ("@v" +:+ version)), (append_assoc ("@v" +:+ version)),
    (append_assoc ("@v" +:+ version)).
  rewrite (scan_version version _ Hv) by reflexivity. f_equal.
  norm. rewrite scan_open. f_equal. rewrite scan_newline.
  destruct content as [l|].
  - apply andb_true_iff in Hc as [_ Hl].
    rewrite <- (List.map_map (fun n => _generate_node 1 n) (child_line 1)).
    rewrite (scan_lines (fun n => _generate_node 1 n) 1 l "}").
    + now rewrite scan_close, scan_nil.
    + rewrite List.Forall_forall. intros x Hx.
      apply (scan_item x InMessage 1).
      now apply (proj1 (List.forallb_forall _ _) Hl).
  - norm. cbn [List.flat_map app]. now rewrite scan_close, scan_nil.
Qed.

End PrinterFacts.


(** ** The round trip: from the printed text back to the IR *)

Module UnbuildFacts.
Import Py TokenType Parser Grammar Scan Lexer RoundTrip LexerFacts PrinterFacts.

Lemma word_no_separator s : word s = true -> contains "~" s = false.
Proof.
  unfold word. induction s as [|c s IH]; [reflexivity|].
  cbn [all_chars contains]. rewrite andb_true_iff. intros [Hc Hs].
  rewrite (IH Hs), orb_false_r.
  destruct (Ascii.eqb c "~") eqn:E; [|reflexivity].
  apply Ascii.eqb_eq in E. subst c. discriminate.
Qed.

Lemma segment_no_separator s : segment s = true -> contains "." s = false.
Proof.
  unfold segment. induction s as [|c s IH]; [reflexivity|].
  cbn [all_chars contains]. rewrite andb_true_iff. intros [Hc Hs].
  rewrite (IH Hs), orb_false_r.
  destruct (Ascii.eqb c ".") eqn:E; [|reflexivity].
  apply Ascii.eqb_eq in E. subst c. discriminate.
Qed.

Lemma split_whole sep s : contains sep s = false -> split sep s = [s].
Proof.
  induction s as [|c s IH]; [reflexivity|].
  cbn [contains split]. rewrite orb_false_iff. intros [Hc Hs].
  now rewrite Hc, (IH Hs).
Qed.

Lemma split_app sep a b :
  contains sep a = false ->
  split sep (a +:+ String sep b) = a :: split sep b.
Proof.
  induction a as [|c a IH].
  - intros _. rewrite append_nil_l. cbn [split]. now rewrite Ascii.eqb_refl.
  - cbn [contains]. rewrite orb_false_iff. intros [Hc Ha].
    rewrite append_cons. cbn [split]. now rewrite Hc, (IH Ha).
Qed.

Lemma split_join sep x l :
  List.forallb (fun s => negb (contains sep s)) (x :: l) = true ->
  split sep (join (String sep EmptyString) (x :: l)) = x :: l.
Proof.
  unfold join. revert x. induction l as [|y l IH]; intros x.
  - cbn [List.forallb String.concat]. rewrite andb_true_r, negb_true_iff.
    apply split_whole.
  - change (List.forallb _ (x :: y :: l))
      with (negb (contains sep x)
            && List.forallb (fun s => negb (contains sep s)) (y :: l)).
    rewrite andb_true_iff, negb_true_iff. intros [Hx Hl].
    cbn [String.concat]. rewrite append_cons, append_nil_l.
    rewrite (split_app sep x _ Hx). f_equal. exact (IH y Hl).
Qed.

Lemma map_id_on {A} (f : A -> A) l :
  List.Forall (fun x => f x = x) l -> List.map f l = l.
Proof. induction 1 as [|x l Hx _ IH]; cbn [List.map]; congruence. Qed.

Lemma if_any_nonempty {A} (l : list A) :
  nonempty l = true -> IRBuilder.if_any l = Some l.
Proof. now destruct l. Qed.

(** The tree that a printed item spells is one the grammar allows, and
    lowering it gives the item back. *)
Lemma unbuild_spec x :
  forall sc,
    renders sc x = true ->
    conforms sc (unbuild x) = true /\ IRBuilder.build (unbuild x) = x.
Proof.
  assert (Hkids : forall (inner : scope) (c : option (list IR)),
             all_in (fun x => forall sc, renders sc x = true ->
                                conforms sc (unbuild x) = true /\
                                IRBuilder.build (unbuild x) = x) c ->
             match c with
             | Some l => nonempty l && List.forallb (renders inner) l
             | None => true
             end = true ->
             let kids := match c with Some l => List.map unbuild l | None => [] end in
             List.forallb (conforms inner) kids = true /\
             IRBuilder.if_any (List.map IRBuilder._build_node_ir kids) = c).
  { intros inner [l|] IH Hc; [|now split].
    apply andb_true_iff in Hc as [Hne Hl]. cbn [all_in] in IH. cbv zeta.
    rewrite List.Forall_forall in IH.
    assert (H : forall y, In y l -> conforms inner (unbuild y) = true /\
                                     IRBuilder.build (unbuild y) = y).
    { intros y Hy. apply (IH y Hy inner).
      now apply (proj1 (List.forallb_forall _ _) Hl). }
    split.
    - rewrite List.forallb_forall. intros n Hn.
      apply List.in_map_iff in Hn as (y & <- & Hy). now apply H.
    - rewrite List.map_map, (map_id_on (fun y => IRBuilder._build_node_ir (unbuild y))).
      + now apply if_any_nonempty.
      + rewrite List.Forall_forall. intros y Hy. now apply H. }
  induction x as [|v c IH|i q c IH|n c IH|n c IH|s p|t v a c IH]
    using IR_tree_ind; intros sc Hr; try discriminate.
  - (* Concept *)
    destruct i as [i|]; [|discriminate]. cbn [renders] in Hr.
    apply andb_true_iff in Hr as [Hr Hc]. apply andb_true_iff in Hr as [Hi Hq].
    destruct (Hkids InConcept c IH Hc) as [Hconf Hbuild]. cbv zeta in Hconf, Hbuild.
    split.
    + cbn [unbuild conforms tag_type].
      replace (accepts sc CONCEPT) with (Some (Block InConcept)) by now destruct sc.
      exact Hconf.
    + unfold IRBuilder.build. cbn [unbuild IRBuilder._build_node_ir].
      rewrite Hbuild. destruct q as [[|c0 q']|].
      * discriminate.
      * cbn [some_text andb] in Hq.
        change ("#" +:+ i +:+ "~" +:+ String c0 q')
          with (String "#" (i +:+ String "~" (String c0 q'))).
        cbv beta iota.
        rewrite (split_app "~" i _ (word_no_separator i Hi)).
        rewrite (split_whole "~" _ (word_no_separator _ Hq)). reflexivity.
      * change ("#" +:+ i) with (String "#" i). cbv beta iota.
        rewrite (split_whole "~" _ (word_no_separator i Hi)). reflexivity.
  - (* Relation *)
    destruct n as [n|]; [|discriminate]. cbn [renders] in Hr.
    apply andb_true_iff in Hr as [Hr Hc]. apply andb_true_iff in Hr as [Ha Hn].
    destruct (Hkids InRelation c IH Hc) as [Hconf Hbuild]. cbv zeta in Hconf, Hbuild.
    apply ParserFacts.allows_inv in Ha as (Ha & _). cbn [tag_of] in Ha.
    split.
    + cbn [unbuild conforms tag_type]. rewrite Ha. exact Hconf.
    + unfold IRBuilder.build. cbn [unbuild IRBuilder._build_node_ir].
      now rewrite Hbuild.
  - (* Quantifier *)
    destruct n as [n|]; [|discriminate]. cbn [renders] in Hr.
    apply andb_true_iff in Hr as [Hr Hc]. apply andb_true_iff in Hr as [Ha Hn].
    destruct (Hkids InQuantifier c IH Hc) as [Hconf Hbuild]. cbv zeta in Hconf, Hbuild.
    apply ParserFacts.allows_inv in Ha as (Ha & _). cbn [tag_of] in Ha.
    split.
    + cbn [unbuild conforms tag_type]. rewrite Ha. exact Hconf.
    + unfold IRBuilder.build. cbn [unbuild IRBuilder._build_node_ir].
      now rewrite Hbuild.
  - (* Reference *)
    destruct s as [s|]; [|discriminate]. cbn [renders] in Hr.
    apply andb_true_iff in Hr as [Hr Hp]. apply andb_true_iff in Hr as [Ha Hs].
    split.
    + cbn [unbuild conforms tag_type]. now destruct sc.
    + unfold IRBuilder.build. cbn [unbuild IRBuilder._build_node_ir].
      destruct p as [[|x l]|].
      * discriminate.
      * apply andb_true_iff in Hp as [_ Hl].
        change ("^" +:+ s +:+ "." +:+ join "." (x :: l))
          with (String "^" (s +:+ String "." (join "." (x :: l)))).
        cbv beta iota.
        rewrite (split_app "." s _ (segment_no_separator s Hs)).
        rewrite (split_join "." x l); [reflexivity|].
        rewrite List.forallb_forall in *. intros y Hy.
        now rewrite (segment_no_separator y (Hl y Hy)).
      * change ("^" +:+ s) with (String "^" s). cbv beta iota.
        rewrite (split_whole "." _ (segment_no_separator s Hs)). reflexivity.
Qed.

End UnbuildFacts.


Module ReparseFacts.
Import Py TokenType Parser Grammar Scan Lexer RoundTrip LexerFacts PrinterFacts.
Import UnbuildFacts.

Lemma significant_kv tokens :
  List.map kv (significant tokens) = List.filter visible (List.map kv tokens).
Proof.
  unfold significant. induction tokens as [|t ts IH]; [reflexivity|].
  cbn [List.filter List.map]. unfold visible at 1. cbn [kv fst].
  destruct (negb (TokenType.eqb (Token.type t) WHITESPACE)); cbn [List.map]; now rewrite IH.
Qed.

Lemma scan_significant text :
  List.map kv (significant (tokenize text)) = scan text.
Proof. now rewrite significant_kv. Qed.

Lemma spells_canonical pieces :
  forall toks,
    List.map kv toks = List.map canonical pieces -> Forall2 spells toks pieces.
Proof.
  induction pieces as [|p pieces IH]; intros [|t toks] E; try discriminate.
  - constructor.
  - cbn [List.map] in E. injection E as Et Ev E. constructor; [|now apply IH].
    split; [exact Et|]. destruct p as [ty [v|]]; [exact Ev|exact I].
Qed.

(** The text printed for a message parses, to the tree that its items
    spell. *)
Lemma parse_generate version content :
  renders_message (Message (Some version) content) = true ->
  parse (tokenize (CodeGenerator.generate (Message (Some version) content)))
  = Some (message_tree ("@v" +:+ version)
            (List.map unbuild (match content with Some l => l | None => [] end)), []).
Proof.
  intros Hr. pose proof (scan_message version content Hr) as Hscan.
  set (l := match content with Some l => l | None => [] end) in *.
  assert (Hl : List.forallb (renders InMessage) l = true).
  { unfold l. cbn [renders_message] in Hr. apply andb_true_iff in Hr as [_ Hc].
    destruct content as [l'|]; [|reflexivity]. now apply andb_true_iff in Hc. }
  rewrite <- scan_significant in Hscan.
  set (pieces := (VERSION, Some ("@v" +:+ version)) :: (OPEN_BRACE, None)
                 :: List.flat_map flatten (List.map unbuild l)).
  assert (E : List.map kv (significant (tokenize (CodeGenerator.generate
                                                    (Message (Some version) content))))
              = List.map canonical pieces ++ [(CLOSE_BRACE, "}"); (EOF, EmptyString)]).
  { rewrite Hscan. unfold pieces. cbn [List.map canonical fst snd].
    now rewrite pieces_of_children. }
  apply List.map_eq_app in E as (toks & tail & Etoks & Ehead & Etail).
  destruct tail as [|close rest]; [discriminate|].
  cbn [List.map] in Etail. injection Etail as Eclose _ _.
  apply (ParserFacts.parse_complete _ ("@v" +:+ version) (List.map unbuild l) close rest).
  - exists toks. split; [exact Etoks|]. now apply spells_canonical.
  - exact Eclose.
  - rewrite List.forallb_forall. intros n Hn.
    apply List.in_map_iff in Hn as (x & <- & Hx).
    apply (unbuild_spec x InMessage).
    now apply (proj1 (List.forallb_forall _ _) Hl).
Qed.

(** Lowering the tree that the printed text of a message parses to gives
    the message back. *)
Lemma build_message_tree version content :
  renders_message (Message (Some version) content) = true ->
  IRBuilder.build
    (message_tree ("@v" +:+ version)
       (List.map unbuild (match content with Some l => l | None => [] end)))
  = Message (Some version) content.
Proof.
  cbn [renders_message]. rewrite andb_true_iff. intros [Hv Hc].
  unfold IRBuilder.build, message_tree. cbn [IRBuilder._build_node_ir].
  f_equal.
  - unfold IRBuilder.message_version.
    cbn [List.filter node_type ASTNodeType.eqb node_value].
    now apply search_version_shaped.
  - cbn [List.flat_map node_type ASTNodeType.eqb app].
    assert (E : forall l,
               List.forallb (renders InMessage) l = true ->
               List.flat_map
                 (fun child =>
                    if ASTNodeType.eqb (node_type child) ASTNodeType.VERSION then []
                    else [IRBuilder._build_node_ir child])
                 (List.map unbuild l) = l).
    { induction l as [|x l IH]; [reflexivity|].
      cbn [List.forallb]. rewrite andb_true_iff. intros [Hx Hl].
      cbn [List.map List.flat_map]. rewrite (IH Hl).
      destruct (unbuild_spec x InMessage Hx) as [_ Hb]. unfold IRBuilder.build in Hb.
      rewrite Hb. destruct x; try discriminate; reflexivity. }
    destruct content as [l|]; [|reflexivity].
    apply andb_true_iff in Hc as [Hne Hl]. rewrite (E l Hl).
    now apply if_any_nonempty.
Qed.

End ReparseFacts.


(** ** The round trip: what the lexer and the parser give *)

Module ParserSound.
Import Py TokenType Parser Grammar Scan Lexer RoundTrip LexerFacts PrinterFacts.
Import ParserFuel ParserFacts.

(** Every token of the lexer has the lexical shape of its kind. *)
Lemma next_token_shaped char rest line column :
  shaped (kv (fst (next_token char rest line column))) = true.
Proof.
  unfold next_token.
  destruct (isspace char).
  { destruct (span isspace (String char rest)) as [ws rest'].
    now destruct (after_whitespace ws line column). }
  destruct (Ascii.eqb char "@").
  { destruct (match_version rest) as [[version rest']|] eqn:E; [|reflexivity].
    apply match_version_spec in E
      as (major & minor & -> & _ & Hmaj & Hmin & Dmaj & Dmin & _).
    pose proof (match_version_intro major minor EmptyString Hmaj Hmin Dmaj Dmin I) as E.
    rewrite append_nil_r in E.
    unfold shaped, kv. cbn [fst snd Token.type Token.value].
    rewrite append_cons, append_nil_l. now rewrite E. }
  destruct (Ascii.eqb char "#").
  { pose proof (span_spec concept_char rest) as (H & _).
    destruct (span concept_char rest) as [identifier rest']. exact H. }
  destruct (Ascii.eqb char "~").
  { pose proof (span_spec word_char rest) as (H & _).
    destruct (span word_char rest) as [identifier rest']. exact H. }
  destruct (Ascii.eqb char "$").
  { pose proof (span_spec word_char rest) as (H & _).
    destruct (span word_char rest) as [identifier rest']. exact H. }
  destruct (Ascii.eqb char "^").
  { pose proof (span_spec reference_char rest) as (H & _).
    destruct (span reference_char rest) as [reference rest']. exact H. }
  destruct (Ascii.eqb char "{"); [reflexivity|].
  destruct (Ascii.eqb char "}"); [reflexivity|].
  destruct (operator_char char); [reflexivity|].
  destruct (word_char char); [|reflexivity].
  now destruct (span word_char (String char rest)).
Qed.

Lemma tokenize_from_shaped fuel :
  forall s line column,
    List.Forall (fun t => shaped (kv t) = true) (tokenize_from fuel s line column).
Proof.
  induction fuel as [|fuel IH]; intros s line column; [constructor|].
  destruct s as [|char rest]; [now repeat constructor|].
  rewrite tokenize_from_S. constructor; [apply next_token_shaped|apply IH].
Qed.

Lemma tokenize_shaped text :
  List.Forall (fun t => shaped (kv t) = true) (tokenize text).
Proof. apply tokenize_from_shaped. Qed.

(** The tokens of a text end in the end-of-file token. *)
Lemma tokenize_from_has_eof fuel :
  forall s line column,
    String.length s < fuel -> has_eof (tokenize_from fuel s line column).
Proof.
  induction fuel as [|fuel IH]; intros s line column Hlen; [lia|].
  destruct s as [|char rest].
  - eexists. split; [now left|reflexivity].
  - rewrite tokenize_from_S.
    destruct (next_token_kv char rest line column line column) as (_ & _ & Hrest).
    cbn [String.length] in Hlen.
    destruct (IH (fst (snd (next_token char rest line column)))
                (fst (snd (snd (next_token char rest line column))))
                (snd (snd (snd (next_token char rest line column))))
                ltac:(lia)) as (t & Hin & Ht).
    exists t. split; [now right|exact Ht].
Qed.

Lemma tokenize_has_eof text : has_eof (tokenize text).
Proof. apply tokenize_from_has_eof. lia. Qed.

Lemma accepts_block sc ty inner :
  accepts sc ty = Some (Block inner) -> tag_type (kind_of inner) = Some ty.
Proof. destruct sc, ty; cbn; intros E; try discriminate; now injection E as <-. Qed.

Lemma accepts_leaf sc ty kind :
  accepts sc ty = Some (Leaf kind) -> tag_type kind = Some ty.
Proof. destruct sc, ty; cbn; intros E; try discriminate; now injection E as <-. Qed.

Lemma consume_inv ty msg ts rest :
  _consume ty msg ts = Ok rest -> exists t, ts = t :: rest.
Proof.
  destruct ts as [|t ts]; [discriminate|].
  unfold _consume, _check, _is_at_end, bind, _error.
  destruct (TokenType.eqb (Token.type t) EOF); [discriminate|].
  destruct (TokenType.eqb (Token.type t) ty); [|discriminate].
  cbn [List.tl]. intros E. injection E as <-. now exists t.
Qed.

(** What the parser builds from tokens of the lexer: trees that the
    grammar allows, every node with the text of a token of its kind. *)
Lemma parse_sound fuel :
  (forall sc value ts node rest,
      List.Forall (fun t => shaped (kv t) = true) ts ->
      parse_block fuel sc value ts = Ok (node, rest) ->
      (exists children,
          node = Node (kind_of sc) (Some value) children [] /\
          List.forallb (conforms sc) children = true /\
          List.forallb shaped_tree children = true) /\
      List.Forall (fun t => shaped (kv t) = true) rest) /\
  (forall sc ts children rest,
      List.Forall (fun t => shaped (kv t) = true) ts ->
      parse_items fuel sc ts = Ok (children, rest) ->
      List.forallb (conforms sc) children = true /\
      List.forallb shaped_tree children = true /\
      List.Forall (fun t => shaped (kv t) = true) rest).
Proof.
  induction fuel as [|fuel [IHb IHi]]; [split; intros; discriminate|].
  split.
  - intros sc value ts node rest Hts. rewrite parse_block_S.
    destruct ts as [|t ts']; [discriminate|].
    destruct (TokenType.eqb (Token.type t) OPEN_BRACE).
    2:{ intros E. injection E as <- <-. split; [|exact Hts]. now exists []. }
    destruct (parse_items fuel sc ts') as [[children rest1]|e|] eqn:Ei;
      cbn [bind]; try discriminate.
    destruct (IHi sc ts' children rest1 (List.Forall_inv_tail Hts) Ei) as (Hc & Hs & Hr).
    destruct (_consume CLOSE_BRACE (unclosed sc) rest1) as [rest'|e|] eqn:Ec;
      cbn [bind]; try discriminate.
    intros E. injection E as <- <-.
    apply consume_inv in Ec as (close & ->).
    split; [now exists children|exact (List.Forall_inv_tail Hr)].
  - intros sc ts children rest Hts. rewrite parse_items_S.
    destruct ts as [|t ts']; [discriminate|].
    destruct (TokenType.eqb (Token.type t) CLOSE_BRACE
              || TokenType.eqb (Token.type t) EOF).
    { intros E. injection E as <- <-. now repeat split. }
    pose proof (List.Forall_inv Hts) as Ht. cbv beta in Ht.
    destruct (accepts sc (Token.type t)) as [[inner|kind]|] eqn:Ea; [| |discriminate].
    + destruct (parse_block fuel inner (Token.value t) ts') as [[node rest1]|e|] eqn:Eb;
        cbn [bind]; try discriminate.
      destruct (IHb inner _ ts' node rest1 (List.Forall_inv_tail Hts) Eb)
        as ((kids & -> & Hkc & Hks) & Hr1).
      destruct (parse_items fuel sc rest1) as [[more rest2]|e|] eqn:Ei;
        cbn [bind]; try discriminate.
      destruct (IHi sc rest1 more rest2 Hr1 Ei) as (Hc & Hs & Hr).
      intros E. injection E as <- <-. repeat split; [| |exact Hr].
      * cbn [List.forallb conforms]. rewrite (accepts_block _ _ _ Ea), Ea, Hkc, Hc.
        now destruct inner.
      * cbn [List.forallb shaped_tree]. rewrite (accepts_block _ _ _ Ea), Hks, Hs.
        unfold kv in Ht. now rewrite Ht.
    + destruct (parse_items fuel sc ts') as [[more rest2]|e|] eqn:Ei;
        cbn [bind]; try discriminate.
      destruct (IHi sc ts' more rest2 (List.Forall_inv_tail Hts) Ei) as (Hc & Hs & Hr).
      intros E. injection E as <- <-. repeat split; [| |exact Hr].
      * cbn [List.forallb conforms]. rewrite (accepts_leaf _ _ _ Ea), Ea, Hc.
        now destruct kind.
      * cbn [List.forallb shaped_tree]. rewrite (accepts_leaf _ _ _ Ea), Hs.
        unfold kv in Ht. now rewrite Ht.
Qed.

Lemma significant_shaped tokens :
  List.Forall (fun t => shaped (kv t) = true) tokens ->
  List.Forall (fun t => shaped (kv t) = true) (significant tokens).
Proof.
  rewrite !List.Forall_forall. intros H t Ht. apply H.
  now apply significant_incl.
Qed.

(** A parse without error gives a message tree: the version marker and
    the items, which the grammar allows in a message. *)
Lemma parse_inv tokens ast :
  List.Forall (fun t => shaped (kv t) = true) tokens ->
  parse tokens = Some (ast, []) ->
  exists version children,
    ast = message_tree version children /\
    shaped (VERSION, version) = true /\
    List.forallb (conforms InMessage) children = true /\
    List.forallb shaped_tree children = true.
Proof.
  intros Hs. apply significant_shaped in Hs. unfold parse.
  rewrite (parse_message_eq (2 * List.length (significant tokens) + 2)
             (significant tokens) ltac:(lia)).
  destruct (significant tokens) as [|t ts]; [discriminate|].
  destruct (TokenType.eqb (Token.type t) VERSION) eqn:Ev; [|discriminate].
  destruct (_consume OPEN_BRACE _ ts) as [ts1|[e|]|] eqn:Eo; cbn [bind]; try discriminate.
  apply consume_inv in Eo as (open & ->).
  destruct (items InMessage ts1) as [[children rest]|[e|]|] eqn:Ei;
    cbn [bind]; try discriminate.
  destruct (_consume CLOSE_BRACE _ rest) as [rest'|[e|]|]; cbn [bind]; try discriminate.
  intros E. injection E as <-.
  destruct (proj2 (parse_sound _) InMessage ts1 children rest
              (List.Forall_inv_tail (List.Forall_inv_tail Hs)) Ei) as (Hc & Ht & _).
  exists (Token.value t), children. repeat split; [|exact Hc|exact Ht].
  pose proof (List.Forall_inv Hs) as H. cbv beta in H. unfold kv in H.
  destruct (Token.type t); try discriminate. exact H.
Qed.

End ParserSound.


(** ** The round trip: what lowering gives *)

Module BuildFacts.
Import Py TokenType Parser Grammar Scan Lexer RoundTrip LexerFacts PrinterFacts.
Import Spec IRBuilderFacts ParserFacts.

Ltac sigil value :=
  let b := fresh "b" in
  destruct value as [|[[] [] [] [] [] [] [] []] ?]; try discriminate; eauto.

Lemma shaped_concept value :
  shaped (CONCEPT, value) = true ->
  exists r, value = String "#" r /\ all_chars concept_char r = true.
Proof. unfold shaped; cbn [fst snd]; sigil value. Qed.

Lemma shaped_relation value :
  shaped (RELATION, value) = true ->
  exists r, value = String "~" r /\ word r = true.
Proof. unfold shaped; cbn [fst snd]; sigil value. Qed.

Lemma shaped_quantifier value :
  shaped (QUANTIFIER, value) = true ->
  exists r, value = String "$" r /\ word r = true.
Proof. unfold shaped; cbn [fst snd]; sigil value. Qed.

Lemma shaped_reference value :
  shaped (REFERENCE, value) = true ->
  exists r, value = String "^" r /\ all_chars reference_char r = true.
Proof. unfold shaped; cbn [fst snd]; sigil value. Qed.

Lemma concept_char_word c :
  concept_char c = true -> Ascii.eqb c "~" = false -> word_char c = true.
Proof. unfold concept_char, word_char. intros H E. now rewrite E, orb_false_r in H. Qed.

Lemma reference_char_segment c :
  reference_char c = true -> Ascii.eqb c "." = false -> segment_char c = true.
Proof.
  unfold reference_char, segment_char. intros H E.
  destruct (isalnum c), (Ascii.eqb c "_"), (Ascii.eqb c "#"); try reflexivity.
  now rewrite E in H.
Qed.

Lemma before_first_word s :
  all_chars concept_char s = true -> word (before_first "~" s) = true.
Proof.
  unfold word. induction s as [|c s IH]; [reflexivity|].
  cbn [all_chars before_first]. rewrite andb_true_iff. intros [Hc Hs].
  destruct (Ascii.eqb c "~") eqn:E; [reflexivity|].
  cbn [all_chars]. now rewrite (concept_char_word c Hc E), (IH Hs).
Qed.

Lemma after_first_chars p sep s remainder :
  all_chars p s = true -> after_first sep s = Some remainder ->
  all_chars p remainder = true.
Proof.
  induction s as [|c s IH]; [discriminate|].
  cbn [all_chars after_first]. rewrite andb_true_iff. intros [_ Hs].
  destruct (Ascii.eqb c sep); [now intros [= <-]|now apply IH].
Qed.

Lemma split_segments s :
  all_chars reference_char s = true -> List.forallb segment (split "." s) = true.
Proof.
  unfold segment. induction s as [|c s IH]; [reflexivity|].
  cbn [all_chars split]. rewrite andb_true_iff. intros [Hc Hs].
  specialize (IH Hs).
  destruct (Ascii.eqb c ".") eqn:E; [exact IH|].
  destruct (split "." s) as [|h t]; [cbn; now rewrite (reference_char_segment c Hc E)|].
  cbn [List.forallb all_chars] in *.
  now rewrite (reference_char_segment c Hc E).
Qed.

Lemma split_not_nil sep s : split sep s <> [].
Proof. rewrite split_first. discriminate. Qed.

(** The children of a node that lowering keeps. *)
Lemma build_children inner children :
  List.Forall
    (fun n => forall sc,
         conforms sc n = true -> shaped_tree n = true -> printable n = true ->
         renders sc (IRBuilder.build n) = true) children ->
  List.forallb (conforms inner) children = true ->
  List.forallb shaped_tree children = true ->
  List.forallb printable children = true ->
  match IRBuilder.if_any (List.map IRBuilder._build_node_ir children) with
  | Some l => nonempty l && List.forallb (renders inner) l
  | None => true
  end = true.
Proof.
  intros IH Hc Hs Hp.
  assert (H : List.forallb (renders inner)
                (List.map IRBuilder._build_node_ir children) = true).
  { rewrite List.forallb_forall. intros x Hx.
    apply List.in_map_iff in Hx as (n & <- & Hn).
    rewrite List.Forall_forall in IH. rewrite List.forallb_forall in Hc, Hs, Hp.
    apply (IH n Hn inner); auto. }
  destruct children as [|n children]; [reflexivity|exact H].
Qed.

(** Lowering a printable tree that the parser built from tokens of the
    lexer gives an item that the printer renders in full. *)
Lemma build_renders n :
  forall sc,
    conforms sc n = true -> shaped_tree n = true -> printable n = true ->
    renders sc (IRBuilder.build n) = true.
Proof.
  induction n as [k v children a IH] using ASTNode_tree_ind.
  intros sc Hc Hs Hp.
  apply conforms_inv in Hc
    as (value & ty & -> & -> & Hty & [(inner & Ha & -> & Hkids)|(Ha & ->)]).
  - cbn [shaped_tree] in Hs. rewrite Hty in Hs.
    apply andb_true_iff in Hs as [Hv Hs].
    cbn [printable] in Hp. apply andb_true_iff in Hp as [Hp Hpk].
    apply andb_true_iff in Hp as [_ Hp].
    pose proof (build_children inner children IH Hkids Hs Hpk) as Hb.
    unfold IRBuilder.build.
    destruct inner; [discriminate| | |]; cbn [kind_of tag_type] in Hty;
      injection Hty as <-.
    + (* a concept *)
      apply shaped_concept in Hv as (r & -> & Hr).
      cbn [IRBuilder._build_node_ir kind_of]. cbv beta iota zeta.
      rewrite (split_first "~" r). cbn [option_map List.hd renders].
      rewrite (before_first_word r Hr), Hb. cbn [andb]. rewrite andb_true_r.
      cbn [kind_of] in Hp.
      destruct (after_first "~" r) as [remainder|] eqn:E; [|reflexivity].
      rewrite (split_first "~" remainder).
      rewrite (before_first_word remainder (after_first_chars _ _ _ _ Hr E)).
      rewrite andb_true_r.
      destruct (before_first "~" remainder); [discriminate|reflexivity].
    + (* a relation *)
      apply shaped_relation in Hv as (r & -> & Hr).
      cbn [IRBuilder._build_node_ir kind_of renders].
      rewrite Hr, Hb. unfold allows. cbn [tag_of]. now rewrite Ha.
    + (* a quantifier *)
      apply shaped_quantifier in Hv as (r & -> & Hr).
      cbn [IRBuilder._build_node_ir kind_of renders].
      rewrite Hr, Hb. unfold allows. cbn [tag_of]. now rewrite Ha.
  - cbn [shaped_tree] in Hs. rewrite Hty in Hs.
    apply andb_true_iff in Hs as [Hv _].
    cbn [printable] in Hp. apply andb_true_iff in Hp as [Hp _].
    apply andb_true_iff in Hp as [Hp _].
    destruct k; try discriminate; cbn [tag_type] in Hty; injection Hty as <-;
      try (now destruct sc).
    apply shaped_reference in Hv as (r & -> & Hr).
    unfold IRBuilder.build. cbn [IRBuilder._build_node_ir]. cbv beta iota zeta.
    pose proof (split_segments r Hr) as Hseg.
    pose proof (split_not_nil "." r) as Hnil.
    destruct (split "." r) as [|s [|p ps]]; [contradiction| |].
    + cbn [option_map List.hd renders]. rewrite Ha.
      cbn [List.forallb] in Hseg. rewrite andb_true_r in Hseg. now rewrite Hseg.
    + cbn [option_map List.hd renders nonempty]. rewrite Ha.
      change (List.forallb segment (s :: p :: ps))
        with (segment s && List.forallb segment (p :: ps)) in Hseg.
      apply andb_true_iff in Hseg as [-> ->]. reflexivity.
Qed.

End BuildFacts.


(** ** The round trip: what the optimizer gives *)

Module CanonicalFacts.
Import Py TokenType Parser Grammar Scan Lexer RoundTrip Optimizer Spec.
Import SortFacts OptimizerFacts.

Lemma renders_not_null sc x : renders sc x = true -> is_null x = false.
Proof. now destruct x. Qed.

Lemma regroup_In x l : In x (regroup l) <-> In x l.
Proof.
  unfold regroup. rewrite !List.in_app_iff, !List.filter_In.
  destruct (is_concept x), (is_relation x); cbn; intuition.
Qed.

Lemma not_none_renders sc l :
  List.forallb (renders sc) l = true -> not_none l = l.
Proof.
  intros H. apply filter_all. intros x Hx.
  now rewrite (renders_not_null sc x (forallb_In _ _ _ H Hx)).
Qed.

(** The items of a key that the printer reads stay renderable when the
    optimizer has reordered and canonicalized them. *)
Lemma renders_reordered (f : IR -> IR) sc l l' :
  (forall x, In x l' <-> In x l) ->
  List.Forall (fun x => forall sc, renders sc x = true -> renders sc (f x) = true) l ->
  nonempty l && List.forallb (renders sc) l = true ->
  nonempty (List.map f l') && List.forallb (renders sc) (List.map f l') = true.
Proof.
  intros Hin IH H. apply andb_true_iff in H as [Hne Hl].
  apply andb_true_iff. split.
  - destruct l as [|x l]; [discriminate|].
    destruct l' as [|x' l']; [|reflexivity].
    exact (False_ind _ (proj2 (Hin x) (or_introl eq_refl))).
  - rewrite List.forallb_forall. intros y Hy.
    apply List.in_map_iff in Hy as (x & <- & Hx). apply Hin in Hx.
    rewrite List.Forall_forall in IH. apply (IH x Hx).
    exact (forallb_In _ _ _ Hl Hx).
Qed.

Section WithIdentity.
Variable object_id : IR -> Z.

Lemma opt_renders x :
  forall sc, renders sc x = true -> renders sc (_optimize_node object_id x) = true.
Proof.
  induction x as [|v c IH|i q c IH|n c IH|n c IH|s p|t v a c IH]
    using IR_tree_ind; intros sc Hr; try discriminate.
  - (* Concept *)
    destruct i as [i|]; [|discriminate]. rewrite _optimize_node_eq.
    cbn [renders] in *. apply andb_true_iff in Hr as [Hr Hc]. rewrite Hr.
    destruct c as [l|]; [|reflexivity]. cbn [option_map andb].
    pose proof Hc as Hl. apply andb_true_iff in Hl as [_ Hl].
    rewrite (not_none_renders _ l Hl).
    exact (renders_reordered _ InConcept l (regroup l)
             (fun x => regroup_In x l) IH Hc).
  - (* Relation *)
    destruct n as [n|]; [|discriminate]. rewrite _optimize_node_eq.
    cbn [renders] in *. apply andb_true_iff in Hr as [Hr Hc]. rewrite Hr.
    destruct c as [l|]; [|reflexivity]. cbn [option_map andb].
    pose proof Hc as Hl. apply andb_true_iff in Hl as [_ Hl].
    rewrite (not_none_renders _ l Hl).
    exact (renders_reordered _ InRelation l l (fun x => iff_refl _) IH Hc).
  - (* Quantifier *)
    destruct n as [n|]; [|discriminate]. rewrite _optimize_node_eq.
    cbn [renders] in *. apply andb_true_iff in Hr as [Hr Hc]. rewrite Hr.
    destruct c as [l|]; [|reflexivity]. cbn [option_map andb].
    exact (renders_reordered _ InQuantifier l l (fun x => iff_refl _) IH Hc).
  - (* Reference *)
    now rewrite _optimize_node_eq.
Qed.

Lemma opt_renders_message version content :
  renders_message (Message (Some version) content) = true ->
  exists content',
    _optimize_node object_id (Message (Some version) content)
    = Message (Some version) content' /\
    renders_message (Message (Some version) content') = true.
Proof.
  rewrite _optimize_node_eq. cbn [renders_message]. rewrite andb_true_iff.
  intros [Hv Hc]. eexists. split; [reflexivity|]. rewrite Hv. cbn [andb].
  destruct content as [l|]; [|reflexivity]. cbn [option_map].
  pose proof Hc as Hl. apply andb_true_iff in Hl as [_ Hl].
  rewrite (not_none_renders _ l Hl).
  apply (renders_reordered _ InMessage l (sort sort_key l)); [| |exact Hc].
  - intros x. apply sort_In.
  - rewrite List.Forall_forall. intros x _. apply opt_renders.
Qed.

End WithIdentity.

(** An item that the printer renders has its key, and so have the items
    below it. *)
Lemma renders_keyed x : forall sc, renders sc x = true -> has_key x && keyed x = true.
Proof.
  assert (Hkids : forall inner (c : option (list IR)),
             all_in (fun x => forall sc, renders sc x = true ->
                                has_key x && keyed x = true) c ->
             match c with
             | Some l => nonempty l && List.forallb (renders inner) l
             | None => true
             end = true ->
             match c with
             | Some l => List.forallb keyed l
             | None => true
             end = true).
  { intros inner [l|] IH Hc; [|reflexivity].
    apply andb_true_iff in Hc as [_ Hl]. cbn [all_in] in IH.
    rewrite List.Forall_forall in IH. rewrite List.forallb_forall in *.
    intros y Hy. specialize (IH y Hy inner (Hl y Hy)).
    now apply andb_true_iff in IH. }
  induction x as [|v c IH|i q c IH|n c IH|n c IH|s p|t v a c IH]
    using IR_tree_ind; intros sc Hr; try discriminate.
  - destruct i as [i|]; [|discriminate]. cbn [renders] in Hr.
    apply andb_true_iff in Hr as [_ Hc]. exact (Hkids InConcept c IH Hc).
  - destruct n as [n|]; [|discriminate]. cbn [renders] in Hr.
    apply andb_true_iff in Hr as [_ Hc]. exact (Hkids InRelation c IH Hc).
  - destruct n as [n|]; [|discriminate]. cbn [renders] in Hr.
    apply andb_true_iff in Hr as [_ Hc]. exact (Hkids InQuantifier c IH Hc).
  - reflexivity.
Qed.

Lemma renders_message_keyed x : renders_message x = true -> keyed x = true.
Proof.
  destruct x as [|[v|] [l|]| | | | |]; try discriminate; [|reflexivity].
  cbn [renders_message keyed]. rewrite !andb_true_iff. intros (_ & _ & Hl).
  rewrite List.forallb_forall in *. intros y Hy.
  exact (renders_keyed y InMessage (Hl y Hy)).
Qed.

End CanonicalFacts.

(** ** The round trip *)

Module RoundTripFacts.
Import Py TokenType Parser Grammar Scan Lexer RoundTrip Optimizer Spec.
Import ParserSound BuildFacts CanonicalFacts ReparseFacts OptimizerFacts.

Lemma shaped_version_text v :
  shaped (VERSION, v) = true -> exists version, v = "@v" +:+ version.
Proof.
  unfold shaped. cbn [fst snd].
  destruct v as [|[[] [] [] [] [] [] [] []] r]; try discriminate.
  destruct (match_version r) as [[m [|c r']]|] eqn:E; try discriminate.
  intros _. apply LexerFacts.match_version_spec in E as (major & minor & -> & E & _).
  rewrite LexerFacts.append_nil_r in E. exists (major +:+ "." +:+ minor).
  now rewrite E.
Qed.

(** Lowering the tree of a text that parsed without error gives a
    message that the printer renders in full, when the tree is
    printable. *)
Lemma build_renders_message text ast :
  parse (tokenize text) = Some (ast, []) ->
  printable ast = true ->
  exists version content,
    IRBuilder.build ast = Message (Some version) content /\
    renders_message (Message (Some version) content) = true.
Proof.
  intros Hparse Hp.
  destruct (parse_inv _ _ (tokenize_shaped text) Hparse)
    as (v & children & -> & Hv & Hc & Hs).
  unfold message_tree in *. cbn [printable] in Hp.
  cbn [List.forallb ASTNodeType.eqb negb andb printable] in Hp.
  destruct (shaped_version_text v Hv) as (version & ->).
  exists version. eexists. split.
  - unfold IRBuilder.build. cbn [IRBuilder._build_node_ir]. f_equal.
    unfold IRBuilder.message_version.
    cbn [List.filter node_type ASTNodeType.eqb node_value].
    now apply PrinterFacts.search_version_shaped.
  - cbn [renders_message]. rewrite Hv. cbn [andb List.flat_map node_type
                                             ASTNodeType.eqb app].
    assert (E : List.flat_map
                  (fun child =>
                     if ASTNodeType.eqb (node_type child) ASTNodeType.VERSION then []
                     else [IRBuilder._build_node_ir child]) children
                = List.map IRBuilder._build_node_ir children).
    { clear Hs Hp Hparse. induction children as [|n l IH]; [reflexivity|].
      cbn [List.forallb] in Hc. apply andb_true_iff in Hc as [Hn Hl].
      cbn [List.flat_map List.map]. rewrite (IH Hl).
      destruct n as [k v' c a].
      apply ParserFacts.conforms_inv in Hn as (value & ty & _ & _ & Hty & _).
      destruct k; try discriminate Hty; reflexivity. }
    rewrite E.
    apply (build_children InMessage children); [|exact Hc|exact Hs|exact Hp].
    rewrite List.Forall_forall. intros n _. apply build_renders.
Qed.




End RoundTripFacts.

(* ====================================================================== *)
(** * Further properties of the code *)

(** ** The lexer: the text and the positions of its tokens *)

Module LexerText.
Import Py TokenType Lexer Scan LexerFacts Source.

Lemma join_empty_cons x l :
  join EmptyString (x :: l) = x +:+ join EmptyString l.
Proof.
  unfold join. destruct l as [|y l]; cbn [String.concat].
  - now rewrite append_nil_r.
  - now rewrite append_nil_l.
Qed.

Lemma text_of_cons t tokens : text_of (t :: tokens) = Token.value t +:+ text_of tokens.
Proof. unfold text_of. cbn [List.map]. apply join_empty_cons. Qed.

Lemma text_of_app pre post : text_of (pre ++ post) = text_of pre +:+ text_of post.
Proof.
  induction pre as [|t pre IH]; [now rewrite append_nil_l|].
  cbn [app]. now rewrite !text_of_cons, IH, append_assoc.
Qed.

(** One turn of the loop takes the text of its token off the source. *)
Lemma next_token_text char rest line column :
  Token.value (fst (next_token char rest line column))
  +:+ fst (snd (next_token char rest line column)) = String char rest.
Proof.
  unfold next_token.
  destruct (isspace char) eqn:Esp.
  { destruct (span_spec isspace (String char rest)) as (_ & H & _).
    destruct (span isspace (String char rest)) as [ws rest'].
    now destruct (after_whitespace ws line column). }
  destruct (Ascii.eqb_spec char "@") as [->|_].
  { destruct (match_version rest) as [[version rest']|] eqn:Ev; cbn [fst snd Token.value].
    - apply match_version_spec in Ev as (major & minor & _ & -> & _).
      now rewrite !append_cons, !append_nil_l.
    - now rewrite append_cons, append_nil_l. }
  destruct (Ascii.eqb_spec char "#") as [->|_].
  { destruct (span_spec concept_char rest) as (_ & H & _).
    destruct (span concept_char rest) as [identifier rest']. cbn [fst snd Token.value] in *.
    now rewrite !append_cons, append_nil_l, H. }
  destruct (Ascii.eqb_spec char "~") as [->|_].
  { destruct (span_spec word_char rest) as (_ & H & _).
    destruct (span word_char rest) as [identifier rest']. cbn [fst snd Token.value] in *.
    now rewrite !append_cons, append_nil_l, H. }
  destruct (Ascii.eqb_spec char "$") as [->|_].
  { destruct (span_spec word_char rest) as (_ & H & _).
    destruct (span word_char rest) as [identifier rest']. cbn [fst snd Token.value] in *.
    now rewrite !append_cons, append_nil_l, H. }
  destruct (Ascii.eqb_spec char "^") as [->|_].
  { destruct (span_spec reference_char rest) as (_ & H & _).
    destruct (span reference_char rest) as [identifier rest']. cbn [fst snd Token.value] in *.
    now rewrite !append_cons, append_nil_l, H. }
  destruct (Ascii.eqb_spec char "{") as [->|_]; [reflexivity|].
  destruct (Ascii.eqb_spec char "}") as [->|_]; [reflexivity|].
  destruct (operator_char char); [reflexivity|].
  destruct (word_char char) eqn:Ew; [|reflexivity].
  destruct (span_spec word_char (String char rest)) as (_ & H & _).
  now destruct (span word_char (String char rest)) as [identifier rest'].
Qed.

Lemma tokenize_from_text fuel :
  forall s line column,
    String.length s < fuel -> text_of (tokenize_from fuel s line column) = s.
Proof.
  induction fuel as [|fuel IH]; intros s line column Hlen; [lia|].
  destruct s as [|char rest]; [reflexivity|].
  rewrite tokenize_from_S, text_of_cons.
  destruct (next_token_kv char rest line column line column) as (_ & _ & Hrest).
  cbn [String.length] in Hlen. rewrite IH by lia. apply next_token_text.
Qed.

(** X1: Lexing loses nothing: the texts of the tokens of a source, white
    space and error tokens included, joined in order, are the source. *)
Theorem tokenize_lossless (source : string) :
  text_of (tokenize source) = source.
Proof. apply tokenize_from_text. lia. Qed.

(** *** Positions *)

Lemma after_whitespace_app a b line column :
  after_whitespace (a +:+ b) line column =
  after_whitespace b (fst (after_whitespace a line column))
    (snd (after_whitespace a line column)).
Proof.
  revert line column. induction a as [|c a IH]; intros line column.
  - now rewrite append_nil_l.
  - rewrite append_cons. cbn [after_whitespace].
    destruct (Ascii.eqb c "010"); apply IH.
Qed.

(** A text without line feed moves the column on and leaves the line. *)
Lemma after_plain (p : ascii -> bool) s line column :
  p "010"%char = false -> all_chars p s = true ->
  after_whitespace s line column = (line, (column + strlen s)%Z).
Proof.
  intros Hp. revert column. induction s as [|c s IH]; intros column.
  - intros _. cbn. f_equal. unfold strlen. cbn. lia.
  - cbn [all_chars]. rewrite andb_true_iff. intros [Hc Hs].
    cbn [after_whitespace]. destruct (Ascii.eqb_spec c "010") as [->|_]; [congruence|].
    rewrite (IH _ Hs). f_equal. unfold strlen. cbn [String.length]. lia.
Qed.

Lemma after_sigil (p : ascii -> bool) (sigil : ascii) run line column :
  Ascii.eqb sigil "010" = false -> p "010"%char = false -> all_chars p run = true ->
  after_whitespace (String sigil EmptyString +:+ run) line column
  = (line, (column + 1 + strlen run)%Z).
Proof.
  intros Hs Hp Hrun. rewrite append_cons, append_nil_l. cbn [after_whitespace].
  rewrite Hs. apply (after_plain p); assumption.
Qed.

(** One turn of the loop leaves the lexer at the position after the text
    of its token. *)
Lemma next_token_position char rest line column :
  after_whitespace (Token.value (fst (next_token char rest line column))) line column
  = snd (snd (next_token char rest line column)).
Proof.
  unfold next_token.
  destruct (isspace char) eqn:Esp.
  { destruct (span isspace (String char rest)) as [ws rest'].
    destruct (after_whitespace ws line column) as [line' column'] eqn:E.
    exact E. }
  assert (Hnl : Ascii.eqb char "010" = false).
  { destruct (Ascii.eqb_spec char "010") as [->|_]; [discriminate|reflexivity]. }
  assert (Hone : after_whitespace (String char EmptyString) line column
                 = (line, (column + 1)%Z)).
  { cbn [after_whitespace]. now rewrite Hnl. }
  destruct (Ascii.eqb_spec char "@") as [->|_].
  { destruct (match_version rest) as [[version rest']|] eqn:Ev;
      cbn [fst snd Token.value]; [|exact Hone].
    apply match_version_spec in Ev
      as (major & minor & -> & _ & _ & _ & Dmaj & Dmin & _).
    apply (after_sigil (fun c => isdigit c || Ascii.eqb c "v" || Ascii.eqb c "."));
      [reflexivity|reflexivity|].
    rewrite !PrinterFacts.all_chars_app. cbn [all_chars].
    rewrite (PyFacts.all_chars_impl isdigit _ major), (PyFacts.all_chars_impl isdigit _ minor);
      try assumption; try reflexivity; intros c ->; reflexivity. }
  destruct (Ascii.eqb_spec char "#") as [->|_].
  { destruct (span_spec concept_char rest) as (H & _).
    destruct (span concept_char rest) as [identifier rest']. cbn [fst snd Token.value] in *.
    now apply (after_sigil concept_char). }
  destruct (Ascii.eqb_spec char "~") as [->|_].
  { destruct (span_spec word_char rest) as (H & _).
    destruct (span word_char rest) as [identifier rest']. cbn [fst snd Token.value] in *.
    now apply (after_sigil word_char). }
  destruct (Ascii.eqb_spec char "$") as [->|_].
  { destruct (span_spec word_char rest) as (H & _).
    destruct (span word_char rest) as [identifier rest']. cbn [fst snd Token.value] in *.
    now apply (after_sigil word_char). }
  destruct (Ascii.eqb_spec char "^") as [->|_].
  { destruct (span_spec reference_char rest) as (H & _).
    destruct (span reference_char rest) as [identifier rest']. cbn [fst snd Token.value] in *.
    now apply (after_sigil reference_char). }
  destruct (Ascii.eqb_spec char "{") as [->|_]; [reflexivity|].
  destruct (Ascii.eqb_spec char "}") as [->|_]; [reflexivity|].
  destruct (operator_char char); [exact Hone|].
  destruct (word_char char) eqn:Ew; [|exact Hone].
  destruct (span_spec word_char (String char rest)) as (H & _).
  destruct (span word_char (String char rest)) as [identifier rest'].
  cbn [fst snd Token.value] in *. now apply (after_plain word_char).
Qed.

(** The position that a token records: where the loop stood, except that
    a white-space token records the line on which it ends. *)
Lemma next_token_records char rest line column :
  let token := fst (next_token char rest line column) in
  Token.column token = column /\
  Token.line token =
  if TokenType.eqb (Token.type token) WHITESPACE
  then fst (snd (snd (next_token char rest line column)))
  else line.
Proof.
  unfold next_token.
  destruct (isspace char).
  { destruct (span isspace (String char rest)) as [ws rest'].
    now destruct (after_whitespace ws line column). }
  destruct (Ascii.eqb char "@").
  { now destruct (match_version rest) as [[version rest']|]. }
  destruct (Ascii.eqb char "#"); [now destruct (span concept_char rest)|].
  destruct (Ascii.eqb char "~"); [now destruct (span word_char rest)|].
  destruct (Ascii.eqb char "$"); [now destruct (span word_char rest)|].
  destruct (Ascii.eqb char "^"); [now destruct (span reference_char rest)|].
  destruct (Ascii.eqb char "{"); [easy|].
  destruct (Ascii.eqb char "}"); [easy|].
  destruct (operator_char char); [easy|].
  destruct (word_char char); [|easy].
  now destruct (span word_char (String char rest)).
Qed.

Lemma tokenize_from_positions fuel :
  forall s line column pre t post,
    String.length s < fuel ->
    tokenize_from fuel s line column = pre ++ t :: post ->
    Token.column t = snd (after_whitespace (text_of pre) line column) /\
    Token.line t =
    if TokenType.eqb (Token.type t) WHITESPACE
    then fst (after_whitespace (text_of pre +:+ Token.value t) line column)
    else fst (after_whitespace (text_of pre) line column).
Proof.
  induction fuel as [|fuel IH]; intros s line column pre t post Hlen E; [lia|].
  destruct s as [|char rest].
  - cbn [tokenize_from] in E. destruct pre as [|x [|y pre]]; try discriminate.
    injection E as <- _. now split.
  - rewrite tokenize_from_S in E.
    destruct (next_token_kv char rest line column line column) as (_ & _ & Hrest).
    pose proof (next_token_position char rest line column) as Hpos.
    pose proof (next_token_records char rest line column) as [Hc Hl]. cbv zeta in Hc, Hl.
    cbn [String.length] in Hlen.
    destruct pre as [|x pre]; cbn [app] in E; injection E as Ex E.
    + subst t. unfold text_of at 1 3. cbn [List.map join String.concat].
      rewrite append_nil_l. cbn [after_whitespace fst snd].
      split; [exact Hc|]. rewrite Hl, Hpos. reflexivity.
    + subst x. apply IH in E; [|lia].
      rewrite text_of_cons, append_assoc, !after_whitespace_app, Hpos.
      rewrite after_whitespace_app in E. exact E.
Qed.

(** X3: The position of a token is that of its first character in the source:
    the line and the column after the texts of the tokens before it. A
    white-space token has the column of its first character and the line of
    the character after it. *)
Theorem token_positions (source : string) (pre : list Token.t) (t : Token.t)
    (post : list Token.t) :
  tokenize source = pre ++ t :: post ->
  Token.column t = snd (position_after (text_of pre)) /\
  Token.line t =
  if TokenType.eqb (Token.type t) WHITESPACE
  then fst (position_after (text_of pre +:+ Token.value t))
  else fst (position_after (text_of pre)).
Proof. apply tokenize_from_positions. lia. Qed.

Lemma token_positions_witness :
  let t := Token.mk CONCEPT "#b" 2 3 in
  Token.column t = snd (position_after "#a
  ") /\
  Token.line t = fst (position_after "#a
  ").
Proof.
  apply (token_positions "#a
  #b" [Token.mk CONCEPT "#a" 1 1; Token.mk WHITESPACE "
  " 2 3] (Token.mk CONCEPT "#b" 2 3) [Token.mk EOF "" 2 5]).
  reflexivity.
Defined.

(** *** The end of the token list *)

(** A turn of the loop adds a token that is not the end-of-file token and
    has a text. *)
Lemma next_token_proper char rest line column :
  Token.type (fst (next_token char rest line column)) <> EOF /\
  Token.value (fst (next_token char rest line column)) <> EmptyString.
Proof.
  unfold next_token.
  destruct (isspace char) eqn:Esp.
  { cbn [span]. rewrite Esp. destruct (span isspace rest) as [ws rest'].
    now destruct (after_whitespace (String char ws) line column). }
  destruct (Ascii.eqb char "@").
  { now destruct (match_version rest) as [[version rest']|]. }
  destruct (Ascii.eqb char "#"); [now destruct (span concept_char rest)|].
  destruct (Ascii.eqb char "~"); [now destruct (span word_char rest)|].
  destruct (Ascii.eqb char "$"); [now destruct (span word_char rest)|].
  destruct (Ascii.eqb char "^"); [now destruct (span reference_char rest)|].
  destruct (Ascii.eqb char "{"); [easy|].
  destruct (Ascii.eqb char "}"); [easy|].
  destruct (operator_char char); [easy|].
  destruct (word_char char) eqn:Ew; [|easy].
  cbn [span]. rewrite Ew. now destruct (span word_char rest).
Qed.

Lemma tokenize_from_end fuel :
  forall s line column,
    String.length s < fuel ->
    exists tokens,
      tokenize_from fuel s line column
      = tokens ++ [Token.mk EOF EmptyString
                     (fst (after_whitespace s line column))
                     (snd (after_whitespace s line column))] /\
      List.Forall (fun t => Token.type t <> EOF /\ Token.value t <> EmptyString) tokens.
Proof.
  induction fuel as [|fuel IH]; intros s line column Hlen; [lia|].
  destruct s as [|char rest].
  - exists []. split; [reflexivity|constructor].
  - rewrite tokenize_from_S.
    destruct (next_token_kv char rest line column line column) as (_ & _ & Hrest).
    cbn [String.length] in Hlen.
    destruct (IH (fst (snd (next_token char rest line column)))
                (fst (snd (snd (next_token char rest line column))))
                (snd (snd (snd (next_token char rest line column))))
                ltac:(lia)) as (tokens & -> & Hall).
    exists (fst (next_token char rest line column) :: tokens). split.
    + assert (E : after_whitespace (String char rest) line column
                  = after_whitespace (fst (snd (next_token char rest line column)))
                      (fst (snd (snd (next_token char rest line column))))
                      (snd (snd (snd (next_token char rest line column))))).
      { rewrite <- (next_token_text char rest line column) at 1.
        now rewrite after_whitespace_app, next_token_position. }
      now rewrite E.
    + constructor; [apply next_token_proper|exact Hall].
Qed.

(** X2: The token list of every source ends in the end-of-file token, which
    has no text and stands at the position after the whole source; every
    token before it is of another kind and has a text. *)
Theorem tokenize_ends_with_eof (source : string) :
  exists tokens,
    tokenize source
    = tokens ++ [Token.mk EOF EmptyString
                   (fst (position_after source)) (snd (position_after source))] /\
    List.Forall (fun t => Token.type t <> EOF /\ Token.value t <> EmptyString) tokens.
Proof. apply tokenize_from_end. lia. Qed.

End LexerText.

(** ** The parser: the trees it builds *)

Module ParserShape.
Import TokenType Parser ParserFuel Grammar ParserFacts Spec Shape.

Lemma consume_tail ty msg ts rest :
  _consume ty msg ts = Ok rest -> exists t, ts = t :: rest.
Proof.
  destruct ts as [|t ts]; [discriminate|].
  unfold _consume, _check, _is_at_end, bind, _error.
  destruct (TokenType.eqb (Token.type t) EOF); [discriminate|].
  destruct (TokenType.eqb (Token.type t) ty); [|discriminate].
  cbn [List.tl]. intros E. injection E as <-. now exists t.
Qed.

(** The loops build what the grammar allows, whatever the tokens are. *)
Lemma parse_conforms fuel :
  (forall sc value ts node rest,
      parse_block fuel sc value ts = Ok (node, rest) ->
      exists children,
        node = Node (kind_of sc) (Some value) children [] /\
        List.forallb (conforms sc) children = true) /\
  (forall sc ts children rest,
      parse_items fuel sc ts = Ok (children, rest) ->
      List.forallb (conforms sc) children = true).
Proof.
  induction fuel as [|fuel [IHb IHi]]; [split; intros; discriminate|].
  split.
  - intros sc value ts node rest. rewrite parse_block_S.
    destruct ts as [|t ts']; [discriminate|].
    destruct (TokenType.eqb (Token.type t) OPEN_BRACE).
    2:{ intros E. injection E as <- <-. now exists []. }
    destruct (parse_items fuel sc ts') as [[children rest1]|e|] eqn:Ei;
      cbn [bind]; try discriminate.
    destruct (_consume CLOSE_BRACE (unclosed sc) rest1) as [rest'|e|];
      cbn [bind]; try discriminate.
    intros E. injection E as <- <-. exists children. split; [reflexivity|].
    exact (IHi sc ts' children rest1 Ei).
  - intros sc ts children rest. rewrite parse_items_S.
    destruct ts as [|t ts']; [discriminate|].
    destruct (TokenType.eqb (Token.type t) CLOSE_BRACE
              || TokenType.eqb (Token.type t) EOF).
    { intros E. now injection E as <- <-. }
    destruct (accepts sc (Token.type t)) as [[inner|kind]|] eqn:Ea; [| |discriminate].
    + destruct (parse_block fuel inner (Token.value t) ts') as [[node rest1]|e|] eqn:Eb;
        cbn [bind]; try discriminate.
      destruct (IHb inner _ ts' node rest1 Eb) as (kids & -> & Hkids).
      destruct (parse_items fuel sc rest1) as [[more rest2]|e|] eqn:Ei;
        cbn [bind]; try discriminate.
      intros E. injection E as <- <-.
      cbn [List.forallb conforms].
      rewrite (ParserSound.accepts_block _ _ _ Ea), Ea, Hkids, (IHi sc rest1 more rest2 Ei).
      now destruct inner.
    + destruct (parse_items fuel sc ts') as [[more rest2]|e|] eqn:Ei;
        cbn [bind]; try discriminate.
      intros E. injection E as <- <-.
      cbn [List.forallb conforms].
      rewrite (ParserSound.accepts_leaf _ _ _ Ea), Ea, (IHi sc ts' more rest2 Ei).
      now destruct kind.
Qed.

(** A parse without error: the message tree of the version marker's text
    and of items that the grammar allows in a message. *)
Lemma parse_message_tree tokens ast :
  parse tokens = Some (ast, []) ->
  exists version children,
    ast = message_tree version children /\
    List.forallb (conforms InMessage) children = true.
Proof.
  unfold parse.
  rewrite (parse_message_eq (2 * List.length (significant tokens) + 2)
             (significant tokens) ltac:(lia)).
  destruct (significant tokens) as [|t ts]; [discriminate|].
  destruct (TokenType.eqb (Token.type t) VERSION); [|discriminate].
  destruct (_consume OPEN_BRACE _ ts) as [ts1|[e|]|]; cbn [bind]; try discriminate.
  destruct (items InMessage ts1) as [[children rest]|[e|]|] eqn:Ei;
    cbn [bind]; try discriminate.
  destruct (_consume CLOSE_BRACE _ rest) as [rest'|[e|]|]; cbn [bind]; try discriminate.
  intros E. injection E as <-.
  exists (Token.value t), children. split; [reflexivity|].
  exact (proj2 (parse_conforms _) InMessage ts1 children rest Ei).
Qed.

Lemma conforms_kind sc n :
  conforms sc n = true -> In (node_type n) (child_kinds (kind_of sc)).
Proof.
  destruct n as [k v children a]. intros H.
  apply conforms_inv in H as (value & ty & _ & _ & Hty & [(inner & Ha & -> & _)|(Ha & _)]).
  - destruct sc, inner; cbn in Hty; try discriminate; injection Hty as <-; cbn in Ha;
      try discriminate; cbn; tauto.
  - destruct sc, k; cbn in Hty; try discriminate; injection Hty as <-; cbn in Ha;
      try discriminate; cbn; tauto.
Qed.

Lemma conforms_children sc k v children a :
  conforms sc (Node k v children a) = true ->
  exists inner, k = kind_of inner /\ List.forallb (conforms inner) children = true
  \/ children = [].
Proof.
  intros H.
  apply conforms_inv in H as (value & ty & _ & _ & Hty & [(inner & Ha & -> & Hc)|(Ha & ->)]).
  - exists inner. now left.
  - exists InMessage. now right.
Qed.

(** In a tree that the grammar allows, every node has children of the
    kinds its own kind takes. *)
Lemma conforms_child_kinds n :
  forall sc, conforms sc n = true ->
  forall m, In m (subnodes n) ->
  forall c, In c (node_children m) -> In (node_type c) (child_kinds (node_type m)).
Proof.
  induction n as [k v children a IH] using ASTNode_tree_ind.
  intros sc Hn m Hm c Hc. cbn [subnodes] in Hm.
  destruct (conforms_children sc k v children a Hn) as (inner & [(-> & Hkids)| ->]).
  - destruct Hm as [<-|Hm].
    + cbn [node_children node_type] in *.
      apply (conforms_kind inner). exact (proj1 (List.forallb_forall _ _) Hkids c Hc).
    + apply List.in_flat_map in Hm as (child & Hchild & Hm).
      rewrite List.Forall_forall in IH.
      exact (IH child Hchild inner (proj1 (List.forallb_forall _ _) Hkids child Hchild)
                m Hm c Hc).
  - destruct Hm as [<-|[]]. destruct Hc.
Qed.

(** X4: The tree of a parse without error is a message whose first child is
    the version node; in it, every node has children of the kinds its own
    kind takes only: a relation has no quantifier below it, a quantifier no
    relation and no reference, a property stands in a quantifier only, and a
    reference, a property and the version node have no children. *)
Theorem parse_child_kinds (tokens : list Token.t) (ast : ASTNode) :
  parse tokens = Some (ast, []) ->
  (exists version items,
      ast = Node ASTNodeType.MESSAGE None
              (Node ASTNodeType.VERSION (Some version) [] [] :: items) []) /\
  forall node, In node (subnodes ast) ->
  forall child, In child (node_children node) ->
  In (node_type child) (child_kinds (node_type node)).
Proof.
  intros Hp. apply parse_message_tree in Hp as (version & children & -> & Hc).
  split; [now exists version, children|].
  intros m Hm c Hcm. unfold message_tree in Hm. cbn [subnodes List.flat_map] in Hm.
  destruct Hm as [<-|[<-|Hm]].
  - cbn [node_children node_type] in *. destruct Hcm as [<-|Hcm]; [cbn; tauto|].
    apply (conforms_kind InMessage). exact (proj1 (List.forallb_forall _ _) Hc c Hcm).
  - destruct Hcm.
  - cbn [app] in Hm. apply List.in_flat_map in Hm as (child & Hchild & Hm).
    exact (conforms_child_kinds child InMessage
             (proj1 (List.forallb_forall _ _) Hc child Hchild) m Hm c Hcm).
Qed.

Lemma parse_child_kinds_witness :
  List.Forall
    (fun node =>
       List.Forall
         (fun child => In (node_type child) (child_kinds (node_type node)))
         (node_children node))
    (subnodes (message_tree "@v1.0"
                 [Node ASTNodeType.QUANTIFIER (Some "$all")
                    [Node ASTNodeType.PROPERTY (Some "x") [] []] []])).
Proof.
  apply List.Forall_forall. intros node Hnode.
  apply List.Forall_forall. intros child Hchild.
  revert node Hnode child Hchild.
  apply (parse_child_kinds (Lexer.tokenize "@v1.0{$all{x}}")). reflexivity.
Defined.



End ParserShape.

(** ** Semantic analysis of a parsed text *)

Module SemanticErrors.
Import Py PyFacts ASTNodeType SemanticAnalyzer Spec Grammar RoundTrip Checks.
Import SemanticFacts.
Import (notations) Parser.

Lemma analyze_errors cs node :
  fst (_analyze_node cs node) =
  List.flat_map (fun n => fst (own_report cs n)) (subnodes node).
Proof.
  induction node as [type value children attributes IH] using ASTNode_tree_ind.
  rewrite analyze_node_unfold, fold_left_both. cbn [fst subnodes List.flat_map].
  f_equal. rewrite flat_map_flat_map.
  induction IH as [|c cs' Hc _ IHl]; simpl; [reflexivity|].
  now rewrite Hc, IHl.
Qed.

Lemma check_concept_no_error cs node : fst (_check_concept cs node) = [].
Proof.
  unfold _check_concept. destruct (node_value node) as [value|]; [|reflexivity].
  destruct (truthy (Some value) && startswith value "#c" && negb (contains "~" value));
    [|reflexivity].
  now destruct ((0 <? size cs)%nat
                && negb (bool_decide (is_Some (cs !! drop 1 value)))).
Qed.

(** The errors of [_check_reference] on the text of a reference token. *)
Lemma check_reference_errors r children attributes :
  fst (_check_reference (Node REFERENCE (Some (String "^" r)) children attributes))
  = if prev_ok (first_segment (String "^" r)) then []
    else ["Invalid prev index: " +:+ first_segment (String "^" r)].
Proof.
  unfold _check_reference, prev_ok, first_segment.
  cbn [node_value truthy negb]. change (drop 1 (String "^" r)) with r.
  rewrite (startswith_cons "^" EmptyString "^" r), startswith_nil.
  cbn [Ascii.eqb Bool.eqb andb negb]. pose proof (BuildFacts.split_not_nil "." r) as Hnil.
  destruct (split "." r) as [|segment parts]; [contradiction|]. cbn [List.hd].
  destruct (String.eqb segment "self" || String.eqb segment "shared"
            || startswith segment "prev");
    destruct (startswith segment "prev"); cbn [negb orb];
    destruct (str_isdigit (drop 4 segment)); reflexivity.
Qed.

(** The nodes of a tree that the parser built from tokens of the lexer
    are such trees themselves. *)
Lemma lexed_subnodes n :
  forall sc, conforms sc n = true -> shaped_tree n = true ->
  forall m, In m (subnodes n) ->
  exists sc', conforms sc' m = true /\ shaped_tree m = true.
Proof.
  induction n as [k v children a IH] using ASTNode_tree_ind.
  intros sc Hc Hs m Hm. cbn [subnodes] in Hm. destruct Hm as [<-|Hm]; [now exists sc|].
  apply List.in_flat_map in Hm as (child & Hchild & Hm).
  rewrite List.Forall_forall in IH.
  cbn [shaped_tree] in Hs. apply andb_true_iff in Hs as [_ Hs].
  destruct (ParserShape.conforms_children sc k v children a Hc)
    as (inner & [(-> & Hkids)| ->]); [|destruct Hchild].
  exact (IH child Hchild inner (proj1 (List.forallb_forall _ _) Hkids child Hchild)
            (proj1 (List.forallb_forall _ _) Hs child Hchild) m Hm).
Qed.

(** The errors of a node's own check, for such a tree: that of a reference
    whose first segment begins with [prev] and does not go on with digits
    only. *)
Lemma own_errors_lexed cs sc m e :
  conforms sc m = true -> shaped_tree m = true ->
  In e (fst (own_report cs m)) <->
  node_type m = REFERENCE /\
  exists value,
    node_value m = Some value /\ prev_ok (first_segment value) = false /\
    e = "Invalid prev index: " +:+ first_segment value.
Proof.
  destruct m as [k v children a]. intros Hc Hs.
  apply ParserFacts.conforms_inv in Hc as (value & ty & -> & -> & Hty & _).
  cbn [shaped_tree] in Hs. rewrite Hty in Hs. apply andb_true_iff in Hs as [Hv _].
  unfold own_report. cbn [node_type node_value].
  destruct k; cbn [tag_type] in Hty; try discriminate; injection Hty as <-.
  - rewrite check_concept_no_error. split; [intros []|intros [? _]; discriminate].
  - split; [intros []|intros [? _]; discriminate].
  - split; [intros []|intros [? _]; discriminate].
  - apply BuildFacts.shaped_reference in Hv as (r & -> & _).
    rewrite check_reference_errors.
    destruct (prev_ok (first_segment (String "^" r))) eqn:E.
    + split; [intros []|]. intros (_ & value & [= <-] & H & _). congruence.
    + split.
      * intros [<-|[]]. split; [reflexivity|]. now exists (String "^" r).
      * intros (_ & value & [= <-] & _ & ->). now left.
  - split; [intros []|intros [? _]; discriminate].
Qed.

Lemma message_own_errors cs version children :
  fst (own_report cs (message_tree version children)) = [].
Proof.
  unfold own_report, message_tree, _check_message_structure.
  cbn [node_type node_children List.filter ASTNodeType.eqb negb].
  now destruct (List.filter _ children).
Qed.

Lemma parsed_errors (cs : Registry.concepts) (text : string)
    (ast : ASTNode) (e : string) :
  Parser.parse (Lexer.tokenize text) = Some (ast, []) ->
  In e (fst (analyze cs ast)) <->
  exists node value,
    In node (subnodes ast) /\ node_type node = REFERENCE /\
    node_value node = Some value /\ prev_ok (first_segment value) = false /\
    e = "Invalid prev index: " +:+ first_segment value.
Proof.
  intros Hp.
  destruct (ParserSound.parse_inv _ _ (ParserSound.tokenize_shaped text) Hp)
    as (version & children & -> & Hv & Hc & Hs).
  unfold analyze. rewrite analyze_errors, List.in_flat_map.
  assert (Hsub : forall m, In m (subnodes (message_tree version children)) ->
            m = message_tree version children \/
            m = Node VERSION (Some version) [] [] \/
            exists sc, conforms sc m = true /\ shaped_tree m = true).
  { intros m Hm. unfold message_tree in Hm. cbn [subnodes List.flat_map app] in Hm.
    destruct Hm as [<-|[<-|Hm]]; [now left|now right; left|]. right; right.
    apply List.in_flat_map in Hm as (child & Hchild & Hm).
    exact (lexed_subnodes child Parser.InMessage
             (proj1 (List.forallb_forall _ _) Hc child Hchild)
             (proj1 (List.forallb_forall _ _) Hs child Hchild) m Hm). }
  split.
  - intros (m & Hm & He). destruct (Hsub m Hm) as [->|[->|(sc & Hcm & Hsm)]];
      [now rewrite message_own_errors in He|destruct He|].
    apply (own_errors_lexed cs sc m e Hcm Hsm) in He as (Ht & value & H).
    now exists m, value.
  - intros (m & value & Hm & Ht & H). exists m. split; [exact Hm|].
    destruct (Hsub m Hm) as [->|[->|(sc & Hcm & Hsm)]]; try discriminate.
    apply (own_errors_lexed cs sc m e Hcm Hsm). split; [exact Ht|]. now exists value.
Qed.

(** X6: The semantic errors of a text that parsed: the invalid [prev] indices
    of its references, and nothing else. The other errors that the checks
    can report (no version marker, a reference without text or without its
    sigil) do not occur on a tree that the parser built from the tokens of
    a text. *)
Theorem analyze_parsed_errors (cs : Registry.concepts) (text : string)
    (ast : ASTNode) (e : string) :
  Parser.parse (Lexer.tokenize text) = Some (ast, []) ->
  In e (fst (analyze cs ast)) <->
  exists node value,
    In node (subnodes ast) /\ node_type node = REFERENCE /\
    node_value node = Some value /\ prev_ok (first_segment value) = false /\
    e = "Invalid prev index: " +:+ first_segment value.
Proof. apply parsed_errors. Qed.

Lemma analyze_parsed_errors_witness :
  In "Invalid prev index: prevx"
     (fst (analyze Registry.default_concepts
             (message_tree "@v1.0" [Node REFERENCE (Some "^prevx.a") [] []]))).
Proof.
  apply (analyze_parsed_errors Registry.default_concepts "@v1.0{^prevx.a}");
    [reflexivity|].
  exists (Node REFERENCE (Some "^prevx.a") [] []), "^prevx.a".
  repeat split; try reflexivity. cbn. tauto.
Defined.

End SemanticErrors.

(** ** The compiler: its outcomes, and its output compiled again *)

Module CompileFacts.
Import Py PyFacts ASTNodeType SemanticAnalyzer Spec Grammar RoundTrip Checks.
Import SemanticFacts SemanticErrors Optimizer OptimizerFacts LLMCLCompiler.

Lemma flat_map_nil {A B} (f : A -> list B) l :
  List.flat_map f l = [] <-> forall x, In x l -> f x = [].
Proof.
  induction l as [|y l IH]; cbn [List.flat_map]; [easy|].
  split.
  - intros H. apply app_eq_nil in H as [Hy Hl]. intros x [<-|Hx]; [exact Hy|].
    now apply IH.
  - intros H. rewrite (H y (or_introl eq_refl)). apply IH. intros x Hx. apply H. now right.
Qed.

Lemma refs_ok_if_any l :
  List.forallb refs_ok l = true ->
  match IRBuilder.if_any l with
  | Some l' => List.forallb refs_ok l'
  | None => true
  end = true.
Proof. now destruct l. Qed.

(** Lowering a tree without semantic error gives references whose first
    segments are without error. *)
Lemma build_refs_ok cs n :
  forall sc,
    conforms sc n = true -> shaped_tree n = true ->
    (forall m, In m (subnodes n) -> fst (own_report cs m) = []) ->
    refs_ok (IRBuilder.build n) = true.
Proof.
  induction n as [k v children a IH] using ASTNode_tree_ind.
  intros sc Hc Hs Herr.
  assert (Hkids : forall inner,
             List.forallb (conforms inner) children = true ->
             match IRBuilder.if_any (List.map IRBuilder._build_node_ir children) with
             | Some l' => List.forallb refs_ok l'
             | None => true
             end = true).
  { intros inner Hk. apply refs_ok_if_any. rewrite List.forallb_forall.
    intros x Hx. apply List.in_map_iff in Hx as (child & <- & Hchild).
    rewrite List.Forall_forall in IH.
    cbn [shaped_tree] in Hs. apply andb_true_iff in Hs as [_ Hs].
    apply (IH child Hchild inner).
    - exact (proj1 (List.forallb_forall _ _) Hk child Hchild).
    - exact (proj1 (List.forallb_forall _ _) Hs child Hchild).
    - intros m Hm. apply Herr. cbn [subnodes]. right.
      apply List.in_flat_map. now exists child. }
  pose proof (Herr _ (or_introl eq_refl : In _ (subnodes (Node k v children a)))) as Hown.
  apply ParserFacts.conforms_inv in Hc
    as (value & ty & -> & -> & Hty & [(inner & Ha & -> & Hk)|(Ha & ->)]).
  - specialize (Hkids inner Hk). unfold IRBuilder.build.
    destruct inner; [discriminate| | |]; exact Hkids.
  - cbn [shaped_tree] in Hs. rewrite Hty in Hs. apply andb_true_iff in Hs as [Hv _].
    destruct k; cbn [tag_type] in Hty; try discriminate; injection Hty as <-;
      try reflexivity; try (now destruct sc).
    apply BuildFacts.shaped_reference in Hv as (r & -> & _).
    unfold own_report in Hown. cbn [node_type] in Hown.
    rewrite check_reference_errors in Hown.
    unfold IRBuilder.build. cbn [IRBuilder._build_node_ir option_map refs_ok].
    change (List.hd EmptyString (split "." r)) with (first_segment (String "^" r)).
    now destruct (prev_ok (first_segment (String "^" r))).
Qed.

Section WithIdentity.
Variable object_id : IR -> Z.

Lemma refs_ok_reordered l l' :
  (forall x, In x l' -> In x l) ->
  List.Forall (fun x => refs_ok x = true -> refs_ok (_optimize_node object_id x) = true) l ->
  List.forallb refs_ok l = true ->
  List.forallb refs_ok (List.map (_optimize_node object_id) l') = true.
Proof.
  intros Hin IH Hl. rewrite List.forallb_forall. intros y Hy.
  apply List.in_map_iff in Hy as (x & <- & Hx). apply Hin in Hx.
  rewrite List.Forall_forall in IH. apply (IH x Hx).
  exact (proj1 (List.forallb_forall _ _) Hl x Hx).
Qed.

Lemma not_none_In x l : In x (not_none l) -> In x l.
Proof. unfold not_none. rewrite List.filter_In. tauto. Qed.

Lemma opt_refs_ok x :
  refs_ok x = true -> refs_ok (_optimize_node object_id x) = true.
Proof.
  induction x as [|v c IH|i q c IH|n c IH|n c IH|s p|t v a c IH]
    using IR_tree_ind; intros Hr; rewrite _optimize_node_eq; try exact Hr.
  - destruct c as [l|]; [|reflexivity]. cbn [option_map refs_ok] in *.
    apply (refs_ok_reordered l); [|exact IH|exact Hr].
    intros x Hx. apply (proj1 (SortFacts.sort_In sort_key x _)) in Hx.
    now apply not_none_In.
  - destruct c as [l|]; [|reflexivity]. cbn [option_map refs_ok] in *.
    apply (refs_ok_reordered l); [|exact IH|exact Hr].
    intros x Hx. apply (proj1 (CanonicalFacts.regroup_In x _)) in Hx.
    now apply not_none_In.
  - destruct c as [l|]; [|reflexivity]. cbn [option_map refs_ok] in *.
    apply (refs_ok_reordered l); [|exact IH|exact Hr].
    intros x Hx. now apply not_none_In.
  - destruct c as [l|]; [|reflexivity]. cbn [option_map refs_ok] in *.
    now apply (refs_ok_reordered l).
  - cbn [refs_ok] in *. now apply (refs_ok_reordered c).
Qed.

End WithIdentity.

(** The tree that a printed item spells has no semantic error when the
    item's references have none. *)
Lemma unbuild_no_errors cs x :
  forall sc,
    renders sc x = true -> refs_ok x = true ->
    fst (_analyze_node cs (unbuild x)) = [].
Proof.
  assert (Hkids : forall inner (c : option (list IR)),
             all_in (fun x => forall sc, renders sc x = true -> refs_ok x = true ->
                                fst (_analyze_node cs (unbuild x)) = []) c ->
             match c with
             | Some l => nonempty l && List.forallb (renders inner) l
             | None => true
             end = true ->
             match c with Some l => List.forallb refs_ok l | None => true end = true ->
             List.flat_map fst
               (List.map (_analyze_node cs)
                  (match c with Some l => List.map unbuild l | None => [] end)) = []).
  { intros inner [l|] IH Hc Hr; [|reflexivity].
    apply andb_true_iff in Hc as [_ Hl]. cbn [all_in] in IH.
    rewrite List.Forall_forall in IH. apply flat_map_nil. intros r Hin.
    apply List.in_map_iff in Hin as (n & <- & Hn).
    apply List.in_map_iff in Hn as (y & <- & Hy).
    apply (IH y Hy inner).
    - exact (proj1 (List.forallb_forall _ _) Hl y Hy).
    - exact (proj1 (List.forallb_forall _ _) Hr y Hy). }
  induction x as [|v c IH|i q c IH|n c IH|n c IH|s p|t v a c IH]
    using IR_tree_ind; intros sc Hr Hok; try discriminate.
  - destruct i as [i|]; [|discriminate]. cbn [renders] in Hr.
    apply andb_true_iff in Hr as [_ Hc]. cbn [unbuild].
    rewrite analyze_node_unfold, fold_left_both. cbn [fst].
    unfold own_report at 1. cbn [node_type]. rewrite check_concept_no_error.
    exact (Hkids Parser.InConcept c IH Hc Hok).
  - destruct n as [n|]; [|discriminate]. cbn [renders] in Hr.
    apply andb_true_iff in Hr as [_ Hc]. cbn [unbuild].
    rewrite analyze_node_unfold, fold_left_both. cbn [fst].
    exact (Hkids Parser.InRelation c IH Hc Hok).
  - destruct n as [n|]; [|discriminate]. cbn [renders] in Hr.
    apply andb_true_iff in Hr as [_ Hc]. cbn [unbuild].
    rewrite analyze_node_unfold, fold_left_both. cbn [fst].
    exact (Hkids Parser.InQuantifier c IH Hc Hok).
  - destruct s as [s|]; [|discriminate]. cbn [renders] in Hr.
    apply andb_true_iff in Hr as [Hr Hp]. apply andb_true_iff in Hr as [_ Hs].
    cbn [refs_ok] in Hok.
    assert (E : exists r, unbuild (Reference (Some s) p)
                          = Node REFERENCE (Some (String "^" r)) [] [] /\
                          first_segment (String "^" r) = s).
    { cbn [unbuild]. destruct p as [[|x l]|].
      - discriminate.
      - exists (s +:+ String "." (join "." (x :: l))). split; [reflexivity|].
        unfold first_segment. change (drop 1 (String "^" ?r)) with r.
        now rewrite (UnbuildFacts.split_app "." s _ (UnbuildFacts.segment_no_separator s Hs)).
      - exists s. split; [reflexivity|].
        unfold first_segment. change (drop 1 (String "^" ?r)) with r.
        now rewrite (UnbuildFacts.split_whole "." s (UnbuildFacts.segment_no_separator s Hs)). }
    destruct E as (r & -> & Efirst).
    rewrite analyze_node_unfold, fold_left_both. cbn [fst List.map List.flat_map].
    rewrite app_nil_r. unfold own_report. cbn [node_type].
    now rewrite check_reference_errors, Efirst, Hok.
Qed.

Lemma message_no_errors cs version l :
  List.forallb (renders Parser.InMessage) l = true ->
  List.forallb refs_ok l = true ->
  fst (analyze cs (message_tree version (List.map unbuild l))) = [].
Proof.
  intros Hl Hok. unfold analyze, message_tree.
  rewrite analyze_node_unfold, fold_left_both. cbn [fst].
  fold (message_tree version (List.map unbuild l)). rewrite message_own_errors.
  cbn [app List.map List.flat_map]. apply flat_map_nil. intros r Hin.
  apply List.in_map_iff in Hin as (n & <- & Hn).
  apply List.in_map_iff in Hn as (y & <- & Hy).
  apply (unbuild_no_errors cs y Parser.InMessage).
  - exact (proj1 (List.forallb_forall _ _) Hl y Hy).
  - exact (proj1 (List.forallb_forall _ _) Hok y Hy).
Qed.

Lemma build_message_refs_ok cs text ast :
  Parser.parse (Lexer.tokenize text) = Some (ast, []) ->
  fst (analyze cs ast) = [] ->
  refs_ok (IRBuilder.build ast) = true.
Proof.
  intros Hp Herr.
  destruct (ParserSound.parse_inv _ _ (ParserSound.tokenize_shaped text) Hp)
    as (version & children & -> & Hv & Hc & Hs).
  unfold analyze in Herr. rewrite analyze_errors in Herr.
  pose proof (proj1 (flat_map_nil _ _) Herr) as Hown. cbv beta in Hown.
  unfold IRBuilder.build, message_tree. cbn [IRBuilder._build_node_ir refs_ok].
  apply refs_ok_if_any. rewrite List.forallb_forall. intros x Hx.
  apply List.in_flat_map in Hx as (child & Hchild & Hx).
  destruct Hchild as [<-|Hchild]; [destruct Hx|].
  destruct (ASTNodeType.eqb (node_type child) VERSION); [destruct Hx|].
  destruct Hx as [<-|[]].
  apply (build_refs_ok cs child Parser.InMessage).
  - exact (proj1 (List.forallb_forall _ _) Hc child Hchild).
  - exact (proj1 (List.forallb_forall _ _) Hs child Hchild).
  - intros m Hm. apply Hown. unfold message_tree. cbn [subnodes List.flat_map].
    right. right. apply List.in_flat_map. now exists child.
Qed.

(** X12: [compile] on any source returns one of three things: success, with
    the text printed for the canonicalized lowering of the parsed tree and
    the warnings of the analysis; failure with the semantic errors joined by
    line feeds, every one of them an invalid [prev] index; or failure with
    the one error of the parser, at a token of the source, twice on two
    lines and without warnings. It never fails in the lexer and never with
    the [IndexError] of reading past the last token. *)
Theorem compile_outcomes (object_id : IR -> Z) (source : string)
    (cs : Registry.concepts) :
  (exists ast,
      Parser.parse (Lexer.tokenize source) = Some (ast, []) /\
      fst (analyze cs ast) = [] /\
      compile object_id source cs
      = Some (true,
              CodeGenerator.generate (optimize object_id (IRBuilder.build ast)),
              snd (analyze cs ast))) \/
  (exists ast,
      Parser.parse (Lexer.tokenize source) = Some (ast, []) /\
      fst (analyze cs ast) <> [] /\
      List.Forall (fun e => exists segment, e = "Invalid prev index: " +:+ segment)
        (fst (analyze cs ast)) /\
      compile object_id source cs
      = Some (false, join CodeGenerator.newline (fst (analyze cs ast)),
              snd (analyze cs ast))) \/
  (exists bad reason,
      In bad (Lexer.tokenize source) /\
      compile object_id source cs
      = Some (false,
              Parser.error_at bad reason +:+ CodeGenerator.newline
              +:+ Parser.error_at bad reason, [])).
Proof.
  unfold compile.
  destruct (ParserFacts.parse_outcomes (Lexer.tokenize source)
              (ParserSound.tokenize_has_eof source))
    as [(children & Hp)|(bad & reason & Hin & Hrej)].
  - rewrite Hp.
    pose proof (fun e => parsed_errors cs source _ e Hp) as Herr.
    destruct (analyze cs (Node MESSAGE None children [])) as [errors warnings] eqn:Ea.
    destruct errors as [|e errors]; [left|right; left];
      exists (Node MESSAGE None children []); rewrite Ea; cbn [fst snd] in *.
    + now repeat split.
    + repeat split; [discriminate|].
      rewrite List.Forall_forall. intros e' He'.
      apply Herr in He' as (node & value & _ & _ & _ & _ & ->). eauto.
  - right. right. exists bad, reason. split; [exact Hin|].
    unfold rejected in Hrej. now rewrite Hrej.
Qed.

(** X13: The output of a successful compilation compiles again, to itself:
    for a source whose tree has no property identifier and no concept with
    an empty qualifier, [compile] succeeds on its own output and returns
    that output unchanged. *)
Theorem compile_fixed_point (object_id : IR -> Z) (cs : Registry.concepts)
    (source : string) (ast : ASTNode) (output : string) (warnings : list string) :
  Parser.parse (Lexer.tokenize source) = Some (ast, []) ->
  printable ast = true ->
  compile object_id source cs = Some (true, output, warnings) ->
  exists warnings', compile object_id output cs = Some (true, output, warnings').
Proof.
  intros Hp Hprint Hc. unfold compile in Hc. rewrite Hp in Hc.
  destruct (analyze cs ast) as [errors warnings0] eqn:Ea.
  destruct errors as [|e errors]; [|discriminate]. injection Hc as <- _.
  pose proof (build_message_refs_ok cs source ast Hp ltac:(now rewrite Ea)) as Hok.
  apply (opt_refs_ok object_id) in Hok.
  destruct (RoundTripFacts.build_renders_message source ast Hp Hprint)
    as (version & content & Eb & Hr).
  destruct (CanonicalFacts.opt_renders_message object_id version content Hr)
    as (content' & Eo & Hr').
  unfold optimize in *. rewrite Eb, Eo in *.
  unfold compile. rewrite (ReparseFacts.parse_generate version content' Hr').
  assert (Herr : fst (analyze cs
                        (message_tree ("@v" +:+ version)
                           (List.map unbuild
                              (match content' with Some l => l | None => [] end)))) = []).
  { apply message_no_errors.
    - cbn [renders_message] in Hr'. apply andb_true_iff in Hr' as [_ Hl].
      destruct content' as [l|]; [|reflexivity]. now apply andb_true_iff in Hl.
    - destruct content' as [l|]; [exact Hok|reflexivity]. }
  destruct (analyze cs (message_tree _ _)) as [errors' warnings'] eqn:Ea'.
  cbn [fst] in Herr. subst errors'.
  exists warnings'. rewrite (ReparseFacts.build_message_tree version content' Hr').
  unfold optimize. rewrite <- Eo.
  now rewrite (opt_idempotent object_id _ (CanonicalFacts.renders_message_keyed _ Hr)).
Qed.

Lemma compile_fixed_point_witness :
  exists warnings',
    compile no_identity "@v1.0{
  #a
  #c1~q{
    ~r{
      ^prev1.a
    }
  }
}" Registry.default_concepts
    = Some (true, "@v1.0{
  #a
  #c1~q{
    ~r{
      ^prev1.a
    }
  }
}", warnings').
Proof.
  apply (compile_fixed_point no_identity Registry.default_concepts
           "@v1.0{#c1~q{~r{^prev1.a}} #a}"
           (message_tree "@v1.0"
              [Node CONCEPT (Some "#c1~q")
                 [Node RELATION (Some "~r")
                    [Node REFERENCE (Some "^prev1.a") [] []] []] [];
               Node CONCEPT (Some "#a") [] []])
           _ []); vm_compute; reflexivity.
Defined.

End CompileFacts.

(** ** The optimizer: what it keeps and how it orders *)

Module OptimizerOrder.
Import Optimizer KeyOrder SortFacts OptimizerFacts Spec Items.

Lemma insert_Permutation {A} (key : A -> string * string * string) x l :
  Permutation (insert key x l) (x :: l).
Proof.
  induction l as [|y l IH]; [reflexivity|]. cbn [insert].
  destruct (key_ltb (key y) (key x)); [|reflexivity].
  rewrite IH. apply perm_swap.
Qed.

Lemma sort_Permutation {A} (key : A -> string * string * string) l :
  Permutation (sort key l) l.
Proof.
  induction l as [|x l IH]; [reflexivity|]. cbn [sort].
  rewrite insert_Permutation. now apply perm_skip.
Qed.

Lemma regroup_Permutation l : Permutation (regroup l) l.
Proof.
  unfold regroup. induction l as [|x l IH]; [reflexivity|]. cbn [List.filter].
  destruct x; cbn [is_concept is_relation negb orb app];
    try (rewrite app_assoc, <- Permutation_middle, <- app_assoc; now apply perm_skip).
  - now apply perm_skip.
  - rewrite <- Permutation_middle. now apply perm_skip.
Qed.

Lemma not_none_not_none l : not_none (not_none l) = not_none l.
Proof.
  unfold not_none. rewrite filter_filter. apply List.filter_ext.
  intros x. now destruct (is_null x).
Qed.

Lemma not_none_Permutation l l' :
  Permutation l l' -> Permutation (not_none l) (not_none l').
Proof.
  unfold not_none. induction 1 as [|x l l' _ IH|x y l|l l' l'' _ IH1 _ IH2];
    cbn [List.filter]; [reflexivity| | |now rewrite IH1].
  - destruct (negb (is_null x)); [now apply perm_skip|exact IH].
  - destruct (negb (is_null x)), (negb (is_null y)); try reflexivity. apply perm_swap.
Qed.

(** X9: Canonicalization keeps the items of every node: the items of the
    result that are not [None] are the canonicalized items of the node that
    are not [None], in some order. *)
Theorem optimize_keeps_items (object_id : IR -> Z) (x : IR) :
  Permutation (not_none (items_of (optimize object_id x)))
    (List.map (optimize object_id) (not_none (items_of x))).
Proof.
  unfold optimize. rewrite _optimize_node_eq.
  destruct x as [|v [l|]|i q [l|]|n [l|]|n [l|]|s p|t v a l];
    cbn [items_of option_map not_none List.filter List.map]; try reflexivity;
    fold (not_none l); rewrite not_none_map_opt.
  - apply Permutation_map. rewrite (not_none_Permutation _ _ (sort_Permutation _ _)).
    now rewrite not_none_not_none.
  - apply Permutation_map. rewrite (not_none_Permutation _ _ (regroup_Permutation _)).
    now rewrite not_none_not_none.
  - now rewrite not_none_not_none.
  - reflexivity.
  - reflexivity.
Qed.

(** X10: The content of a canonicalized message is in the order of the keys
    (type, id, name), when every item of the content has its key: no
    Concept lacks its [id] and no Relation its [name]. *)
Theorem optimize_sorts_content (object_id : IR -> Z) (version : option string)
    (content : list IR) :
  List.forallb has_key content = true ->
  ordered sort_key (items_of (optimize object_id (Message version (Some content)))).
Proof.
  intros Hk. unfold optimize. rewrite _optimize_node_eq. cbn [items_of option_map].
  rewrite <- (sort_map sort_key sort_key (_optimize_node object_id)).
  - apply sort_ordered.
  - intros y Hy. apply opt_sort_key. unfold not_none in Hy.
    apply List.filter_In in Hy as [Hy _].
    exact (proj1 (List.forallb_forall _ _) Hk y Hy).
Qed.

Lemma optimize_sorts_content_witness :
  ordered sort_key
    (items_of (optimize no_identity
                 (Message None (Some [prev1; Relation (Some "r") None;
                                      Concept (Some "b") None None;
                                      Concept (Some "a") None None])))).
Proof. apply optimize_sorts_content. reflexivity. Defined.

(** X11: The children of a canonicalized Concept stand in three groups: the
    Concepts, then the Relations, then the others; [None] entries are
    gone. Each group holds the canonicalized children of its kind, all of
    them and in the order they had. *)
Theorem optimize_groups_children (object_id : IR -> Z) (id qualifier : option string)
    (children : list IR) :
  exists concepts relations others,
    items_of (optimize object_id (Concept id qualifier (Some children)))
    = concepts ++ relations ++ others /\
    List.forallb is_concept concepts = true /\
    List.forallb is_relation relations = true /\
    List.forallb (fun x => is_other x && negb (is_null x)) others = true /\
    concepts = List.map (optimize object_id) (List.filter is_concept children) /\
    relations = List.map (optimize object_id) (List.filter is_relation children) /\
    others = List.map (optimize object_id)
               (List.filter (fun x => negb (is_null x) && is_other x) children).
Proof.
  unfold optimize. rewrite _optimize_node_eq. cbn [items_of option_map].
  rewrite regroup_not_none, !List.map_app.
  eexists; eexists; eexists. split; [reflexivity|].
  assert (H : forall (p : IR -> bool) l,
             (forall x, p (_optimize_node object_id x) = p x) ->
             List.forallb p (List.map (_optimize_node object_id) (List.filter p l)) = true).
  { intros p l Hp. rewrite List.forallb_forall. intros y Hy.
    apply List.in_map_iff in Hy as (x & <- & Hx).
    apply List.filter_In in Hx as [_ Hx]. now rewrite Hp. }
  repeat split.
  - apply H, opt_is_concept.
  - apply H, opt_is_relation.
  - rewrite List.forallb_forall. intros y Hy.
    apply List.in_map_iff in Hy as (x & <- & Hx).
    apply List.filter_In in Hx as [_ Hx]. unfold is_other.
    rewrite opt_is_relation, opt_is_concept, opt_is_null.
    now rewrite andb_comm.
Qed.

End OptimizerOrder.

(** ** References: lowered and printed *)

Module ReferenceText.
Import Py LexerFacts.

Lemma concat_cons sep c h t :
  String.concat sep (String c h :: t) = String c (String.concat sep (h :: t)).
Proof. destruct t as [|y t]; [reflexivity|]. cbn [String.concat]. apply append_cons. Qed.

(** Joining what a split gave, with the separator, gives the text back. *)
Lemma join_split sep s : join (String sep EmptyString) (split sep s) = s.
Proof.
  unfold join. induction s as [|c s IH]; [reflexivity|]. cbn [split].
  destruct (Ascii.eqb_spec c sep) as [->|_].
  - pose proof (BuildFacts.split_not_nil sep s) as Hnil.
    destruct (split sep s) as [|h t]; [contradiction|].
    change (String.concat ?x (EmptyString :: h :: t))
      with (EmptyString +:+ x +:+ String.concat x (h :: t)).
    rewrite append_nil_l, append_cons, append_nil_l. now rewrite IH.
  - pose proof (BuildFacts.split_not_nil sep s) as Hnil.
    destruct (split sep s) as [|h t]; [contradiction|].
    now rewrite concat_cons, IH.
Qed.

(** X8: A reference survives lowering, canonicalization and printing as it
    was written, whatever stands after its sigil: the text printed for a
    reference node is the text of the node. *)
Theorem reference_prints_back (object_id : IR -> Z) (path : string)
    (children : list ASTNode) (attributes : list (string * string)) :
  CodeGenerator.generate
    (Optimizer.optimize object_id
       (IRBuilder.build
          (Node ASTNodeType.REFERENCE (Some (String "^" path)) children attributes)))
  = String "^" path.
Proof.
  unfold CodeGenerator.generate, Optimizer.optimize, IRBuilder.build.
  cbn [IRBuilder._build_node_ir Optimizer._optimize_node]. cbv beta iota zeta.
  pose proof (join_split "." path) as Hjoin.
  pose proof (BuildFacts.split_not_nil "." path) as Hnil.
  destruct (split "." path) as [|source [|p ps]]; [contradiction| |].
  - cbn [option_map List.hd CodeGenerator._generate_node].
    cbn in Hjoin. subst source. now rewrite append_cons, append_nil_l.
  - cbn [option_map List.hd CodeGenerator._generate_node].
    rewrite <- Hjoin. unfold join. cbn [String.concat].
    now rewrite !append_cons, !append_nil_l.
Qed.

End ReferenceText.

(** ** The reference resolver: the buffer and the paths *)

Module ResolverPaths.
Import Py PyFacts Resolver Spec Context ResolverFacts.

(** *** The context buffer *)

Lemma add_to_context_eq message b max :
  snd (add_to_context message (mk_state b max))
  = mk_state (if (max <? len (b ++ [message]))%Z then List.tl (b ++ [message])
              else b ++ [message]) max.
Proof.
  unfold add_to_context, bind, get_buffer, set_buffer, get_max, ret.
  cbn [context_buffer max_context_size snd].
  now destruct (max <? len (b ++ [message]))%Z.
Qed.

Lemma after_adds_latest messages :
  forall b max,
    (len b <= max)%Z ->
    after_adds messages (mk_state b max)
    = mk_state (skipn (List.length (b ++ messages) - Z.to_nat max) (b ++ messages)) max.
Proof.
  unfold len. induction messages as [|m messages IH]; intros b max Hb.
  - cbn [after_adds List.fold_left]. rewrite app_nil_r.
    replace (List.length b - Z.to_nat max)%nat with 0%nat by lia. reflexivity.
  - unfold after_adds. cbn [List.fold_left].
    rewrite add_to_context_eq. fold (after_adds messages).
    unfold len. rewrite length_app. cbn [List.length].
    destruct (Z.ltb_spec max (Z.of_nat (List.length b + 1))) as [Hlt|Hge].
    + destruct b as [|x b]; cbn [List.length] in Hb, Hlt.
      * cbn [app List.tl]. rewrite IH by (cbn [List.length]; lia).
        cbn [app List.length]. f_equal.
        replace (S (List.length messages) - Z.to_nat max)%nat
          with (S (List.length messages - Z.to_nat max)) by lia.
        reflexivity.
      * cbn [app List.tl]. rewrite IH by (rewrite length_app; cbn [List.length]; lia).
        f_equal. rewrite <- !app_assoc. cbn [app].
        assert (Hlen : (Z.to_nat max <= List.length (b ++ m :: messages))%nat)
          by (rewrite length_app; cbn [List.length]; lia).
        revert Hlen. generalize (b ++ m :: messages). intros l Hlen.
        cbn [List.length].
        replace (S (List.length l) - Z.to_nat max)%nat
          with (S (List.length l - Z.to_nat max)) by lia.
        reflexivity.
    + rewrite IH by (rewrite length_app; cbn [List.length]; lia).
      now rewrite <- !app_assoc.
Qed.

(** X14: The buffer holds the latest messages: after any number of calls of
    [add_to_context] on a new resolver whose maximum size is not negative,
    it holds the last [max_context_size] messages added (all of them when
    they are fewer), the oldest first, and the maximum size is as it
    was. *)
Theorem context_keeps_latest (max : Z) (messages : list pyval) :
  (0 <= max)%Z ->
  context_buffer (after_adds messages (init max))
  = skipn (List.length messages - Z.to_nat max) messages /\
  max_context_size (after_adds messages (init max)) = max.
Proof.
  intros Hmax. unfold init.
  rewrite (after_adds_latest messages [] max) by (unfold len; cbn [List.length]; lia).
  now split.
Qed.

Lemma context_keeps_latest_witness :
  context_buffer (after_adds [PInt 1; PInt 2; PInt 3] (init 2)) = [PInt 2; PInt 3].
Proof. apply (context_keeps_latest 2 [PInt 1; PInt 2; PInt 3]). lia. Defined.

(** *** References to the latest message *)

Lemma resolve_reference_state ref_token st :
  snd (resolve_reference ref_token st) = st.
Proof.
  unfold resolve_reference, bind, get_buffer, ret.
  repeat match goal with
         | |- context [if ?b then _ else _] => destruct b
         | |- context [match ?x with _ => _ end] => destruct x
         end; reflexivity.
Qed.

(** [resolve_reference] on a token with its sigil, by the parts of the
    text after the sigil. *)
Lemma resolve_parts text st :
  resolve_reference (String "^" text) st =
  (let parts := split "." text in
   let head := List.hd EmptyString parts in
   let path := List.tl parts in
   if startswith head "prev" then
     match int (drop 4 head) with
     | None => PNone
     | Some i =>
         if ((i <=? 0) || (len (context_buffer st) <? i))%Z then PNone
         else match index (context_buffer st) (- i) with
              | Some message => _resolve_path message path
              | None => PNone
              end
     end
   else if String.eqb head "self" then
     match context_buffer st with
     | [] => PNone
     | _ => match index (context_buffer st) (-1) with
            | Some message => _resolve_path message path
            | None => PNone
            end
     end
   else if String.eqb head "shared" then shared_knowledge (join "." path)
   else PNone, st).
Proof.
  unfold resolve_reference. rewrite (startswith_cons "^" EmptyString "^" text), startswith_nil.
  cbn [Ascii.eqb Bool.eqb andb negb]. change (drop 1 (String "^" text)) with text.
  cbv zeta. unfold bind, get_buffer, ret.
  destruct (startswith (List.hd EmptyString (split "." text)) "prev").
  - destruct (int (drop 4 (List.hd EmptyString (split "." text)))) as [i|]; [|reflexivity].
    destruct ((i <=? 0) || (len (context_buffer st) <? i))%Z; [reflexivity|].
    now destruct (index (context_buffer st) (- i)).
  - destruct (String.eqb (List.hd EmptyString (split "." text)) "self").
    + destruct (context_buffer st); [reflexivity|].
      now destruct (index _ (-1)).
    + now destruct (String.eqb (List.hd EmptyString (split "." text)) "shared").
Qed.

Lemma split_head head path :
  contains "." head = false ->
  split "." (head +:+ String "." path) = head :: split "." path.
Proof. apply UnbuildFacts.split_app. Qed.

Lemma index_last {A} (l : list A) (x : A) : index (l ++ [x]) (-1) = Some x.
Proof.
  change (-1)%Z with (- Z.of_nat 1)%Z.
  rewrite (index_from_end (l ++ [x]) 1) by (rewrite length_app; cbn [List.length]; lia).
  now rewrite rev_app_distr.
Qed.

Lemma resolve_self path st :
  fst (resolve_reference ("^self." +:+ path) st) =
  match context_buffer st with
  | [] => PNone
  | _ => match index (context_buffer st) (-1) with
         | Some message => _resolve_path message (split "." path)
         | None => PNone
         end
  end.
Proof.
  change ("^self." +:+ path) with (String "^" ("self" +:+ String "." path)).
  rewrite resolve_parts, split_head by reflexivity. reflexivity.
Qed.

Lemma resolve_prev1 path st :
  fst (resolve_reference ("^prev1." +:+ path) st) =
  match context_buffer st with
  | [] => PNone
  | _ => match index (context_buffer st) (-1) with
         | Some message => _resolve_path message (split "." path)
         | None => PNone
         end
  end.
Proof.
  change ("^prev1." +:+ path) with (String "^" ("prev1" +:+ String "." path)).
  rewrite resolve_parts, split_head by reflexivity. cbv zeta.
  cbn [List.hd List.tl fst]. change (startswith "prev1" "prev") with true.
  change (int (drop 4 "prev1")) with (Some 1%Z). cbv iota.
  change (1 <=? 0)%Z with false. cbn [orb]. unfold len.
  destruct (context_buffer st) as [|x b]; [reflexivity|].
  cbn [List.length]. destruct (Z.ltb_spec (Z.of_nat (S (List.length b))) 1); [lia|].
  reflexivity.
Qed.

(** X16: [^self] and [^prev1] are the same reference: with the same path they
    resolve alike in every state of the resolver. *)
Theorem self_is_prev1 (st : state) :
  resolve_reference "^self" st = resolve_reference "^prev1" st /\
  forall path,
    resolve_reference ("^self." +:+ path) st
    = resolve_reference ("^prev1." +:+ path) st.
Proof.
  split.
  - rewrite !resolve_parts. cbv zeta. cbn [split Ascii.eqb Bool.eqb List.hd List.tl].
    change (startswith "self" "prev") with false.
    change (startswith "prev1" "prev") with true.
    change (int (drop 4 "prev1")) with (Some 1%Z).
    cbn [String.eqb Ascii.eqb Bool.eqb]. change (1 <=? 0)%Z with false. cbn [orb].
    unfold len. destruct (context_buffer st) as [|x b]; [reflexivity|].
    cbn [List.length]. destruct (Z.ltb_spec (Z.of_nat (S (List.length b))) 1); [lia|].
    reflexivity.
  - intros path.
    rewrite (surjective_pairing (resolve_reference ("^self." +:+ path) st)).
    rewrite (surjective_pairing (resolve_reference ("^prev1." +:+ path) st)).
    rewrite resolve_self, resolve_prev1.
    now rewrite !resolve_reference_state.
Qed.

Lemma added_last message st :
  (1 <= max_context_size st)%Z ->
  exists older, context_buffer (snd (add_to_context message st)) = older ++ [message].
Proof.
  destruct st as [b max]. cbn [max_context_size]. intros Hmax.
  rewrite add_to_context_eq. cbn [context_buffer].
  destruct (max <? len (b ++ [message]))%Z eqn:E; [|now exists b].
  destruct b as [|x b]; [|now exists b].
  unfold len in E. cbn [app List.length] in E. apply Z.ltb_lt in E. lia.
Qed.

(** X15: The message just added is the one that [^prev1] and [^self] name:
    when the maximum size is at least 1, after [add_to_context(message)]
    both resolve to the message, and with a path to what the path leads to
    in the message. *)
Theorem added_message_is_latest (message : pyval) (st : state) :
  (1 <= max_context_size st)%Z ->
  let st' := snd (add_to_context message st) in
  fst (resolve_reference "^prev1" st') = message /\
  fst (resolve_reference "^self" st') = message /\
  forall path,
    fst (resolve_reference ("^self." +:+ path) st')
    = _resolve_path message (split "." path) /\
    fst (resolve_reference ("^prev1." +:+ path) st')
    = _resolve_path message (split "." path).
Proof.
  intros Hmax st'. destruct (added_last message st Hmax) as (older & E).
  fold st' in E.
  assert (Hlast : forall path,
             match context_buffer st' with
             | [] => PNone
             | _ => match index (context_buffer st') (-1) with
                    | Some m => _resolve_path m path
                    | None => PNone
                    end
             end = _resolve_path message path).
  { intros path. rewrite E, index_last. now destruct older. }
  split; [|split].
  - rewrite resolve_parts. cbv zeta. cbn [split Ascii.eqb Bool.eqb List.hd List.tl fst].
    change (startswith "prev1" "prev") with true.
    change (int (drop 4 "prev1")) with (Some 1%Z). cbv iota.
    change (1 <=? 0)%Z with false. cbn [orb].
    rewrite E, index_last. unfold len. rewrite length_app. cbn [List.length].
    destruct (Z.ltb_spec (Z.of_nat (List.length older + 1)) 1); [lia|reflexivity].
  - rewrite resolve_parts. cbv zeta. cbn [split Ascii.eqb Bool.eqb List.hd List.tl fst].
    change (startswith "self" "prev") with false.
    cbn [String.eqb Ascii.eqb Bool.eqb]. exact (Hlast []).
  - intros path. rewrite resolve_self, resolve_prev1. split; apply Hlast.
Qed.

Lemma added_message_is_latest_witness :
  fst (resolve_reference "^self.a"
         (snd (add_to_context (PDict [("a", PInt 7)]) three_entries))) = PInt 7.
Proof.
  destruct (added_message_is_latest (PDict [("a", PInt 7)]) three_entries)
    as (_ & _ & H); [cbn; lia|].
  exact (proj1 (H "a")).
Defined.

(** *** Paths *)

Lemma resolve_path_none path : _resolve_path PNone path = PNone.
Proof. now destruct path. Qed.

Lemma resolve_path_app current p q :
  _resolve_path current (p ++ q) = _resolve_path (_resolve_path current p) q.
Proof.
  revert current. induction p as [|segment p IH]; intros current; [reflexivity|].
  cbn [app _resolve_path].
  destruct current as [| | | |l|d]; try (now rewrite resolve_path_none).
  - destruct (int segment) as [i|].
    + destruct ((0 <=? i) && (i <? len l))%Z; [|now rewrite resolve_path_none].
      destruct (nth_error l (Z.to_nat i)); [apply IH|now rewrite resolve_path_none].
    + destruct (startswith segment "#"); [|now rewrite resolve_path_none].
      destruct (List.find _ l); [apply IH|now rewrite resolve_path_none].
  - destruct (startswith segment "#").
    + destruct (List.find _ d) as [[k v]|]; [apply IH|now rewrite resolve_path_none].
    + destruct (dict_get d segment); try apply IH. now rewrite resolve_path_none.
Qed.

Lemma split_dot p q :
  split "." (p +:+ String "." q) = split "." p ++ split "." q.
Proof.
  induction p as [|c p IH].
  - now rewrite LexerFacts.append_nil_l.
  - rewrite LexerFacts.append_cons. cbn [split]. rewrite IH.
    destruct (Ascii.eqb c "."); [reflexivity|].
    pose proof (BuildFacts.split_not_nil "." p) as Hnil.
    now destruct (split "." p).
Qed.

(** X18: Paths compose: a path resolves to what its second part resolves to in
    what its first part resolves to, "not found" included; so does a
    dotted path that [resolve_reference] splits. *)
Theorem resolve_path_composes (current : pyval) :
  (forall p q : list string,
      _resolve_path current (p ++ q) = _resolve_path (_resolve_path current p) q) /\
  (forall p q : string,
      _resolve_path current (split "." (p +:+ "." +:+ q))
      = _resolve_path (_resolve_path current (split "." p)) (split "." q)).
Proof.
  split; [apply resolve_path_app|].
  intros p q. change ("." +:+ q) with (String "." q).
  now rewrite split_dot, resolve_path_app.
Qed.

Lemma int_str_neg (p : positive) :
  int ("-" +:+ str (Z.pos p)) = Some (Z.neg p).
Proof.
  change (Z.pos p) with (Z.of_N (N.pos p)).
  pose proof (str_nonneg_digits (N.pos p)) as Hd.
  unfold int. rewrite int_strip_no_space.
  - change ("-" +:+ ?s) with (String "-" s). cbv iota.
    rewrite str_nonneg, digits_value_N. reflexivity.
  - change ("-" +:+ ?s) with (String "-" s). cbn [all_chars].
    change (negb (int_space "-")) with true. cbn [andb]. revert Hd.
    apply all_chars_impl. intros c Hc. now rewrite (isdigit_not_int_space c Hc).
Qed.

(** X19: A segment that is a number indexes a list from its front, from 0: an
    index beyond the end is not found, and a negative index is not found
    either (it does not count from the end, as the index of [^prevK]
    does). *)
Theorem list_segment_indexes_from_front (items : list pyval) (rest : list string) :
  (forall n : N,
      _resolve_path (PList items) (str (Z.of_N n) :: rest)
      = match nth_error items (N.to_nat n) with
        | Some item => _resolve_path item rest
        | None => PNone
        end) /\
  (forall p : positive,
      _resolve_path (PList items) (("-" +:+ str (Z.pos p)) :: rest) = PNone).
Proof.
  split.
  - intros n. cbn [_resolve_path]. rewrite int_str_N.
    destruct (Z.leb_spec 0 (Z.of_N n)); [|lia]. cbn [andb].
    replace (Z.to_nat (Z.of_N n)) with (N.to_nat n) by lia.
    unfold len. destruct (Z.ltb_spec (Z.of_N n) (Z.of_nat (List.length items))) as [Hlt|Hge].
    + reflexivity.
    + destruct (nth_error items (N.to_nat n)) eqn:E; [|reflexivity].
      assert (N.to_nat n < List.length items)%nat
        by (apply List.nth_error_Some; congruence).
      lia.
  - intros p. cbn [_resolve_path]. now rewrite int_str_neg.
Qed.

(** X17: A [shared] reference resolves, in every state of the resolver, to the
    placeholder that carries the text after [^shared.] as it was
    written. *)
Theorem shared_reference_placeholder (st : state) (path : string) :
  fst (resolve_reference ("^shared." +:+ path) st) = shared_knowledge path /\
  fst (resolve_reference "^shared" st) = shared_knowledge EmptyString.
Proof.
  split.
  - change ("^shared." +:+ path) with (String "^" ("shared" +:+ String "." path)).
    rewrite resolve_parts, split_head by reflexivity. cbv zeta.
    cbn [List.hd List.tl fst]. change (startswith "shared" "prev") with false.
    cbn [String.eqb Ascii.eqb Bool.eqb].
    now rewrite (ReferenceText.join_split "." path).
  - now rewrite resolve_parts.
Qed.

End ResolverPaths.

(** ** The concept registry: what [add_concept] keeps *)

Module RegistryLookup.
Import Py PyFacts Registry RegistryFacts ConceptSpace.

(** Back-patching changes edge lists only. *)
Lemma back_patch_label e x reg i k :
  option_map (fun c => (label c, definition c)) (back_patch e x reg i !! k)
  = option_map (fun c => (label c, definition c)) (reg !! k).
Proof.
  unfold back_patch. destruct (reg !! i) as [c|] eqn:E; [|reflexivity].
  destruct (decide (x ∈ get_edge e c)); [reflexivity|].
  destruct (decide (i = k)) as [->|Hne].
  - rewrite lookup_insert_eq, E. now destruct e.
  - now rewrite lookup_insert_ne.
Qed.

Lemma foldl_back_patch_label e x l reg k :
  option_map (fun c => (label c, definition c)) (foldl (back_patch e x) reg l !! k)
  = option_map (fun c => (label c, definition c)) (reg !! k).
Proof.
  revert reg. induction l as [|i l IH]; intros reg; [reflexivity|].
  cbn [foldl]. now rewrite IH, back_patch_label.
Qed.

Lemma add_concept_label lbl def rel hypo hyper reg new_id reg' k :
  add_concept lbl def rel hypo hyper reg = Some (new_id, reg') ->
  option_map (fun c => (label c, definition c)) (reg' !! k)
  = option_map (fun c => (label c, definition c))
      (<[new_id := mk_concept lbl def rel hypo hyper]> reg !! k).
Proof.
  unfold add_concept. destruct (py_max (key_numbers reg)) as [m|]; [|discriminate].
  intros E. injection E as <- <-.
  now rewrite !foldl_back_patch_label.
Qed.

(** X20: After [add_concept], the new id is one the registry did not have, it
    names a concept with the label and the definition given, and
    [concept_id_to_label] turns it into that label; every concept that was
    registered is still registered under its id with its label and its
    definition, and no other id has appeared. *)
Theorem add_concept_lookup (lbl def : string) (rel hypo hyper : list string)
    (reg : concepts) (new_id : string) (reg' : concepts) :
  add_concept lbl def rel hypo hyper reg = Some (new_id, reg') ->
  get_concept reg new_id = None /\
  (exists c, get_concept reg' new_id = Some c /\ label c = lbl /\ definition c = def) /\
  concept_id_to_label reg' new_id = lbl /\
  (forall i c,
      get_concept reg i = Some c ->
      exists c', get_concept reg' i = Some c' /\
                 label c' = label c /\ definition c' = definition c) /\
  (forall i, i <> new_id -> get_concept reg i = None -> get_concept reg' i = None).
Proof.
  intros Hadd. pose proof (fun k => add_concept_label _ _ _ _ _ _ _ _ k Hadd) as Hl.
  destruct (add_concept_extends _ _ _ _ _ _ _ _ Hadd) as [Hfresh _].
  unfold concept_id_to_label, get_concept.
  assert (Hnew : exists c, reg' !! new_id = Some c /\ label c = lbl /\ definition c = def).
  { specialize (Hl new_id). rewrite lookup_insert_eq in Hl. cbn [option_map] in Hl.
    destruct (reg' !! new_id) as [c|]; [|discriminate].
    injection Hl as H1 H2. now exists c. }
  split; [exact Hfresh|]. split; [exact Hnew|]. split; [|split].
  - destruct Hnew as (c & -> & H & _). exact H.
  - intros i c Hi. specialize (Hl i).
    assert (i <> new_id) by congruence.
    rewrite lookup_insert_ne, Hi in Hl by congruence. cbn [option_map] in Hl.
    destruct (reg' !! i) as [c'|]; [|discriminate].
    injection Hl as H1 H2. now exists c'.
  - intros i Hne Hi. specialize (Hl i).
    rewrite lookup_insert_ne, Hi in Hl by congruence.
    now destruct (reg' !! i).
Qed.

Lemma add_concept_lookup_witness :
  exists new_id reg',
    add_concept "ethics" "Moral principles" ["c142"] [] [] default_concepts
    = Some (new_id, reg') /\
    concept_id_to_label reg' new_id = "ethics" /\
    concept_id_to_label reg' "c142" = "artificial_intelligence".
Proof.
  destruct (add_concept "ethics" "Moral principles" ["c142"] [] [] default_concepts)
    as [[new_id reg']|] eqn:E; [|vm_compute in E; discriminate].
  exists new_id, reg'. split; [reflexivity|].
  destruct (add_concept_lookup _ _ _ _ _ _ _ _ E) as (_ & _ & Hnew & Hold & _).
  split; [exact Hnew|].
  destruct (Hold "c142" (mk_concept "artificial_intelligence"
        "The theory and development of computer systems able to perform tasks normally requiring human intelligence"
        ["c143"; "c501"; "c8901"] ["c501"; "c9872"] ["c140"]) ltac:(reflexivity))
    as (c' & Hc' & Hlabel & _).
  unfold concept_id_to_label. now rewrite Hc'.
Defined.

(** *** When [add_concept] raises *)

Lemma uint_of_digits s :
  all_chars isdigit s = true -> exists d, NilEmpty.uint_of_string s = Some d.
Proof.
  induction s as [|c s IH]; [now exists Decimal.Nil|].
  cbn [all_chars]. rewrite andb_true_iff. intros [Hc Hs].
  destruct (IH Hs) as (d & Hd). cbn [NilEmpty.uint_of_string]. rewrite Hd.
  destruct c as [[] [] [] [] [] [] [] []]; vm_compute in Hc; try discriminate;
    cbn; eauto.
Qed.

(** [int] reads every non-empty string of digits. *)
Lemma str_isdigit_int s : str_isdigit s = true -> exists z, int s = Some z.
Proof.
  unfold str_isdigit. destruct s as [|c r]; [discriminate|]. intros Hd.
  unfold int. rewrite (int_strip_digits _ Hd).
  pose proof Hd as Hc. cbn [all_chars] in Hc. apply andb_true_iff in Hc as [Hc _].
  rewrite (first_digit_not_sign c r Hc). unfold digits_value.
  rewrite (grouped_digits _ false Hd), (ungroup_digits _ Hd).
  destruct (uint_of_digits _ Hd) as (d & Hu).
  unfold NilZero.uint_of_string. rewrite Hu. eauto.
Qed.

Lemma py_max_none l : py_max l = None <-> l = [].
Proof. now destruct l. Qed.

(** X21: [add_concept] raises (the [ValueError] of [max] on an empty sequence)
    exactly when no id of the registry is digits after its first
    character; so it raises on an empty registry, whatever it is given. *)
Theorem add_concept_raises (lbl def : string) (rel hypo hyper : list string)
    (reg : concepts) :
  (add_concept lbl def rel hypo hyper reg = None <->
   forall i, is_Some (get_concept reg i) -> str_isdigit (drop 1 i) = false) /\
  add_concept lbl def rel hypo hyper ∅ = None.
Proof.
  split; [|reflexivity].
  unfold add_concept, get_concept.
  destruct (py_max (key_numbers reg)) as [m|] eqn:E.
  - split; [discriminate|]. intros H. exfalso.
    apply py_max_In in E. unfold key_numbers in E.
    apply List.in_flat_map in E as ([k c] & Hin & Hz). cbn [fst] in Hz.
    destruct (str_isdigit (drop 1 k)) eqn:Ed; [|destruct Hz].
    apply list_elem_of_In, elem_of_map_to_list in Hin.
    rewrite (H k) in Ed; [discriminate|]. now exists c.
  - split; [|reflexivity]. intros _ i [c Hi].
    destruct (str_isdigit (drop 1 i)) eqn:Ed; [|reflexivity].
    destruct (str_isdigit_int _ Ed) as (z & Hz).
    apply py_max_none in E. pose proof (key_numbers_elem_of reg i c z Hi Ed Hz) as Hin.
    rewrite E in Hin. destruct Hin.
Qed.

End RegistryLookup.

(** ** LLMCLParser: the lines of a nested block *)

Module NestedBlocks.
Import Py LLMCLParser LexerFacts.

Lemma find_drop c s n : find c s = Some n -> exists r, drop n s = String c r.
Proof.
  revert n. induction s as [|d s IH]; intros n; [discriminate|].
  cbn [find]. destruct (Ascii.eqb_spec d c) as [->|_].
  - intros [= <-]. now exists s.
  - destruct (find c s) as [m|]; [|discriminate]. intros [= <-].
    cbn [drop]. now apply IH.
Qed.

(** [s.find(c)] splits [s] at the first [c]. *)
Lemma find_split c s n :
  find c s = Some n ->
  exists before, s = before +:+ drop n s /\ contains c before = false.
Proof.
  revert n. induction s as [|d s IH]; intros n; [discriminate|].
  cbn [find]. destruct (Ascii.eqb d c) eqn:E.
  - intros [= <-]. now exists EmptyString.
  - destruct (find c s) as [m|]; [|discriminate]. intros [= <-].
    destruct (IH m eq_refl) as (before & Hs & Hb). exists (String d before).
    cbn [drop contains]. rewrite append_cons, <- Hs, E, Hb. now split.
Qed.

Lemma contains_drop c n s : contains c s = false -> contains c (drop n s) = false.
Proof.
  revert s. induction n as [|n IH]; intros s; [now destruct s|].
  destruct s as [|d s]; [easy|]. cbn [contains drop]. rewrite orb_false_iff.
  intros [_ H]. now apply IH.
Qed.

Lemma contains_lstrip c s : contains c s = false -> contains c (lstrip s) = false.
Proof.
  induction s as [|d s IH]; [easy|]. intros H. cbn [lstrip].
  destruct (isspace d); [|exact H].
  cbn [contains] in H. apply orb_false_iff in H as [_ H]. now apply IH.
Qed.

Lemma contains_rstrip c s : contains c s = false -> contains c (rstrip s) = false.
Proof.
  induction s as [|d s IH]; [easy|]. cbn [contains]. rewrite orb_false_iff.
  intros [Hd Hs]. specialize (IH Hs). cbn [rstrip].
  destruct (rstrip s) as [|e r].
  - destruct (isspace d); [reflexivity|]. cbn [contains]. now rewrite Hd.
  - cbn [contains] in *. now rewrite Hd.
Qed.

Lemma contains_strip c s : contains c s = false -> contains c (strip s) = false.
Proof. intros H. unfold strip. now apply contains_rstrip, contains_lstrip. Qed.

Lemma count_none c s : contains c s = false -> count c s = 0%Z.
Proof.
  induction s as [|d s IH]; [reflexivity|]. cbn [contains count].
  rewrite orb_false_iff. intros [-> Hs]. now rewrite (IH Hs).
Qed.

Lemma count_app c a b : count c (a +:+ b) = (count c a + count c b)%Z.
Proof.
  induction a as [|d a IH]; [now rewrite append_nil_l|].
  rewrite append_cons. cbn [count]. rewrite IH. lia.
Qed.

(** A text of lines without line feed, joined by line feeds, has one line
    feed for each line after the first. *)
Lemma count_joined x l :
  List.Forall (fun line => contains "010" line = false) (x :: l) ->
  count "010" (join (String "010" EmptyString) (x :: l)) = Z.of_nat (List.length l).
Proof.
  unfold join. revert x. induction l as [|y l IH]; intros x Hall.
  - cbn [String.concat List.length]. apply count_none. now inversion Hall.
  - change (String.concat ?sep (x :: y :: l))
      with (x +:+ sep +:+ String.concat sep (y :: l)).
    rewrite !count_app, (IH y) by now inversion Hall.
    rewrite (count_none _ x) by now inversion Hall.
    cbn [count Ascii.eqb Bool.eqb List.length]. lia.
Qed.

(** The loop over the following lines: it takes a beginning of them, the
    count afterwards is that of the lines taken, and no count before the
    last line was zero. *)
Lemma take_lines_spec lines :
  forall c taken final,
    take_lines c lines = (taken, final) ->
    (exists rest, lines = taken ++ rest) /\
    final = List.fold_left braces taken c /\
    (forall k, (0 < k < List.length taken)%nat ->
               List.fold_left braces (firstn k taken) c <> 0%Z).
Proof.
  induction lines as [|line lines IH]; intros c taken final.
  - intros [= <- <-]. repeat split; [now exists []|]. cbn [List.length]. lia.
  - cbn [take_lines]. destruct (Z.eqb_spec (braces c line) 0) as [Hz|Hnz].
    + intros [= <- <-]. repeat split; [now exists lines|]. cbn [List.length]. lia.
    + destruct (take_lines (braces c line) lines) as [taken' final'] eqn:E.
      intros [= <- <-]. destruct (IH _ _ _ E) as ((rest & ->) & -> & Hmin).
      repeat split; [now exists rest|].
      intros [|k] Hk; [lia|]. cbn [firstn List.fold_left List.length] in *.
      destruct k as [|k]; [exact Hnz|]. apply Hmin. lia.
Qed.

Lemma extract_inv lines start text :
  _extract_nested_content lines start = Ok text ->
  exists raw idx taken,
    nth_error lines start = Some raw /\ find "{" (strip raw) = Some idx /\
    take_lines 1 (skipn (S start) lines) = (taken, 0%Z) /\
    text = join (String "010" EmptyString) (drop idx (strip raw) :: taken).
Proof.
  unfold _extract_nested_content.
  destruct (nth_error lines start) as [raw|]; [|discriminate].
  destruct (find "{" (strip raw)) as [idx|] eqn:Ef; [|discriminate].
  destruct (take_lines 1 (skipn (S start) lines)) as [taken c] eqn:E.
  destruct (Z.eqb_spec c 0) as [->|_]; [|discriminate].
  intros Hok. exists raw, idx, taken. repeat split; [exact Ef|congruence].
Qed.

(** X22: The block that [_extract_nested_content] returns, for lines that hold
    no line feed (they come from a split at line feeds): the rest of the
    start line, stripped, from its first opening brace on, and the
    following lines up to the first at whose end the braces counted from 1
    are balanced. At least one following line is taken, and
    [_count_nested_lines] of the block is the number of lines it spans, so
    the caller's index, moved on by it, stays within the lines. *)
Theorem nested_block_lines (lines : list string) (start : nat) (text : string) :
  List.Forall (fun line => contains "010" line = false) lines ->
  _extract_nested_content lines start = Ok text ->
  exists raw before first taken rest,
    nth_error lines start = Some raw /\
    strip raw = before +:+ first /\
    contains "{" before = false /\
    text = join (String "010" EmptyString) (first :: taken) /\
    startswith first "{" = true /\
    skipn (S start) lines = taken ++ rest /\
    taken <> [] /\
    _count_nested_lines text = Z.of_nat (S (List.length taken)) /\
    (start + S (List.length taken) <= List.length lines)%nat /\
    List.fold_left braces taken 1%Z = 0%Z /\
    forall k, (0 < k < List.length taken)%nat ->
              List.fold_left braces (firstn k taken) 1%Z <> 0%Z.
Proof.
  intros Hall Hx. apply extract_inv in Hx as (raw & idx & taken & Hraw & Hfind & Htake & ->).
  destruct (take_lines_spec _ _ _ _ Htake) as ((rest & Hrest) & Hfinal & Hmin).
  destruct (find_drop _ _ _ Hfind) as (r & Hfirst).
  destruct (find_split _ _ _ Hfind) as (before & Hsplit & Hbefore).
  exists raw, before, (drop idx (strip raw)), taken, rest.
  assert (Hlen : (start + S (List.length taken) <= List.length lines)%nat).
  { pose proof (f_equal (@List.length _) Hrest) as L.
    rewrite length_skipn, length_app in L.
    assert (start < List.length lines)%nat
      by (apply List.nth_error_Some; congruence).
    lia. }
  assert (Hlines : List.Forall (fun line => contains "010" line = false)
                     (drop idx (strip raw) :: taken)).
  { rewrite List.Forall_forall in Hall. constructor.
    - apply contains_drop, contains_strip, Hall. eapply nth_error_In; eauto.
    - rewrite List.Forall_forall. intros line Hin. apply Hall.
      rewrite <- (List.firstn_skipn (S start) lines), Hrest.
      apply List.in_or_app. right. apply List.in_or_app. now left. }
  repeat split; try easy.
  - rewrite Hfirst. now rewrite PyFacts.startswith_cons, PyFacts.startswith_nil, Ascii.eqb_refl.
  - intros ->. cbn in Hfinal. discriminate.
  - unfold _count_nested_lines. rewrite count_joined by exact Hlines. lia.
Qed.

Lemma nested_block_lines_witness :
  exists raw before first taken rest,
    nth_error ["  #a{"; "    #b"; "  }"; "  #c"] 0 = Some raw /\
    strip raw = before +:+ first /\
    contains "{" before = false /\
    "{
    #b
  }" = join (String "010" EmptyString) (first :: taken) /\
    startswith first "{" = true /\
    skipn 1 ["  #a{"; "    #b"; "  }"; "  #c"] = taken ++ rest /\
    taken <> [] /\
    _count_nested_lines "{
    #b
  }" = Z.of_nat (S (List.length taken)) /\
    (0 + S (List.length taken) <= 4)%nat /\
    List.fold_left braces taken 1%Z = 0%Z /\
    forall k, (0 < k < List.length taken)%nat ->
              List.fold_left braces (firstn k taken) 1%Z <> 0%Z.
Proof.
  apply (nested_block_lines ["  #a{"; "    #b"; "  }"; "  #c"] 0).
  - repeat constructor.
  - reflexivity.
Defined.

(** X23: A block that opens on the last line is refused as unbalanced, even
    when it closes on that line: the braces of the start line are not
    counted, and no line follows to balance the one that is assumed. *)
Theorem block_on_last_line (lines : list string) (start : nat) (raw : string) :
  nth_error lines start = Some raw ->
  S start = List.length lines ->
  contains "{" (strip raw) = true ->
  _extract_nested_content lines start
  = ValueError "Unbalanced braces in nested content".
Proof.
  intros Hraw Hlast Hopen. unfold _extract_nested_content. rewrite Hraw.
  assert (Hfind : exists idx, find "{" (strip raw) = Some idx).
  { clear Hraw. induction (strip raw) as [|d s IH]; [discriminate|].
    cbn [contains find] in *. destruct (Ascii.eqb d "{"); [now exists 0|].
    destruct (IH Hopen) as (idx & ->). now exists (S idx). }
  destruct Hfind as (idx & ->).
  rewrite skipn_all2 by lia. reflexivity.
Qed.

Lemma block_on_last_line_witness :
  _extract_nested_content ["#a{}"] 0
  = ValueError "Unbalanced braces in nested content".
Proof. now apply (block_on_last_line ["#a{}"] 0 "#a{}"). Defined.

End NestedBlocks.

(** ** The version of a lowered message *)

Module LoweredVersion.
Import Py TokenType Parser Grammar RoundTrip.

(** X7: Lowering a text that parsed always finds the version: the IR of the
    message has under [version] the number of the marker [@v<number>], and
    canonicalization keeps it. The default ["1.0"] of the optimizer and of
    the printer is never used on the way through [compile]. *)
Theorem lowered_version (object_id : IR -> Z) (text : string) (ast : ASTNode) :
  parse (Lexer.tokenize text) = Some (ast, []) ->
  exists version content content',
    List.hd_error (node_children ast)
    = Some (Node ASTNodeType.VERSION (Some ("@v" +:+ version)) [] []) /\
    IRBuilder.build ast = Message (Some version) content /\
    Optimizer.optimize object_id (IRBuilder.build ast) = Message (Some version) content'.
Proof.
  intros Hp.
  destruct (ParserSound.parse_inv _ _ (ParserSound.tokenize_shaped text) Hp)
    as (v & children & -> & Hv & _ & _).
  destruct (RoundTripFacts.shaped_version_text v Hv) as (version & ->).
  assert (E : IRBuilder.message_version
                (Node ASTNodeType.VERSION (Some ("@v" +:+ version)) [] [] :: children)
              = Some version).
  { unfold IRBuilder.message_version.
    cbn [List.filter node_type ASTNodeType.eqb node_value].
    now apply PrinterFacts.search_version_shaped. }
  exists version. eexists. eexists. split; [reflexivity|].
  unfold Optimizer.optimize, IRBuilder.build, message_tree.
  rewrite OptimizerFacts._optimize_node_eq.
  cbn [IRBuilder._build_node_ir]. rewrite E. split; reflexivity.
Qed.

Lemma lowered_version_witness :
  exists version content content',
    List.hd_error (node_children (message_tree "@v12.5" []))
    = Some (Node ASTNodeType.VERSION (Some ("@v" +:+ version)) [] []) /\
    IRBuilder.build (message_tree "@v12.5" []) = Message (Some version) content /\
    Optimizer.optimize Spec.no_identity (IRBuilder.build (message_tree "@v12.5" []))
    = Message (Some version) content'.
Proof. apply (lowered_version Spec.no_identity "@v12.5{}"). reflexivity. Defined.

End LoweredVersion.
